(** * Qubit routing environments (routing/env.py): shallow embedding

    The routing state machine of [routing/env.py] is embedded as executable
    Rocq functions.  Python attributes become record fields, methods that
    mutate [self] become computations in a state-and-exception monad (an
    exception keeps the mutations made before it was raised, as in Python),
    read-only methods become functions into [outcome].

    Conventions of the embedding:
    - physical nodes, logical qubits and action indices are natural numbers
      (rustworkx node indices, qubit indices and gymnasium [Discrete] actions
      are non-negative);
    - a [Qubit] object is identified with its index in the circuit, so the
      helpers [qubits_to_indices] and [indices_to_qubits] of the [utils] module
      are the identity on index tuples;
    - rewards are Python floats; they are idealised as rationals [Q], which
      keeps the constants and the shape of every formula exact;
    - a [DAGOpNode] is hashed and compared through its node id;
    - qiskit's [DAGCircuit] is a list of operation nodes in circuit order, an
      operation depending on the previous operation on each of its wires. *)

From Stdlib Require Import QArith String.
From stdpp Require Import base option list sorting gmap.

Open Scope nat_scope.

(** ** Exceptions and the two monads *)

Inductive exn :=
  | IndexError
  | KeyError
  | TypeError
  | ValueError (msg : string).

Inductive outcome (A : Type) :=
  | Ok (a : A)
  | Raise (e : exn).
Arguments Ok {A} a.
Arguments Raise {A} e.

Definition obind {A B} (o : outcome A) (f : A -> outcome B) : outcome B :=
  match o with
  | Ok a => f a
  | Raise e => Raise e
  end.

Definition omap_outcome {A B} (f : A -> B) (o : outcome A) : outcome B :=
  obind o (fun a => Ok (f a)).

Notation "'try' x <- m ; k" := (obind m (fun x => k))
  (at level 10, x name, m at level 100, k at level 200).

(** Methods that mutate [self]: the state after an exception is the state at
    the point where it was raised. *)
Definition M (S A : Type) : Type := S -> outcome A * S.

Definition ret {S A} (a : A) : M S A := fun s => (Ok a, s).

Definition bind {S A B} (m : M S A) (f : A -> M S B) : M S B := fun s =>
  match m s with
  | (Ok a, s') => f a s'
  | (Raise e, s') => (Raise e, s')
  end.

Notation "'do' x <- m ; k" := (bind m (fun x => k))
  (at level 10, x name, m at level 100, k at level 200).
Notation "m ;; k" := (bind m (fun _ => k))
  (at level 100, k at level 200, right associativity).

Definition gets {S A} (f : S -> A) : M S A := fun s => (Ok (f s), s).
Definition modify {S} (f : S -> S) : M S unit := fun s => (Ok tt, f s).
Definition raise {S A} (e : exn) : M S A := fun s => (Raise e, s).
(** A read-only method called on the current state. *)
Definition call {S A} (f : S -> outcome A) : M S A := fun s => (f s, s).

Fixpoint for_each {S A} (l : list A) (body : A -> M S unit) : M S unit :=
  match l with
  | [] => ret tt
  | x :: rest => body x ;; for_each rest body
  end.

Fixpoint map_outcome {A B} (f : A -> outcome B) (l : list A) : outcome (list B) :=
  match l with
  | [] => Ok []
  | x :: rest => try y <- f x; try ys <- map_outcome f rest; Ok (y :: ys)
  end.

(** ** Arrays and ordered sets *)

(** [a[i]] on a list or a NumPy array. *)
Definition getitem {A} (l : list A) (i : nat) : outcome A :=
  match l !! i with
  | Some x => Ok x
  | None => Raise IndexError
  end.

(** [a[i] = x] on a NumPy array (in place). *)
Definition setitem {A} (l : list A) (i : nat) (x : A) : outcome (list A) :=
  if decide (i < length l) then Ok (<[i:=x]> l) else Raise IndexError.

(** [OrderedSet.add]: insertion order, no duplicates. *)
Definition ordered_add {A} `{EqDecision A} (x : A) (l : list A) : list A :=
  if decide (x ∈ l) then l else l ++ [x].

(** ** Gates, operation nodes, the circuit DAG *)

Inductive Gate :=
  | CXGate
  | SwapGate
  | BridgeGate
  | OtherGate (name : string).

Global Instance Gate_eq_dec : EqDecision Gate.
Proof. solve_decision. Defined.

Record DAGOpNode := {
  node_id : nat;
  op : Gate;
  qargs : list nat }.

Global Instance DAGOpNode_eq_dec : EqDecision DAGOpNode.
Proof. solve_decision. Defined.

Abbreviation DAGCircuit := (list DAGOpNode) (only parsing).

(** [isinstance(op_node.op, CXGate)] *)
Definition is_CXGate (g : Gate) : bool :=
  match g with
  | CXGate => true
  | _ => false
  end.

(** Operations none of whose wires is used by an earlier operation;
    [used] collects the wires of the operations already passed. *)
Fixpoint front_layer_from (used : list nat) (d : DAGCircuit) : list DAGOpNode :=
  match d with
  | [] => []
  | n :: rest =>
      if forallb (fun q => negb (bool_decide (q ∈ used))) (qargs n)
      then n :: front_layer_from (qargs n ++ used) rest
      else front_layer_from (qargs n ++ used) rest
  end.

(** The highest wire of an operation. *)
Definition last_wire (n : DAGOpNode) : nat := max_list (qargs n).

Definition wire_le (m n : DAGOpNode) : Prop := last_wire m <= last_wire n.

Global Instance wire_le_dec : RelDecision wire_le.
Proof. intros m n. unfold wire_le. apply _. Defined.

(** [DAGCircuit.front_layer()]: the operations without a predecessor.  Qiskit
    walks the wires in order and lists an operation when the last of its
    wires is reached, so the front operations come by highest wire, not in
    the order they were added to the circuit. *)
Definition front_layer (d : DAGCircuit) : list DAGOpNode :=
  merge_sort wire_le (front_layer_from [] d).

(** [DAGCircuit.remove_op_node(node)] *)
Definition remove_op_node (n : DAGOpNode) (d : DAGCircuit) : DAGCircuit :=
  filter (fun m => node_id m ≠ node_id n) d.

(** [DAGCircuit.size()] *)
Definition dag_size (d : DAGCircuit) : nat := length d.

Fixpoint dag_layers_fuel (fuel : nat) (d : DAGCircuit) : list (list DAGOpNode) :=
  match fuel with
  | O => []
  | S fuel' =>
      match d with
      | [] => []
      | _ =>
          let front := front_layer d in
          front :: dag_layers_fuel fuel' (foldr remove_op_node d front)
      end
  end.

(** Modelled from the spec: the helper [dag_layers] of the module [dag_utils]
    is not part of the sources.  The spec calls it "a full layer
    decomposition of the DAG": the front layer, then the front layer of what
    remains, and so on.  Every non-empty DAG has a non-empty front layer, so
    [length d] rounds exhaust it. *)
Definition dag_layers (d : DAGCircuit) : list (list DAGOpNode) :=
  dag_layers_fuel (length d) d.

(** ** The coupling map and the noise configuration *)

(** An [rx.PyGraph] together with the answers of the two rustworkx queries
    the constructor makes on it ([graph_all_pairs_dijkstra_shortest_paths],
    [graph_distance_matrix]). *)
Record PyGraph := {
  num_nodes : nat;
  graph_edge_list : list (nat * nat);
  graph_all_pairs_dijkstra_shortest_paths : nat -> nat -> list nat;
  graph_distance_matrix : nat -> nat -> nat }.

(** [PyGraph.has_edge(a, b)] on an undirected graph. *)
Definition has_edge (g : PyGraph) (a b : nat) : bool :=
  bool_decide ((a, b) ∈ graph_edge_list g) || bool_decide ((b, a) ∈ graph_edge_list g).

(** [routing.noise.NoiseConfig]: the module is not part of the sources; the
    environment uses these three members only. *)
Record NoiseConfig := {
  added_gate_reward : Q;
  min_log_reliability : Q;
  calculate_log_reliabilities : list Q -> list Q }.

(** [commutation_set[qubit][commutation_set[(op_node, qubit)]]]: the
    operations qiskit's [CommutationAnalysis] found to commute with [op_node]
    on the wire [qubit]. *)
Abbreviation CommutationSet := (DAGOpNode -> nat -> list DAGOpNode) (only parsing).

(** ** RoutingEnv *)

(** Attributes assigned by the constructor and by no method that steps the
    environment. *)
Record Config := {
  coupling_map : PyGraph;
  circuit : list DAGOpNode;
  initial_mapping : list nat;
  allow_bridge_gate : bool;
  commutation_analysis : bool;
  noise_config : option NoiseConfig;
  bridge_pairs : list (nat * nat);
  commutation_pass : DAGCircuit -> CommutationSet }.

Record RoutingEnv := {
  config : Config;
  error_rates : list Q;
  log_reliabilities : list Q;
  edge_to_log_reliability : gmap (nat * nat) Q;
  commutation_set : option CommutationSet;
  node_to_qubit : list nat;
  qubit_to_node : list nat;
  dag : DAGCircuit;
  routed_gates : list (Gate * list nat);
  routed_op_nodes : gset nat;
  _num_scheduled_2q_gates : nat;
  _scheduling_reward : Q }.

Definition num_qubits (env : RoutingEnv) : nat := num_nodes (coupling_map (config env)).
Definition edge_list (env : RoutingEnv) : list (nat * nat) :=
  graph_edge_list (coupling_map (config env)).
Definition num_edges (env : RoutingEnv) : nat := length (edge_list env).
Definition shortest_paths (env : RoutingEnv) : nat -> nat -> list nat :=
  graph_all_pairs_dijkstra_shortest_paths (coupling_map (config env)).

(** Attribute assignments. *)
Definition set_calibration (er lr : list Q) (m : gmap (nat * nat) Q) (env : RoutingEnv) : RoutingEnv :=
  {| config := config env; error_rates := er; log_reliabilities := lr;
     edge_to_log_reliability := m; commutation_set := commutation_set env;
     node_to_qubit := node_to_qubit env; qubit_to_node := qubit_to_node env;
     dag := dag env; routed_gates := routed_gates env;
     routed_op_nodes := routed_op_nodes env;
     _num_scheduled_2q_gates := _num_scheduled_2q_gates env;
     _scheduling_reward := _scheduling_reward env |}.

Definition set_commutation_set (cs : option CommutationSet) (env : RoutingEnv) : RoutingEnv :=
  {| config := config env; error_rates := error_rates env;
     log_reliabilities := log_reliabilities env;
     edge_to_log_reliability := edge_to_log_reliability env; commutation_set := cs;
     node_to_qubit := node_to_qubit env; qubit_to_node := qubit_to_node env;
     dag := dag env; routed_gates := routed_gates env;
     routed_op_nodes := routed_op_nodes env;
     _num_scheduled_2q_gates := _num_scheduled_2q_gates env;
     _scheduling_reward := _scheduling_reward env |}.

Definition set_node_to_qubit (a : list nat) (env : RoutingEnv) : RoutingEnv :=
  {| config := config env; error_rates := error_rates env;
     log_reliabilities := log_reliabilities env;
     edge_to_log_reliability := edge_to_log_reliability env;
     commutation_set := commutation_set env;
     node_to_qubit := a; qubit_to_node := qubit_to_node env;
     dag := dag env; routed_gates := routed_gates env;
     routed_op_nodes := routed_op_nodes env;
     _num_scheduled_2q_gates := _num_scheduled_2q_gates env;
     _scheduling_reward := _scheduling_reward env |}.

Definition set_qubit_to_node (a : list nat) (env : RoutingEnv) : RoutingEnv :=
  {| config := config env; error_rates := error_rates env;
     log_reliabilities := log_reliabilities env;
     edge_to_log_reliability := edge_to_log_reliability env;
     commutation_set := commutation_set env;
     node_to_qubit := node_to_qubit env; qubit_to_node := a;
     dag := dag env; routed_gates := routed_gates env;
     routed_op_nodes := routed_op_nodes env;
     _num_scheduled_2q_gates := _num_scheduled_2q_gates env;
     _scheduling_reward := _scheduling_reward env |}.

Definition set_dag (d : DAGCircuit) (env : RoutingEnv) : RoutingEnv :=
  {| config := config env; error_rates := error_rates env;
     log_reliabilities := log_reliabilities env;
     edge_to_log_reliability := edge_to_log_reliability env;
     commutation_set := commutation_set env;
     node_to_qubit := node_to_qubit env; qubit_to_node := qubit_to_node env;
     dag := d; routed_gates := routed_gates env;
     routed_op_nodes := routed_op_nodes env;
     _num_scheduled_2q_gates := _num_scheduled_2q_gates env;
     _scheduling_reward := _scheduling_reward env |}.

Definition set_routed_gates (l : list (Gate * list nat)) (env : RoutingEnv) : RoutingEnv :=
  {| config := config env; error_rates := error_rates env;
     log_reliabilities := log_reliabilities env;
     edge_to_log_reliability := edge_to_log_reliability env;
     commutation_set := commutation_set env;
     node_to_qubit := node_to_qubit env; qubit_to_node := qubit_to_node env;
     dag := dag env; routed_gates := l;
     routed_op_nodes := routed_op_nodes env;
     _num_scheduled_2q_gates := _num_scheduled_2q_gates env;
     _scheduling_reward := _scheduling_reward env |}.

Definition set_routed_op_nodes (s : gset nat) (env : RoutingEnv) : RoutingEnv :=
  {| config := config env; error_rates := error_rates env;
     log_reliabilities := log_reliabilities env;
     edge_to_log_reliability := edge_to_log_reliability env;
     commutation_set := commutation_set env;
     node_to_qubit := node_to_qubit env; qubit_to_node := qubit_to_node env;
     dag := dag env; routed_gates := routed_gates env;
     routed_op_nodes := s;
     _num_scheduled_2q_gates := _num_scheduled_2q_gates env;
     _scheduling_reward := _scheduling_reward env |}.

Definition set_scheduling_result (n : nat) (r : Q) (env : RoutingEnv) : RoutingEnv :=
  {| config := config env; error_rates := error_rates env;
     log_reliabilities := log_reliabilities env;
     edge_to_log_reliability := edge_to_log_reliability env;
     commutation_set := commutation_set env;
     node_to_qubit := node_to_qubit env; qubit_to_node := qubit_to_node env;
     dag := dag env; routed_gates := routed_gates env;
     routed_op_nodes := routed_op_nodes env;
     _num_scheduled_2q_gates := n;
     _scheduling_reward := r |}.

(** [noise_aware] (property) *)
Definition noise_aware (env : RoutingEnv) : bool :=
  match noise_config (config env) with
  | Some _ => true
  | None => false
  end.

(** [terminated] (property): [self.dag.size() == 0] *)
Definition terminated (env : RoutingEnv) : bool :=
  bool_decide (dag_size (dag env) = 0).

(** [tuple(self.qubit_to_node[i] for i in indices)] *)
Definition mapped_nodes (env : RoutingEnv) (indices : list nat) : outcome (list nat) :=
  map_outcome (getitem (qubit_to_node env)) indices.

(** [calibrate(error_rates)]: no check on the argument; [zip] stops at the
    shorter of the edge list and the log reliabilities. *)
Definition calibrate_env (rates : list Q) (env : RoutingEnv) : RoutingEnv :=
  match noise_config (config env) with
  | Some nc =>
      let lr := calculate_log_reliabilities nc rates in
      set_calibration rates lr
        (foldl (fun m ev => <[((ev.1).2, (ev.1).1) := ev.2]> (<[ev.1 := ev.2]> m))
               ∅ (zip (edge_list env) lr)) env
  | None => set_calibration rates (log_reliabilities env) (edge_to_log_reliability env) env
  end.

Definition calibrate (rates : list Q) : M RoutingEnv unit := modify (calibrate_env rates).

(** [self.edge_to_log_reliability[edge]] *)
Definition log_reliability_of (env : RoutingEnv) (edge : nat * nat) : outcome Q :=
  match edge_to_log_reliability env !! edge with
  | Some v => Ok v
  | None => Raise KeyError
  end.

(** [_gate_reward(edge)] *)
Definition _gate_reward (env : RoutingEnv) (edge : nat * nat) : outcome Q :=
  match noise_config (config env) with
  | Some nc => try r <- log_reliability_of env edge; Ok (r + added_gate_reward nc)%Q
  | None => Ok 1%Q
  end.

(** [_swap_reward(edge)] *)
Definition _swap_reward (env : RoutingEnv) (edge : nat * nat) : outcome Q :=
  match noise_config (config env) with
  | Some _ => try r <- log_reliability_of env edge; Ok (3 * r)%Q
  | None => Ok (-3)%Q
  end.

(** [_bridge_reward(control, middle, target)] *)
Definition _bridge_reward (env : RoutingEnv) (control middle target : nat) : outcome Q :=
  match noise_config (config env) with
  | Some nc =>
      try r1 <- log_reliability_of env (middle, target);
      try r2 <- log_reliability_of env (control, middle);
      Ok (2 * (r1 + r2) + added_gate_reward nc)%Q
  | None => Ok (-2)%Q
  end.

(** ** Scheduling *)

(** [_is_schedulable(nodes, locked_nodes)] *)
Definition _is_schedulable (env : RoutingEnv) (nodes : list nat) (locked_nodes : gset nat) : bool :=
  let valid_under_current_mapping :=
    match nodes with
    | [a; b] => has_edge (coupling_map (config env)) a b
    | _ => true
    end in
  let not_blocked := forallb (fun n => negb (bool_decide (n ∈ locked_nodes))) nodes in
  valid_under_current_mapping && not_blocked.

Abbreviation GateSchedulingList := (list (DAGOpNode * list nat)) (only parsing).

(** The commuting operations offered for [op_node] on [qubit]: the
    commutation group, without [op_node] and without the routed operations. *)
Definition commuting_op_nodes (env : RoutingEnv) (op_node : DAGOpNode) (qubit : nat)
  : outcome (list DAGOpNode) :=
  match commutation_set env with
  | None => Raise TypeError
  | Some cs =>
      Ok (filter (fun c => c ≠ op_node ∧ node_id c ∉ routed_op_nodes env)
                 (remove_dups (cs op_node qubit)))
  end.

(** The loop over [commuting_op_nodes] (lines 274-279). *)
Fixpoint schedule_commuting (env : RoutingEnv) (locked_nodes : gset nat)
    (candidates : list DAGOpNode) (gates : GateSchedulingList) : outcome GateSchedulingList :=
  match candidates with
  | [] => Ok gates
  | c :: rest =>
      try commuting_nodes <- mapped_nodes env (qargs c);
      schedule_commuting env locked_nodes rest
        (if _is_schedulable env commuting_nodes locked_nodes
         then ordered_add (c, commuting_nodes) gates else gates)
  end.

(** The loop over [free_qargs] (lines 268-279). *)
Fixpoint commutation_lookahead (env : RoutingEnv) (op_node : DAGOpNode) (locked_nodes : gset nat)
    (free_qargs : list nat) (gates : GateSchedulingList) : outcome GateSchedulingList :=
  match free_qargs with
  | [] => Ok gates
  | qubit :: rest =>
      try candidates <- commuting_op_nodes env op_node qubit;
      try gates' <- schedule_commuting env locked_nodes candidates gates;
      commutation_lookahead env op_node locked_nodes rest gates'
  end.

(** One iteration of the loop of [_schedulable_gates] (lines 260-281), on
    the pair of the ordered set [gates] and the set [locked_nodes]. *)
Definition visit_op_node (env : RoutingEnv) (ls : GateSchedulingList * gset nat)
    (op_node : DAGOpNode) : outcome (GateSchedulingList * gset nat) :=
  let gates := ls.1 in
  let locked_nodes := ls.2 in
  try nodes <- mapped_nodes env (qargs op_node);
  if _is_schedulable env nodes locked_nodes
  then Ok (ordered_add (op_node, nodes) gates, locked_nodes)
  else
    try gates' <-
      (if commutation_analysis (config env)
       then commutation_lookahead env op_node locked_nodes
              (filter (fun q => q ∉ locked_nodes) (qargs op_node)) gates
       else Ok gates);
    Ok (gates', locked_nodes ∪ list_to_set nodes).

(** The loop over [itertools.chain( *layers )], with its [break] once every
    node is locked. *)
Fixpoint schedulable_loop (env : RoutingEnv) (op_nodes : list DAGOpNode)
    (ls : GateSchedulingList * gset nat) : outcome (GateSchedulingList * gset nat) :=
  match op_nodes with
  | [] => Ok ls
  | op_node :: rest =>
      try ls' <- visit_op_node env ls op_node;
      if decide (size ls'.2 = num_qubits env) then Ok ls'
      else schedulable_loop env rest ls'
  end.

(** [_schedulable_gates(only_front_layer)] *)
Definition _schedulable_gates (env : RoutingEnv) (only_front_layer : bool)
  : outcome GateSchedulingList :=
  let layers := if only_front_layer then [front_layer (dag env)] else dag_layers (dag env) in
  try ls <- schedulable_loop env (concat layers) ([], ∅);
  Ok ls.1.

(** [_remove_op_node(op_node)] *)
Definition _remove_op_node (op_node : DAGOpNode) : M RoutingEnv unit :=
  modify (fun env => set_dag (remove_op_node op_node (dag env)) env) ;;
  modify (fun env => set_routed_op_nodes (routed_op_nodes env ∪ {[node_id op_node]}) env).

(** The key [nodes] of a two-node tuple in [edge_to_log_reliability]. *)
Definition edge_of_nodes (nodes : list nat) : nat * nat :=
  match nodes with
  | [a; b] => (a, b)
  | _ => (0, 0)
  end.

(** [sum(self._gate_reward(nodes) for _, nodes in gates if len(nodes) == 2)] *)
Fixpoint sum_gate_rewards (env : RoutingEnv) (gates : GateSchedulingList) (acc : Q) : outcome Q :=
  match gates with
  | [] => Ok acc
  | (_, nodes) :: rest =>
      if decide (length nodes = 2)
      then try r <- _gate_reward env (edge_of_nodes nodes); sum_gate_rewards env rest (acc + r)%Q
      else sum_gate_rewards env rest acc
  end.

(** [RoutingEnv._schedule_gates(gates)] *)
Definition _schedule_gates (gates : GateSchedulingList) : M RoutingEnv unit :=
  for_each gates (fun g =>
    modify (fun env => set_routed_gates (routed_gates env ++ [(op g.1, g.2)]) env) ;;
    _remove_op_node g.1) ;;
  modify (fun env => set_scheduling_result (length gates) (_scheduling_reward env) env) ;;
  do reward <- call (fun env => sum_gate_rewards env gates 0%Q);
  modify (fun env => set_scheduling_result (_num_scheduled_2q_gates env) reward env).

(** [RoutingEnv._bridge(control, middle, target)] *)
Definition _bridge (control middle target : nat) : M RoutingEnv unit :=
  modify (fun env => set_routed_gates (routed_gates env ++ [(BridgeGate, [control; middle; target])]) env).

Abbreviation BridgeArgs := (DAGOpNode * list nat)%type (only parsing).

(** The loop of [_bridge_args] over the front layer. *)
Fixpoint bridge_args_in (env : RoutingEnv) (pair : nat * nat) (layer : list DAGOpNode)
  : outcome (option BridgeArgs) :=
  match layer with
  | [] => Ok None
  | op_node :: rest =>
      if is_CXGate (op op_node)
      then
        try nodes <- mapped_nodes env (qargs op_node);
        if decide (merge_sort Nat.le nodes = [pair.1; pair.2])
        then
          match nodes with
          | [control; target] => Ok (Some (op_node, shortest_paths env control target))
          | _ => Raise (ValueError "not enough values to unpack")
          end
        else bridge_args_in env pair rest
      else bridge_args_in env pair rest
  end.

(** [_bridge_args(pair)] *)
Definition _bridge_args (env : RoutingEnv) (pair : nat * nat) : outcome (option BridgeArgs) :=
  bridge_args_in env pair (front_layer (dag env)).

(** [RoutingEnv._swap(edge)] *)
Definition _swap (edge : nat * nat) : M RoutingEnv unit :=
  modify (fun env => set_routed_gates (routed_gates env ++ [(SwapGate, [edge.1; edge.2])]) env) ;;
  let node_a := edge.1 in
  let node_b := edge.2 in
  do qubit_a <- call (fun env => getitem (node_to_qubit env) node_a);
  do qubit_b <- call (fun env => getitem (node_to_qubit env) node_b);
  do n2q <- call (fun env => setitem (node_to_qubit env) node_a qubit_b);
  modify (set_node_to_qubit n2q) ;;
  do n2q' <- call (fun env => setitem (node_to_qubit env) node_b qubit_a);
  modify (set_node_to_qubit n2q') ;;
  do q2n <- call (fun env => setitem (qubit_to_node env) qubit_a node_b);
  modify (set_qubit_to_node q2n) ;;
  do q2n' <- call (fun env => setitem (qubit_to_node env) qubit_b node_a);
  modify (set_qubit_to_node q2n').

(** [for node, qubit in enumerate(self.node_to_qubit): self.qubit_to_node[qubit] = node] *)
Definition fill_qubit_to_node : M RoutingEnv unit :=
  do n2q <- gets node_to_qubit;
  for_each (zip (seq 0 (length n2q)) n2q) (fun nq =>
    do q2n <- call (fun env => setitem (qubit_to_node env) nq.2 nq.1);
    modify (set_qubit_to_node q2n)).

(** ** Construction and reset *)

(** The constructor's arguments.  [arg_commutation_pass] stands for qiskit's
    [CommutationAnalysis()]: the commutation set it computes for a DAG.
    Arrays are one-dimensional, so a shape is a length. *)
Record InitArgs := {
  arg_coupling_map : PyGraph;
  arg_circuit : option (list DAGOpNode);
  arg_initial_mapping : option (list nat);
  arg_allow_bridge_gate : bool;
  arg_commutation_analysis : bool;
  arg_error_rates : option (list Q);
  arg_noise_config : option NoiseConfig;
  arg_commutation_pass : DAGCircuit -> CommutationSet }.

(** Order of [sorted] on pairs. *)
Definition pair_le (p q : nat * nat) : Prop :=
  p.1 < q.1 ∨ (p.1 = q.1 ∧ p.2 ≤ q.2).

Global Instance pair_le_dec : RelDecision pair_le.
Proof. intros p q. unfold pair_le. apply _. Defined.

(** [sorted((j, i) for i in range(n) for j in range(i) if distance_matrix[j, i] == 2)] *)
Definition distance_two_pairs (g : PyGraph) : list (nat * nat) :=
  merge_sort pair_le
    (flat_map (fun i =>
       flat_map (fun j => if decide (graph_distance_matrix g j i = 2) then [(j, i)] else [])
                (seq 0 i))
       (seq 0 (num_nodes g))).

(** [RoutingEnv.__init__] *)
Definition __init__ (a : InitArgs) : outcome RoutingEnv :=
  let num_qubits := num_nodes (arg_coupling_map a) in
  let num_edges := length (graph_edge_list (arg_coupling_map a)) in
  let initial_mapping := default (seq 0 num_qubits) (arg_initial_mapping a) in
  let circuit := default [] (arg_circuit a) in
  let error_rates := default (replicate num_edges 0%Q) (arg_error_rates a) in
  if decide (length initial_mapping ≠ num_qubits)
  then Raise (ValueError "Initial mapping has invalid shape for the provided coupling map")
  else if decide (length error_rates ≠ num_edges)
  then Raise (ValueError "Error rates have invalid shape for the provided coupling map")
  else
    let env :=
      {| config :=
           {| coupling_map := arg_coupling_map a;
              circuit := circuit;
              initial_mapping := initial_mapping;
              allow_bridge_gate := arg_allow_bridge_gate a;
              commutation_analysis := arg_commutation_analysis a;
              noise_config := arg_noise_config a;
              bridge_pairs :=
                if arg_allow_bridge_gate a then distance_two_pairs (arg_coupling_map a) else [];
              commutation_pass := arg_commutation_pass a |};
         error_rates := error_rates;
         log_reliabilities := [];
         edge_to_log_reliability := ∅;
         commutation_set := None;
         node_to_qubit := initial_mapping;
         qubit_to_node := replicate (length initial_mapping) 0;
         dag := circuit;
         routed_gates := [];
         routed_op_nodes := ∅;
         _num_scheduled_2q_gates := 0;
         _scheduling_reward := 0%Q |} in
    match fill_qubit_to_node env with
    | (Ok _, env') => Ok (if noise_aware env' then calibrate_env error_rates env' else env')
    | (Raise e, _) => Raise e
    end.

(** [reset], lines 159-167: a fresh DAG, an empty log, an empty routed set,
    and the commutation analysis of the fresh DAG.  (Padding the circuit with
    ancilla qubits up to the size of the device adds no operation.) *)
Definition reset_circuit : M RoutingEnv unit :=
  modify (fun env => set_dag (circuit (config env)) env) ;;
  modify (set_routed_gates []) ;;
  modify (set_routed_op_nodes ∅) ;;
  do env <- gets id;
  if commutation_analysis (config env)
  then modify (set_commutation_set (Some (commutation_pass (config env) (dag env))))
  else ret tt.

(** [RoutingEnv._reset_state], lines 346-349 (before [self._update_state()]). *)
Definition reset_mapping : M RoutingEnv unit :=
  modify (fun env => set_node_to_qubit (initial_mapping (config env)) env) ;;
  fill_qubit_to_node.

(** Running a method of the base class on the [RoutingEnv] part of a
    variant's state. *)
Definition zoom {S T A} (get : S -> T) (set : T -> S -> S) (m : M T A) : M S A := fun s =>
  let r := m (get s) in (r.1, set r.2 s).

(** [mask[indices] = 0] for indices produced by [enumerate]. *)
Definition zero_at (indices : list nat) (mask : list bool) : list bool :=
  foldl (fun m i => <[i:=false]> m) mask indices.

(** The indices [i] of [l] whose element satisfies [p]. *)
Definition indices_where {A} (p : A -> bool) (l : list A) : list nat :=
  (filter (fun ix => p ix.2 = true) (zip (seq 0 (length l)) l)).*1.

(** The observation: the action mask.  The observation modules only read
    the state and are left out. *)
Abbreviation RoutingObsType := (list bool) (only parsing).

Abbreviation StepResult := (list bool * Q * bool * bool)%type (only parsing).

(** ** SequentialRoutingEnv *)

(** [seq_stdout] is the text the environment has printed so far. *)
Record SequentialRoutingEnv := {
  seq_base : RoutingEnv;
  restrict_swaps_to_front_layer : bool;
  _blocked_swap : option nat;
  seq_stdout : list string }.

Definition seq_set_base (b : RoutingEnv) (env : SequentialRoutingEnv) : SequentialRoutingEnv :=
  {| seq_base := b;
     restrict_swaps_to_front_layer := restrict_swaps_to_front_layer env;
     _blocked_swap := _blocked_swap env;
     seq_stdout := seq_stdout env |}.

Definition set_blocked_swap (o : option nat) (env : SequentialRoutingEnv) : SequentialRoutingEnv :=
  {| seq_base := seq_base env;
     restrict_swaps_to_front_layer := restrict_swaps_to_front_layer env;
     _blocked_swap := o;
     seq_stdout := seq_stdout env |}.

(** [print(line)] *)
Definition print (line : string) : M SequentialRoutingEnv unit :=
  modify (fun env =>
    {| seq_base := seq_base env;
       restrict_swaps_to_front_layer := restrict_swaps_to_front_layer env;
       _blocked_swap := _blocked_swap env;
       seq_stdout := seq_stdout env ++ [line] |}).

Module Sequential.

Definition super {A} (m : M RoutingEnv A) : M SequentialRoutingEnv A :=
  zoom seq_base seq_set_base m.

Definition __init__ (a : InitArgs) (restrict : bool) : outcome SequentialRoutingEnv :=
  try b <- __init__ a;
  Ok {| seq_base := b; restrict_swaps_to_front_layer := restrict; _blocked_swap := None;
        seq_stdout := [] |}.

(** [SequentialRoutingEnv._update_state] *)
Definition _update_state : M RoutingEnv unit :=
  do gates <- call (fun env => _schedulable_gates env false);
  _schedule_gates gates.

(** The nodes of the front layer (lines 426-431). *)
Definition front_layer_nodes (env : RoutingEnv) : outcome (list nat) :=
  try l <- map_outcome (fun op_node => mapped_nodes env (qargs op_node)) (front_layer (dag env));
  Ok (concat l).

(** [SequentialRoutingEnv.action_mask] *)
Definition action_mask (env : SequentialRoutingEnv) : outcome (list bool) :=
  let b := seq_base env in
  let mask := replicate (num_edges b + length (bridge_pairs (config b))) true in
  try mask <-
    (if restrict_swaps_to_front_layer env
     then
       try fl <- front_layer_nodes b;
       Ok (zero_at (indices_where
                      (fun edge => negb (bool_decide (edge.1 ∈ fl) || bool_decide (edge.2 ∈ fl)))
                      (edge_list b)) mask)
     else Ok mask);
  try mask <-
    (match _blocked_swap env with
     | Some i => setitem mask i false
     | None => Ok mask
     end);
  try args <- map_outcome (_bridge_args b) (bridge_pairs (config b));
  Ok (zero_at (map (fun i => num_edges b + i)
                   (indices_where (fun o : option BridgeArgs => negb (bool_decide (is_Some o))) args))
              mask).

Definition current_obs : M SequentialRoutingEnv RoutingObsType := call action_mask.

(** [reset] *)
Definition reset : M SequentialRoutingEnv RoutingObsType :=
  super reset_circuit ;;
  super reset_mapping ;;
  super _update_state ;;
  current_obs.

(** [SequentialRoutingEnv.step] *)
Definition step (action : nat) : M SequentialRoutingEnv StepResult :=
  do is_terminated <- gets (fun env => terminated (seq_base env));
  if is_terminated
  then
    do obs <- current_obs;
    ret (obs, 0%Q, true, false)
  else
    do num_edges <- gets (fun env => num_edges (seq_base env));
    let action_is_swap := bool_decide (action < num_edges) in
    do reward <-
      (if action_is_swap
       then
         do edge <- call (fun env => getitem (edge_list (seq_base env)) action);
         super (_swap edge) ;;
         call (fun env => _swap_reward (seq_base env) edge)
       else
         do pair <- call (fun env => getitem (bridge_pairs (config (seq_base env))) (action - num_edges));
         do args <- call (fun env => _bridge_args (seq_base env) pair);
         match args with
         | Some (op_node, nodes) =>
             super (_remove_op_node op_node) ;;
             match nodes with
             | [control; middle; target] =>
                 super (_bridge control middle target) ;;
                 call (fun env => _bridge_reward (seq_base env) control middle target)
             | _ => raise TypeError
             end
         | None =>
             print "Invalid BRIDGE action was selected" ;;
             ret 0%Q
         end);
    super _update_state ;;
    do scheduling_reward <- gets (fun env => _scheduling_reward (seq_base env));
    let reward := (reward + scheduling_reward)%Q in
    do scheduled <- gets (fun env => _num_scheduled_2q_gates (seq_base env));
    modify (set_blocked_swap
              (if action_is_swap && bool_decide (scheduled = 0) then Some action else None)) ;;
    do obs <- current_obs;
    do is_terminated <- gets (fun env => terminated (seq_base env));
    ret (obs, reward, is_terminated, false).

End Sequential.

(** ** SchedulingMap *)

(** [SchedulingMap.__setitem__(k, v)]: a zero is never stored. *)
Definition SchedulingMap_setitem (k : nat) (v : Z) (m : gmap nat Z) : gmap nat Z :=
  if decide (v = 0%Z) then delete k m else <[k:=v]> m.

(** [SchedulingMap.decrement()] *)
Definition decrement (m : gmap nat Z) : gmap nat Z :=
  foldl (fun m' k =>
           match m' !! k with
           | Some v => SchedulingMap_setitem k (v - 1)%Z m'
           | None => m'
           end)
        m (elements (dom m)).

(** [SchedulingMap.update_all(keys, value=1)] *)
Definition update_all (keys : list nat) (m : gmap nat Z) : gmap nat Z :=
  foldl (fun m' k => SchedulingMap_setitem k 1%Z m') m keys.

(** [self.scheduling_map.keys() & nodes] is non-empty *)
Definition touches_locked (m : gmap nat Z) (nodes : list nat) : bool :=
  existsb (fun n => bool_decide (is_Some (m !! n))) nodes.

(** ** LayeredRoutingEnv *)

Record LayeredRoutingEnv := {
  lay_base : RoutingEnv;
  use_decomposed_actions : bool;
  scheduling_map : gmap nat Z }.

Definition lay_set_base (b : RoutingEnv) (env : LayeredRoutingEnv) : LayeredRoutingEnv :=
  {| lay_base := b;
     use_decomposed_actions := use_decomposed_actions env;
     scheduling_map := scheduling_map env |}.

Definition set_scheduling_map (m : gmap nat Z) (env : LayeredRoutingEnv) : LayeredRoutingEnv :=
  {| lay_base := lay_base env;
     use_decomposed_actions := use_decomposed_actions env;
     scheduling_map := m |}.

Module Layered.

Definition super {A} (m : M RoutingEnv A) : M LayeredRoutingEnv A :=
  zoom lay_base lay_set_base m.

Definition __init__ (a : InitArgs) (decomposed : bool) : outcome LayeredRoutingEnv :=
  try b <- __init__ a;
  Ok {| lay_base := b; use_decomposed_actions := decomposed; scheduling_map := ∅ |}.

(** [LayeredRoutingEnv._bridge] *)
Definition _bridge (control middle target : nat) : M LayeredRoutingEnv unit :=
  super (_bridge control middle target) ;;
  modify (fun env => set_scheduling_map (update_all [control; middle; target] (scheduling_map env)) env).

(** [LayeredRoutingEnv._swap] *)
Definition _swap (edge : nat * nat) : M LayeredRoutingEnv unit :=
  super (_swap edge) ;;
  modify (fun env => set_scheduling_map (update_all [edge.1; edge.2] (scheduling_map env)) env).

(** [LayeredRoutingEnv._schedule_gates] *)
Definition _schedule_gates (gates : GateSchedulingList) : M LayeredRoutingEnv unit :=
  super (_schedule_gates gates) ;;
  modify (fun env => set_scheduling_map (update_all (concat (gates.*2)) (scheduling_map env)) env).

(** [LayeredRoutingEnv._schedulable_gates] *)
Definition _schedulable_gates (env : LayeredRoutingEnv) (only_front_layer : bool)
  : outcome GateSchedulingList :=
  try gates <- _schedulable_gates (lay_base env) only_front_layer;
  Ok (filter (fun g => touches_locked (scheduling_map env) g.2 = false) gates).

(** [LayeredRoutingEnv._update_state] *)
Definition _update_state : M LayeredRoutingEnv unit :=
  modify (fun env => set_scheduling_map (decrement (scheduling_map env)) env) ;;
  do gates <- call (fun env => _schedulable_gates env true);
  _schedule_gates gates.

(** [LayeredRoutingEnv._reset_state] *)
Definition _reset_state : M LayeredRoutingEnv unit :=
  modify (set_scheduling_map ∅) ;;
  super reset_mapping ;;
  _update_state.

(** [LayeredRoutingEnv.action_mask] *)
Definition action_mask (env : LayeredRoutingEnv) : outcome (list bool) :=
  let b := lay_base env in
  let n := num_edges b + length (bridge_pairs (config b)) + 1 in
  let mask := replicate n true in
  let mask :=
    zero_at (indices_where (fun edge => touches_locked (scheduling_map env) [edge.1; edge.2])
                           (edge_list b)) mask in
  try args <- map_outcome (_bridge_args b) (bridge_pairs (config b));
  let mask :=
    zero_at (map (fun i => num_edges b + i)
                 (indices_where
                    (fun o : option BridgeArgs =>
                       match o with
                       | None => true
                       | Some a => touches_locked (scheduling_map env) a.2
                       end) args)) mask in
  Ok (if decide (scheduling_map env = ∅) then <[n - 1 := false]> mask else mask).

Definition current_obs : M LayeredRoutingEnv RoutingObsType := call action_mask.

(** [reset] *)
Definition reset : M LayeredRoutingEnv RoutingObsType :=
  super reset_circuit ;;
  _reset_state ;;
  current_obs.

(** [LayeredRoutingEnv.step] *)
Definition step (action : nat) : M LayeredRoutingEnv StepResult :=
  do num_edges <- gets (fun env => num_edges (lay_base env));
  do num_pairs <- gets (fun env => length (bridge_pairs (config (lay_base env))));
  do reward <-
    (if decide (action < num_edges)
     then
       do edge <- call (fun env => getitem (edge_list (lay_base env)) action);
       _swap edge ;;
       call (fun env => _swap_reward (lay_base env) edge)
     else if decide (action < num_edges + num_pairs)
     then
       do pair <- call (fun env => getitem (bridge_pairs (config (lay_base env))) (action - num_edges));
       do args <- call (fun env => _bridge_args (lay_base env) pair);
       match args with
       | None => raise TypeError
       | Some (op_node, nodes) =>
           super (_remove_op_node op_node) ;;
           match nodes with
           | [control; middle; target] =>
               _bridge control middle target ;;
               call (fun env => _bridge_reward (lay_base env) control middle target)
           | _ => raise TypeError
           end
       end
     else
       _update_state ;;
       gets (fun env => _scheduling_reward (lay_base env)));
  do obs <- current_obs;
  do is_terminated <- gets (fun env => terminated (lay_base env));
  ret (obs, reward, is_terminated, false).

End Layered.

(** ** Instances and references: [copy()]

    The records above hold an environment's attributes by value.  [copy()]
    is about which attributes two instances share, so here an instance holds
    references into a heap for its mutable collections and the remaining
    attributes by value (they are immutable or rebound on assignment, and
    [copy.copy] gives the copy its own attribute slots). *)

Inductive object :=
  | ArrayObj (a : list nat)
  | DagObj (d : DAGCircuit)
  | ListObj (l : list (Gate * list nat))
  | SetObj (s : gset nat)
  | SchedulingMapObj (m : gmap nat Z).

(** The heap: an object per address; allocation appends. *)
Definition alloc (o : object) (h : list object) : nat * list object :=
  (length h, h ++ [o]).

Record Refs := {
  ref_node_to_qubit : nat;
  ref_qubit_to_node : nat;
  ref_dag : nat;
  ref_routed_gates : nat;
  ref_routed_op_nodes : nat }.

(** The collections a [RoutingEnv] reaches through its references. *)
Definition load_base (h : list object) (r : Refs) (attrs : RoutingEnv) : option RoutingEnv :=
  match h !! ref_node_to_qubit r, h !! ref_qubit_to_node r, h !! ref_dag r,
        h !! ref_routed_gates r, h !! ref_routed_op_nodes r with
  | Some (ArrayObj n2q), Some (ArrayObj q2n), Some (DagObj d), Some (ListObj l), Some (SetObj s) =>
      Some (set_routed_op_nodes s
             (set_routed_gates l
               (set_dag d
                 (set_qubit_to_node q2n
                   (set_node_to_qubit n2q attrs)))))
  | _, _, _, _, _ => None
  end.

(** In-place mutation: the collections of [env] written to the objects the
    references point to. *)
Definition store_base (r : Refs) (env : RoutingEnv) (h : list object) : list object :=
  <[ref_routed_op_nodes r := SetObj (routed_op_nodes env)]>
    (<[ref_routed_gates r := ListObj (routed_gates env)]>
      (<[ref_dag r := DagObj (dag env)]>
        (<[ref_qubit_to_node r := ArrayObj (qubit_to_node env)]>
          (<[ref_node_to_qubit r := ArrayObj (node_to_qubit env)]> h)))).

(** [RoutingEnv.copy], lines 194-204: a shallow copy, then fresh copies of
    [node_to_qubit], [qubit_to_node], [dag] and [routed_gates]. *)
Definition copy_refs (r : Refs) (h : list object) : option (Refs * list object) :=
  match h !! ref_node_to_qubit r, h !! ref_qubit_to_node r, h !! ref_dag r,
        h !! ref_routed_gates r with
  | Some n2q, Some q2n, Some d, Some l =>
      let '(a1, h1) := alloc n2q h in
      let '(a2, h2) := alloc q2n h1 in
      let '(a3, h3) := alloc d h2 in
      let '(a4, h4) := alloc l h3 in
      Some ({| ref_node_to_qubit := a1;
               ref_qubit_to_node := a2;
               ref_dag := a3;
               ref_routed_gates := a4;
               ref_routed_op_nodes := ref_routed_op_nodes r |}, h4)
  | _, _, _, _ => None
  end.

Record SequentialInstance := {
  seq_refs : Refs;
  seq_attrs : SequentialRoutingEnv }.

Record LayeredInstance := {
  lay_refs : Refs;
  ref_scheduling_map : nat;
  lay_attrs : LayeredRoutingEnv }.

Module SequentialObject.

(** The environment an instance denotes in a heap. *)
Definition load (h : list object) (i : SequentialInstance) : option SequentialRoutingEnv :=
  match load_base h (seq_refs i) (seq_base (seq_attrs i)) with
  | Some b => Some (seq_set_base b (seq_attrs i))
  | None => None
  end.

(** A method that mutates the collections in place and rebinds only the
    other attributes, called on an instance ([step] is such a method). *)
Definition run {A} (m : M SequentialRoutingEnv A) (i : SequentialInstance) (h : list object)
  : option (outcome A * SequentialInstance * list object) :=
  match load h i with
  | Some env =>
      let r := m env in
      Some (r.1, {| seq_refs := seq_refs i; seq_attrs := r.2 |},
            store_base (seq_refs i) (seq_base r.2) h)
  | None => None
  end.

(** [copy()] on a sequential environment (inherited from [RoutingEnv]). *)
Definition copy (i : SequentialInstance) (h : list object)
  : option (SequentialInstance * list object) :=
  match copy_refs (seq_refs i) h with
  | Some (r, h') => Some ({| seq_refs := r; seq_attrs := seq_attrs i |}, h')
  | None => None
  end.

(** A new instance: every collection gets an object of its own. *)
Definition new (env : SequentialRoutingEnv) (h : list object) : SequentialInstance * list object :=
  let b := seq_base env in
  let '(a1, h1) := alloc (ArrayObj (node_to_qubit b)) h in
  let '(a2, h2) := alloc (ArrayObj (qubit_to_node b)) h1 in
  let '(a3, h3) := alloc (DagObj (dag b)) h2 in
  let '(a4, h4) := alloc (ListObj (routed_gates b)) h3 in
  let '(a5, h5) := alloc (SetObj (routed_op_nodes b)) h4 in
  ({| seq_refs := {| ref_node_to_qubit := a1; ref_qubit_to_node := a2; ref_dag := a3;
                     ref_routed_gates := a4; ref_routed_op_nodes := a5 |};
      seq_attrs := env |}, h5).

End SequentialObject.

Module LayeredObject.

Definition load (h : list object) (i : LayeredInstance) : option LayeredRoutingEnv :=
  match load_base h (lay_refs i) (lay_base (lay_attrs i)), h !! ref_scheduling_map i with
  | Some b, Some (SchedulingMapObj m) =>
      Some (set_scheduling_map m (lay_set_base b (lay_attrs i)))
  | _, _ => None
  end.

Definition run {A} (m : M LayeredRoutingEnv A) (i : LayeredInstance) (h : list object)
  : option (outcome A * LayeredInstance * list object) :=
  match load h i with
  | Some env =>
      let r := m env in
      Some (r.1,
            {| lay_refs := lay_refs i; ref_scheduling_map := ref_scheduling_map i;
               lay_attrs := r.2 |},
            <[ref_scheduling_map i := SchedulingMapObj (scheduling_map r.2)]>
              (store_base (lay_refs i) (lay_base r.2) h))
  | None => None
  end.

(** [LayeredRoutingEnv.copy]: the base copy, then a deep copy of the
    scheduling map. *)
Definition copy (i : LayeredInstance) (h : list object)
  : option (LayeredInstance * list object) :=
  match copy_refs (lay_refs i) h with
  | Some (r, h') =>
      match h' !! ref_scheduling_map i with
      | Some m =>
          let '(a, h'') := alloc m h' in
          Some ({| lay_refs := r; ref_scheduling_map := a; lay_attrs := lay_attrs i |}, h'')
      | None => None
      end
  | None => None
  end.

Definition new (env : LayeredRoutingEnv) (h : list object) : LayeredInstance * list object :=
  let b := lay_base env in
  let '(a1, h1) := alloc (ArrayObj (node_to_qubit b)) h in
  let '(a2, h2) := alloc (ArrayObj (qubit_to_node b)) h1 in
  let '(a3, h3) := alloc (DagObj (dag b)) h2 in
  let '(a4, h4) := alloc (ListObj (routed_gates b)) h3 in
  let '(a5, h5) := alloc (SetObj (routed_op_nodes b)) h4 in
  let '(a6, h6) := alloc (SchedulingMapObj (scheduling_map env)) h5 in
  ({| lay_refs := {| ref_node_to_qubit := a1; ref_qubit_to_node := a2; ref_dag := a3;
                     ref_routed_gates := a4; ref_routed_op_nodes := a5 |};
      ref_scheduling_map := a6;
      lay_attrs := env |}, h6).

End LayeredObject.

(** ** Example devices, circuits and environments *)

Definition cx (id control target : nat) : DAGOpNode :=
  {| node_id := id; op := CXGate; qargs := [control; target] |}.

Fixpoint position (x : nat) (l : list nat) : nat :=
  match l with
  | [] => 0
  | y :: rest => if decide (x = y) then 0 else S (position x rest)
  end.

(** A device whose nodes lie on a line in the order [order]: the shortest
    path between two nodes is the segment between them. *)
Definition path_graph (order : list nat) : PyGraph :=
  let segment i j := take (j - i + 1) (drop i order) in
  {| num_nodes := length order;
     graph_edge_list := zip order (tail order);
     graph_all_pairs_dijkstra_shortest_paths := fun a b =>
       let i := position a order in
       let j := position b order in
       if decide (i ≤ j) then segment i j else reverse (segment j i);
     graph_distance_matrix := fun a b =>
       let i := position a order in
       let j := position b order in
       (i `max` j) - (i `min` j) |}.

(** Whether [q] is the control ([Some true]) or the target ([Some false]) of
    a CX gate. *)
Definition cx_role (o : DAGOpNode) (q : nat) : option bool :=
  match op o, qargs o with
  | CXGate, [c; t] =>
      if decide (q = c) then Some true else if decide (q = t) then Some false else None
  | _, _ => None
  end.

(** Commutation groups along one wire: an operation joins the current group
    when it commutes with every operation in it. *)
Fixpoint commutation_groups (q : nat) (ops : list DAGOpNode) (current : list DAGOpNode)
  : list (list DAGOpNode) :=
  match ops with
  | [] => [current]
  | o :: rest =>
      if forallb (fun p => bool_decide (is_Some (cx_role o q) ∧ cx_role p q = cx_role o q)) current
      then commutation_groups q rest (current ++ [o])
      else current :: commutation_groups q rest [o]
  end.

(** qiskit's [CommutationAnalysis] on circuits of CX gates: two CX gates
    commute on a shared wire when it is the control of both or the target of
    both. *)
Definition cx_commutation_pass (d : DAGCircuit) : CommutationSet := fun op_node qubit =>
  let on_wire := filter (fun o => qubit ∈ qargs o) d in
  default [] (head (filter (fun g => op_node ∈ g) (commutation_groups qubit on_wire []))).

(** Devices 0 - 1 - 2 and 0 - 1 - 3 - 2. *)
Definition line3 : PyGraph := path_graph [0; 1; 2].
Definition line4 : PyGraph := path_graph [0; 1; 3; 2].

Definition example_noise : NoiseConfig :=
  {| added_gate_reward := 1 # 100;
     min_log_reliability := -100;
     calculate_log_reliabilities := map (fun e => (- e)%Q) |}.

(** cx(q0, q2); cx(q0, q1); cx(q1, q3) on the device 0 - 1 - 3 - 2. *)
Definition lookahead_args : InitArgs :=
  {| arg_coupling_map := line4;
     arg_circuit := Some [cx 0 0 2; cx 1 0 1; cx 2 1 3];
     arg_initial_mapping := None;
     arg_allow_bridge_gate := true;
     arg_commutation_analysis := true;
     arg_error_rates := None;
     arg_noise_config := None;
     arg_commutation_pass := cx_commutation_pass |}.

(** A single cx(q1, q2) on the device 0 - 1 - 2, with a permuted initial
    mapping (q1 on node 0, q0 on node 1) and a noise model. *)
Definition line3_args : InitArgs :=
  {| arg_coupling_map := line3;
     arg_circuit := Some [cx 0 1 2];
     arg_initial_mapping := Some [1; 0; 2];
     arg_allow_bridge_gate := true;
     arg_commutation_analysis := false;
     arg_error_rates := Some [1 # 10; 2 # 10];
     arg_noise_config := Some example_noise;
     arg_commutation_pass := cx_commutation_pass |}.

(** The state an outcome carries, or a default. *)
Definition from_ok {A} (d : A) (o : outcome A) : A :=
  match o with
  | Ok a => a
  | Raise _ => d
  end.

(** ** Vocabulary of the properties *)

(** [g] undoes [f]: [g[f[i]] == i] wherever [f] is defined. *)
Definition inverse_of (f g : list nat) : Prop :=
  forall i x, f !! i = Some x -> g !! x = Some i.

(** The mapping invariant: both arrays have one entry per node and each
    undoes the other. *)
Definition mutual_inverses (env : RoutingEnv) : Prop :=
  length (node_to_qubit env) = num_qubits env /\
  length (qubit_to_node env) = num_qubits env /\
  inverse_of (node_to_qubit env) (qubit_to_node env) /\
  inverse_of (qubit_to_node env) (node_to_qubit env).

(** What the mapping properties are about: the two arrays, with the
    configuration they are read against. *)
Definition mapping_of (env : RoutingEnv) : Config * list nat * list nat :=
  (config env, node_to_qubit env, qubit_to_node env).

(** A computation leaves the view [f] of the state as it was, whether it
    returns or raises. *)
Definition preserves {S A X} (f : S -> X) (m : M S A) : Prop :=
  forall s, f (m s).2 = f s.

(** A computation maintains the state predicate [P], whether it returns or
    raises. *)
Definition maintains {S A} (P : S -> Prop) (m : M S A) : Prop :=
  forall s, P s -> P (m s).2.

(** The states of a sequential environment built from the arguments [a]:
    the constructed instance, and what [reset], [step] and [calibrate] make
    of a reachable state (an exception leaves the state it was raised in). *)
Inductive seq_reachable (a : InitArgs) (restrict : bool) : SequentialRoutingEnv -> Prop :=
  | seq_reach_init env :
      Sequential.__init__ a restrict = Ok env -> seq_reachable a restrict env
  | seq_reach_reset env :
      seq_reachable a restrict env -> seq_reachable a restrict (Sequential.reset env).2
  | seq_reach_step env action :
      seq_reachable a restrict env -> seq_reachable a restrict (Sequential.step action env).2
  | seq_reach_calibrate env rates :
      seq_reachable a restrict env ->
      seq_reachable a restrict (Sequential.super (calibrate rates) env).2.

Inductive lay_reachable (a : InitArgs) (decomposed : bool) : LayeredRoutingEnv -> Prop :=
  | lay_reach_init env :
      Layered.__init__ a decomposed = Ok env -> lay_reachable a decomposed env
  | lay_reach_reset env :
      lay_reachable a decomposed env -> lay_reachable a decomposed (Layered.reset env).2
  | lay_reach_step env action :
      lay_reachable a decomposed env -> lay_reachable a decomposed (Layered.step action env).2
  | lay_reach_calibrate env rates :
      lay_reachable a decomposed env ->
      lay_reachable a decomposed (Layered.super (calibrate rates) env).2.

(** The invariant of the reachable states: the arrays are mutual inverses,
    and the initial mapping every reset restarts from is a permutation of the
    nodes. *)
Definition well_mapped (env : RoutingEnv) : Prop :=
  mutual_inverses env /\ initial_mapping (config env) ≡ₚ seq 0 (num_qubits env).

(** The two mapping arrays. *)
Definition arrays_of (env : RoutingEnv) : list nat * list nat :=
  (node_to_qubit env, qubit_to_node env).

(** The blocked SWAP, when there is one, is a SWAP action. *)
Definition blocked_swap_valid (env : SequentialRoutingEnv) : Prop :=
  match _blocked_swap env with
  | Some i => i < num_edges (seq_base env)
  | None => True
  end.

(** An environment with nothing in it, the value of [from_ok] when a
    constructor raised. *)
Definition blank_env : RoutingEnv :=
  {| config :=
       {| coupling_map := path_graph [];
          circuit := [];
          initial_mapping := [];
          allow_bridge_gate := false;
          commutation_analysis := false;
          noise_config := None;
          bridge_pairs := [];
          commutation_pass := cx_commutation_pass |};
     error_rates := [];
     log_reliabilities := [];
     edge_to_log_reliability := ∅;
     commutation_set := None;
     node_to_qubit := [];
     qubit_to_node := [];
     dag := [];
     routed_gates := [];
     routed_op_nodes := ∅;
     _num_scheduled_2q_gates := 0;
     _scheduling_reward := 0%Q |}.

Definition blank_sequential : SequentialRoutingEnv :=
  {| seq_base := blank_env; restrict_swaps_to_front_layer := true; _blocked_swap := None;
     seq_stdout := [] |}.

Definition blank_layered : LayeredRoutingEnv :=
  {| lay_base := blank_env; use_decomposed_actions := false; scheduling_map := ∅ |}.

(** The sequential environment of [lookahead_args] after [reset]: the
    commutation lookahead has committed cx(q0, q1) ahead of the blocked
    cx(q0, q2); cx(q1, q3) was passed over in the same pass, its node 1
    being locked by then, and is left in the front layer although it is
    executable. *)
Definition lookahead_state : SequentialRoutingEnv :=
  (Sequential.reset (from_ok blank_sequential (Sequential.__init__ lookahead_args true))).2.

(** C4 as the spec states it: in a non-terminated state, a BRIDGE action
    whose pair has no front-layer candidate is a no-op with reward zero. *)
Definition invalid_bridge_is_noop (env : SequentialRoutingEnv) (action : nat) : Prop :=
  terminated (seq_base env) = false ->
  num_edges (seq_base env) <= action ->
  forall pair,
    bridge_pairs (config (seq_base env)) !! (action - num_edges (seq_base env)) = Some pair ->
    _bridge_args (seq_base env) pair = Ok None ->
    let r := Sequential.step action env in
    (exists obs is_terminated, r.1 = Ok (obs, 0%Q, is_terminated, false)) /\
    arrays_of (seq_base r.2) = arrays_of (seq_base env) /\
    dag (seq_base r.2) = dag (seq_base env) /\
    routed_gates (seq_base r.2) = routed_gates (seq_base env).

(** The number of two-node entries of a scheduling list, as a reward. *)
Definition two_qubit_count (gates : GateSchedulingList) : Q :=
  inject_Z (Z.of_nat (length (filter (fun g => length g.2 = 2) gates))).

(** The environment of [line3_args] (two edges, noise-aware). *)
Definition line3_env : RoutingEnv := from_ok blank_env (__init__ line3_args).

(** [line3_args] with an error-rate array of shape (1,). *)
Definition short_rates_args : InitArgs :=
  {| arg_coupling_map := line3;
     arg_circuit := Some [cx 0 1 2];
     arg_initial_mapping := Some [1; 0; 2];
     arg_allow_bridge_gate := true;
     arg_commutation_analysis := false;
     arg_error_rates := Some [1 # 2];
     arg_noise_config := Some example_noise;
     arg_commutation_pass := cx_commutation_pass |}.





(** C2 as the spec states it, in what it says of the result of a pass: the
    nodes of a scheduled operation are claimed, so no operation scheduled
    after it in the same pass uses one of them. *)
Definition pass_claims_scheduled_nodes (env : RoutingEnv) : Prop :=
  forall gates,
    _schedulable_gates env false = Ok gates ->
    forall pre g post,
      gates = pre ++ g :: post -> forall n, n ∈ g.2 -> n ∉ concat (pre.*2).

(** cx(q0, q1) twice on the two-node device 0 - 1. *)
Definition twice_args : InitArgs :=
  {| arg_coupling_map := path_graph [0; 1];
     arg_circuit := Some [cx 0 0 1; cx 1 0 1];
     arg_initial_mapping := None;
     arg_allow_bridge_gate := true;
     arg_commutation_analysis := false;
     arg_error_rates := None;
     arg_noise_config := None;
     arg_commutation_pass := cx_commutation_pass |}.

Definition twice_env : RoutingEnv := from_ok blank_env (__init__ twice_args).

(** An entry of a scheduling list that passed the rule against [locked]. *)
Definition passed_rule (env : RoutingEnv) (locked : gset nat) (g : DAGOpNode * list nat) : Prop :=
  mapped_nodes env (qargs g.1) = Ok g.2 /\ _is_schedulable env g.2 locked = true.

(** A single cx(q0, q2) on the device 0 - 1 - 2 with the identity mapping:
    after [reset] the gate is blocked (nodes 0 and 2 are not adjacent) and a
    SWAP on the edge (0, 1) makes it executable. *)
Definition blocked_args : InitArgs :=
  {| arg_coupling_map := line3;
     arg_circuit := Some [cx 0 0 2];
     arg_initial_mapping := None;
     arg_allow_bridge_gate := true;
     arg_commutation_analysis := false;
     arg_error_rates := None;
     arg_noise_config := None;
     arg_commutation_pass := cx_commutation_pass |}.

Definition blocked_state : SequentialRoutingEnv :=
  (Sequential.reset (from_ok blank_sequential (Sequential.__init__ blocked_args true))).2.

(** The original instance, its copy, and the heap after [step(0)] on the
    copy. *)
Definition original_instance : SequentialInstance * list object :=
  SequentialObject.new blocked_state [].

Definition copied_instance : option (SequentialInstance * list object) :=
  SequentialObject.copy original_instance.1 original_instance.2.

Definition heap_after_copy : list object :=
  match copied_instance with
  | Some (_, h) => h
  | None => []
  end.

Definition heap_after_step_on_copy : list object :=
  match copied_instance with
  | Some (i, h) =>
      match SequentialObject.run (Sequential.step 0) i h with
      | Some (_, _, h') => h'
      | None => []
      end
  | None => []
  end.

(** The sequential environment of [line3_args] after construction, after
    [reset] (the gate is blocked: q1 and q2 sit on the nodes 0 and 2), and
    after the SWAP action 0, which makes the gate executable and ends the
    episode. *)
Definition line3_built : SequentialRoutingEnv :=
  from_ok blank_sequential (Sequential.__init__ line3_args true).

Definition line3_reset : SequentialRoutingEnv := (Sequential.reset line3_built).2.

Definition line3_done : SequentialRoutingEnv := (Sequential.step 0 line3_reset).2.

(** A single cx(q0, q2) on the device 0 - 1 - 3 - 2: its nodes are at
    distance three, so no bridge pair has a candidate and nothing is
    schedulable after [reset]. *)
Definition far_args : InitArgs :=
  {| arg_coupling_map := line4;
     arg_circuit := Some [cx 0 0 2];
     arg_initial_mapping := None;
     arg_allow_bridge_gate := true;
     arg_commutation_analysis := true;
     arg_error_rates := None;
     arg_noise_config := None;
     arg_commutation_pass := cx_commutation_pass |}.

Definition far_state : SequentialRoutingEnv :=
  (Sequential.reset (from_ok blank_sequential (Sequential.__init__ far_args true))).2.

Definition far_layered : LayeredRoutingEnv :=
  (Layered.reset (from_ok blank_layered (Layered.__init__ far_args false))).2.

(** ** Observation modules *)

(** A [spaces.Box] with integer bounds: lowest value, highest value, shape. *)
Record Box := {
  box_low : Z;
  box_high : Z;
  box_shape : list nat }.

Module LockedEdges.

(** [LockedEdges.space(env)] *)
Definition space (env : LayeredRoutingEnv) : Box :=
  {| box_low := 0;
     box_high := if use_decomposed_actions env then 4 else 1;
     box_shape := [num_edges (lay_base env)] |}.

(** [LockedEdges.obs(env)]:
    [max(env.scheduling_map.get(q, 0) for q in edge)] for every edge. *)
Definition obs (env : LayeredRoutingEnv) : list Z :=
  map (fun edge : nat * nat =>
         (default 0 (scheduling_map env !! edge.1) `max` default 0 (scheduling_map env !! edge.2))%Z)
      (edge_list (lay_base env)).

End LockedEdges.

(** Every lock of the map has the duration one. *)
Definition unit_locks (m : gmap nat Z) : Prop :=
  forall k v, m !! k = Some v -> v = 1%Z.

(** What a step may do to the circuit state: operations leave the DAG and
    are never put back, the routed-gates log and the routed set only grow,
    the configuration stays. *)
Definition progresses (s s' : RoutingEnv) : Prop :=
  dag s' `sublist_of` dag s /\
  routed_gates s `prefix_of` routed_gates s' /\
  routed_op_nodes s ⊆ routed_op_nodes s' /\
  config s' = config s.

(** A computation moves the state along the relation [R], whether it
    returns or raises. *)
Definition advances {S A} (R : S -> S -> Prop) (m : M S A) : Prop :=
  forall s, R s (m s).2.

(** The part of the state [progresses] speaks about. *)
Definition circuit_state (s : RoutingEnv)
  : list DAGOpNode * list (Gate * list nat) * gset nat * Config :=
  (dag s, routed_gates s, routed_op_nodes s, config s).

(** What makes the action [j] selectable in a sequential environment: it is
    not the blocked SWAP; a SWAP action, when SWAPs are restricted to the front
    layer, touches a node of the front layer; a BRIDGE action has a candidate
    in the front layer. *)
Definition seq_action_valid (env : SequentialRoutingEnv) (j : nat) : Prop :=
  _blocked_swap env ≠ Some j /\
  if decide (j < num_edges (seq_base env))
  then
    restrict_swaps_to_front_layer env = true ->
    exists fl edge,
      Sequential.front_layer_nodes (seq_base env) = Ok fl /\
      edge_list (seq_base env) !! j = Some edge /\
      (edge.1 ∈ fl \/ edge.2 ∈ fl)
  else
    exists pair args,
      bridge_pairs (config (seq_base env)) !! (j - num_edges (seq_base env)) = Some pair /\
      _bridge_args (seq_base env) pair = Ok (Some args).

(** What makes the action [j] selectable in a layered environment: a SWAP
    or BRIDGE acts on nodes that are not locked (and the BRIDGE has a
    candidate in the front layer); the last action, COMMIT, needs a locked
    node. *)
Definition lay_action_valid (env : LayeredRoutingEnv) (j : nat) : Prop :=
  let b := lay_base env in
  if decide (j < num_edges b)
  then
    exists edge,
      edge_list b !! j = Some edge /\
      scheduling_map env !! edge.1 = None /\ scheduling_map env !! edge.2 = None
  else if decide (j < num_edges b + length (bridge_pairs (config b)))
  then
    exists pair op_node nodes,
      bridge_pairs (config b) !! (j - num_edges b) = Some pair /\
      _bridge_args b pair = Ok (Some (op_node, nodes)) /\
      forall n, n ∈ nodes -> scheduling_map env !! n = None
  else scheduling_map env ≠ ∅.

(** Every two-node entry of the routed-gates log acts on two nodes joined by
    an edge of the device. *)
Definition on_device (env : RoutingEnv) : Prop :=
  forall g a b,
    (g, [a; b]) ∈ routed_gates env -> has_edge (coupling_map (config env)) a b = true.

(** ** Further concrete environments *)

(** [far_state] and [far_layered] after the SWAP action 0, on the edge
    (0, 1): cx(q0, q2) now sits on the nodes 1 and 2, still two edges apart,
    so the SWAP schedules nothing. *)
Definition far_state_swapped : SequentialRoutingEnv := (Sequential.step 0 far_state).2.

Definition far_layered_swapped : LayeredRoutingEnv := (Layered.step 0 far_layered).2.

(** The layered environment of [blocked_args] after [reset] and the SWAP
    action 0: cx(q0, q2) sits on the adjacent nodes 1 and 2, and the node 1
    is locked by the SWAP. *)
Definition blocked_layered_swapped : LayeredRoutingEnv :=
  (Layered.step 0 (Layered.reset (from_ok blank_layered (Layered.__init__ blocked_args false))).2).2.

(** [l[:k]] *)
Definition slice_to {A} (k : Z) (l : list A) : list A :=
  if decide (0 <= k)%Z then take (Z.to_nat k) l else take (length l - Z.to_nat (- k)) l.

Module QubitInteractions.

(** The keys of the ordered dictionary, in insertion order:
    [(j, i) for i in range(num_qubits) for j in range(i)]. *)
Definition pairs (n : nat) : list (nat * nat) :=
  flat_map (fun i => map (fun j => (j, i)) (seq 0 i)) (seq 0 n).

(** [QubitInteractions.space(env)] *)
Definition space (max_depth : Z) (env : RoutingEnv) : Box :=
  {| box_low := -1;
     box_high := max_depth;
     box_shape := [num_qubits env * (num_qubits env - 1) / 2] |}.

(** One operation of the layer [i] (lines 731-735).  [qi] holds the values
    of the ordered dictionary; a read of a missing key raises, so no key is
    ever added and the keys stay [pairs num_qubits]. *)
Definition visit (i : nat) (qi : gmap (nat * nat) Z) (op_node : DAGOpNode)
  : outcome (gmap (nat * nat) Z) :=
  if decide (length (qargs op_node) = 2)
  then
    match merge_sort Nat.le (qargs op_node) with
    | [a; b] =>
        match qi !! (a, b) with
        | Some v => Ok (if decide (v = (-1)%Z) then <[(a, b) := Z.of_nat i]> qi else qi)
        | None => Raise KeyError
        end
    | _ => Raise KeyError
    end
  else Ok qi.

Fixpoint visit_layer (i : nat) (qi : gmap (nat * nat) Z) (layer : list DAGOpNode)
  : outcome (gmap (nat * nat) Z) :=
  match layer with
  | [] => Ok qi
  | op_node :: rest => try qi' <- visit i qi op_node; visit_layer i qi' rest
  end.

(** [for i, layer in enumerate(layers)], counting from [i]. *)
Fixpoint visit_layers (i : nat) (qi : gmap (nat * nat) Z) (layers : list (list DAGOpNode))
  : outcome (gmap (nat * nat) Z) :=
  match layers with
  | [] => Ok qi
  | layer :: rest => try qi' <- visit_layer i qi layer; visit_layers (S i) qi' rest
  end.

(** [QubitInteractions.obs(env)] *)
Definition obs (max_depth : Z) (env : RoutingEnv) : outcome (list Z) :=
  let keys := pairs (num_qubits env) in
  let qi := list_to_map (map (fun key => (key, (-1)%Z)) keys) in
  try qi <- visit_layers 0 qi (slice_to max_depth (dag_layers (dag env)));
  Ok (map (fun key => default (-1)%Z (qi !! key)) keys).

End QubitInteractions.

(** The operation acts on exactly the two qubits of [key]. *)
Definition interacts (key : nat * nat) (op_node : DAGOpNode) : Prop :=
  length (qargs op_node) = 2 /\ merge_sort Nat.le (qargs op_node) = [key.1; key.2].

Global Instance interacts_dec key op_node : Decision (interacts key op_node).
Proof. unfold interacts. apply _. Defined.

(** The index of the first of [layers] with an operation on the two qubits
    of [key], or -1. *)
Definition first_interaction (key : nat * nat) (layers : list (list DAGOpNode)) : Z :=
  match list_find (fun layer => Exists (interacts key) layer) layers with
  | Some (i, _) => Z.of_nat i
  | None => (-1)%Z
  end.

(** ** The circuit-matrix observation module *)

Module CircuitMatrix.

(** [CircuitMatrix.__init__(depth)]: the depth it keeps (the message of the
    error also quotes the depth). *)
Definition __init__ (depth : Z) : outcome nat :=
  if decide (depth <= 0)%Z
  then Raise (ValueError "Depth must be positive")
  else Ok (Z.to_nat depth).

(** [CircuitMatrix.space(env)] *)
Definition space (depth : nat) (env : RoutingEnv) : Box :=
  {| box_low := -1;
     box_high := Z.of_nat (num_qubits env) - 1;
     box_shape := [num_qubits env; depth] |}.

(** [circuit[row, col] = x] on a two-dimensional array. *)
Definition setitem2 (circuit : list (list Z)) (row col : nat) (x : Z) : outcome (list (list Z)) :=
  try r <- getitem circuit row;
  try r' <- setitem r col x;
  setitem circuit row r'.

(** The loop over [env.dag.two_qubit_ops()] (lines 688-703), with its
    [break]; the state is [layer_idx], [layer_qubits] and [circuit]. *)
Fixpoint fill (depth : nat) (env : RoutingEnv) (ops : list DAGOpNode)
    (layer_idx : nat) (layer_qubits : gset nat) (circuit : list (list Z))
  : outcome (list (list Z)) :=
  match ops with
  | [] => Ok circuit
  | op_node :: rest =>
      let indices := qargs op_node in
      let overlap := existsb (fun q => bool_decide (q ∈ layer_qubits)) indices in
      let layer_idx' := if overlap then S layer_idx else layer_idx in
      let layer_qubits' :=
        if overlap then list_to_set indices else layer_qubits ∪ list_to_set indices in
      if overlap && bool_decide (layer_idx' = depth)
      then Ok circuit
      else
        match indices with
        | [idx_a; idx_b] =>
            try node_b <- getitem (qubit_to_node env) idx_b;
            try circuit <- setitem2 circuit idx_a layer_idx' (Z.of_nat node_b);
            try node_a <- getitem (qubit_to_node env) idx_a;
            try circuit <- setitem2 circuit idx_b layer_idx' (Z.of_nat node_a);
            fill depth env rest layer_idx' layer_qubits' circuit
        | _ => Raise (ValueError "not enough values to unpack")
        end
  end.

(** [CircuitMatrix.obs(env)] *)
Definition obs (depth : nat) (env : RoutingEnv) : outcome (list (list Z)) :=
  let n := num_qubits env in
  let circuit := replicate n (replicate depth (-1)%Z) in
  let two_qubit_ops := filter (fun op_node => length (qargs op_node) = 2) (dag env) in
  try circuit <- fill depth env two_qubit_ops 0 ∅ circuit;
  map_outcome (fun q => try k <- getitem (node_to_qubit env) q; getitem circuit k) (seq 0 n).

End CircuitMatrix.

(** An entry of the circuit matrix: -1 or an entry of [qubit_to_node]. *)
Definition matrix_entry (env : RoutingEnv) (x : Z) : Prop :=
  x = (-1)%Z \/ exists idx node, qubit_to_node env !! idx = Some node /\ x = Z.of_nat node.

(** The circuit has [n] rows of [depth] entries, each of them -1 or an entry
    of [qubit_to_node]. *)
Definition matrix_shaped (n depth : nat) (env : RoutingEnv) (circuit : list (list Z)) : Prop :=
  length circuit = n /\
  Forall (fun row => length row = depth /\ Forall (matrix_entry env) row) circuit.


(** The DAG holds operations of the circuit the environment was built for,
    on the device it was built for. *)
Definition built_for (a : InitArgs) (env : RoutingEnv) : Prop :=
  dag env ⊆ default [] (arg_circuit a) /\
  circuit (config env) = default [] (arg_circuit a) /\
  coupling_map (config env) = arg_coupling_map a.

(** ** Plain environments *)

(** The configuration the constructor builds from its arguments. *)
Definition config_of (a : InitArgs) : Config :=
  {| coupling_map := arg_coupling_map a;
     circuit := default [] (arg_circuit a);
     initial_mapping := default (seq 0 (num_nodes (arg_coupling_map a))) (arg_initial_mapping a);
     allow_bridge_gate := arg_allow_bridge_gate a;
     commutation_analysis := arg_commutation_analysis a;
     noise_config := arg_noise_config a;
     bridge_pairs :=
       if arg_allow_bridge_gate a then distance_two_pairs (arg_coupling_map a) else [];
     commutation_pass := arg_commutation_pass a |}.

(** Arguments of an environment without noise awareness and commutation
    analysis, on consistent data: the initial mapping is a permutation of the
    nodes, the circuit acts on qubits of the device, the edges of the coupling
    map join nodes of the device, and the shortest path between two nodes at
    distance two has three nodes. *)
Definition plain_args (a : InitArgs) : Prop :=
  let g := arg_coupling_map a in
  (forall m, arg_initial_mapping a = Some m -> m ≡ₚ seq 0 (num_nodes g)) /\
  (forall op_node q, op_node ∈ default [] (arg_circuit a) -> q ∈ qargs op_node -> q < num_nodes g) /\
  (forall edge, edge ∈ graph_edge_list g -> edge.1 < num_nodes g /\ edge.2 < num_nodes g) /\
  (forall x y, x < num_nodes g -> y < num_nodes g ->
     graph_distance_matrix g (x `min` y) (x `max` y) = 2 ->
     length (graph_all_pairs_dijkstra_shortest_paths g x y) = 3) /\
  arg_noise_config a = None /\
  arg_commutation_analysis a = false.

(** The states the methods of a plain environment run on. *)
Definition sound (a : InitArgs) (s : RoutingEnv) : Prop :=
  mutual_inverses s /\ dag s ⊆ default [] (arg_circuit a) /\ config s = config_of a.

(** Total correctness: from a state satisfying [P] the computation returns,
    in a state and with a result satisfying [Q]. *)
Definition total {S A} (P : S -> Prop) (m : M S A) (Q : A -> S -> Prop) : Prop :=
  forall s, P s -> exists x s', m s = (Ok x, s') /\ Q x s'.

(** The states of a plain sequential environment: a sound base, and a
    blocked SWAP that is a SWAP action. *)
Definition seq_sound (a : InitArgs) (env : SequentialRoutingEnv) : Prop :=
  sound a (seq_base env) /\
  forall i, _blocked_swap env = Some i -> i < length (graph_edge_list (arg_coupling_map a)).

Definition lay_sound (a : InitArgs) (env : LayeredRoutingEnv) : Prop :=
  sound a (lay_base env).

(** The DAG holds exactly the operations of the circuit that are not in the
    routed set, in circuit order. *)
Definition dag_tracks_routed (s : RoutingEnv) : Prop :=
  dag s = filter (fun m => node_id m ∉ routed_op_nodes s) (circuit (config s)).

(** The part of the state [dag_tracks_routed] speaks about. *)
Definition routing_state (s : RoutingEnv) : list DAGOpNode * gset nat * Config :=
  (dag s, routed_op_nodes s, config s).


(** * Properties *)

(** ** The monads *)


Lemma preserves_ret {S A X} (f : S -> X) (a : A) : preserves f (ret a).
Proof. by intros s. Qed.

Lemma preserves_gets {S A X} (f : S -> X) (g : S -> A) : preserves f (gets g).
Proof. by intros s. Qed.

Lemma preserves_call {S A X} (f : S -> X) (g : S -> outcome A) : preserves f (call g).
Proof. by intros s. Qed.

Lemma preserves_raise {S A X} (f : S -> X) (e : exn) : preserves f (@raise S A e).
Proof. by intros s. Qed.

Lemma preserves_modify {S X} (f : S -> X) (g : S -> S) :
  (forall s, f (g s) = f s) -> preserves f (modify g).
Proof. intros H s. apply H. Qed.

Lemma preserves_bind {S A B X} (f : S -> X) (m : M S A) (k : A -> M S B) :
  preserves f m -> (forall a, preserves f (k a)) -> preserves f (bind m k).
Proof.
  intros Hm Hk s. unfold bind. specialize (Hm s).
  destruct (m s) as [[a|e] s']; simpl in *; [|done].
  by rewrite Hk.
Qed.

Lemma preserves_for_each {S A X} (f : S -> X) (l : list A) (body : A -> M S unit) :
  (forall x, preserves f (body x)) -> preserves f (for_each l body).
Proof.
  intros H. induction l as [|x l IH]; simpl.
  - apply preserves_ret.
  - apply preserves_bind; auto.
Qed.

Lemma preserves_zoom {S T A X} (f : T -> X) (get : S -> T) (set : T -> S -> S) (m : M T A) :
  (forall t s, get (set t s) = t) -> preserves f m -> preserves (fun s => f (get s)) (zoom get set m).
Proof. intros Hgs Hm s. unfold zoom. simpl. by rewrite Hgs. Qed.

Lemma preserves_if {S A X} (f : S -> X) (b : bool) (m1 m2 : M S A) :
  preserves f m1 -> preserves f m2 -> preserves f (if b then m1 else m2).
Proof. by destruct b. Qed.

Create HintDb frame.
#[local] Hint Resolve preserves_ret preserves_gets preserves_call preserves_raise
  preserves_for_each preserves_if : frame.

Ltac frame :=
  repeat first
    [ apply preserves_bind; [|intros ?]
    | apply preserves_for_each; intros ?
    | apply preserves_modify; intros ?; reflexivity
    | apply preserves_ret | apply preserves_gets | apply preserves_call | apply preserves_raise
    | apply preserves_if ].

(** ** Frame properties of the mapping *)


Lemma _remove_op_node_mapping op_node : preserves mapping_of (_remove_op_node op_node).
Proof. unfold _remove_op_node. frame. Qed.

Lemma _schedule_gates_mapping gates : preserves mapping_of (_schedule_gates gates).
Proof. unfold _schedule_gates, _remove_op_node. frame. Qed.

Lemma _bridge_mapping c m t : preserves mapping_of (_bridge c m t).
Proof. unfold _bridge. frame. Qed.

Lemma seq_update_state_mapping : preserves mapping_of Sequential._update_state.
Proof. unfold Sequential._update_state, _schedule_gates, _remove_op_node. frame. Qed.

Lemma calibrate_mapping rates : preserves mapping_of (calibrate rates).
Proof.
  unfold calibrate. apply preserves_modify. intros s. unfold calibrate_env.
  by destruct (noise_config (config s)).
Qed.

Lemma reset_circuit_mapping : preserves mapping_of reset_circuit.
Proof.
  unfold reset_circuit. frame.
Qed.

(** ** SWAP on the mapping arrays *)

Lemma getitem_Some {A} (l : list A) i x : l !! i = Some x -> getitem l i = Ok x.
Proof. unfold getitem. by intros ->. Qed.

Lemma getitem_None {A} (l : list A) i : l !! i = None -> getitem l i = Raise IndexError.
Proof. unfold getitem. by intros ->. Qed.

Lemma setitem_lt {A} (l : list A) i x : i < length l -> setitem l i x = Ok (<[i:=x]> l).
Proof. unfold setitem. intros H. by rewrite decide_True. Qed.

(** [_swap] on nodes inside the arrays, with qubits inside the inverse
    array: it returns, logs one SWAP and exchanges two entries of each
    array. *)
Lemma _swap_eq (env : RoutingEnv) (a b qa qb : nat) :
  node_to_qubit env !! a = Some qa ->
  node_to_qubit env !! b = Some qb ->
  qa < length (qubit_to_node env) ->
  qb < length (qubit_to_node env) ->
  _swap (a, b) env =
    (Ok tt,
     set_qubit_to_node (<[qb:=a]> (<[qa:=b]> (qubit_to_node env)))
       (set_node_to_qubit (<[b:=qa]> (<[a:=qb]> (node_to_qubit env)))
         (set_routed_gates (routed_gates env ++ [(SwapGate, [a; b])]) env))).
Proof.
  intros Ha Hb Hqa Hqb.
  pose proof (lookup_lt_Some _ _ _ Ha) as Hla.
  pose proof (lookup_lt_Some _ _ _ Hb) as Hlb.
  unfold _swap, bind, modify, call; simpl.
  rewrite (getitem_Some _ _ _ Ha), (getitem_Some _ _ _ Hb).
  rewrite (setitem_lt _ a) by done. simpl.
  rewrite (setitem_lt _ b) by (by rewrite length_insert). simpl.
  rewrite (setitem_lt _ qa) by done. simpl.
  rewrite (setitem_lt _ qb) by (by rewrite length_insert). simpl.
  reflexivity.
Qed.

(** On a node outside the array [_swap] raises before it writes to the
    arrays. *)
Lemma _swap_out_of_range (env : RoutingEnv) (a b : nat) :
  node_to_qubit env !! a = None \/ node_to_qubit env !! b = None ->
  (_swap (a, b) env).1 = Raise IndexError /\
  mapping_of (_swap (a, b) env).2 = mapping_of env.
Proof.
  intros H. unfold _swap, bind, modify, call; simpl.
  destruct (node_to_qubit env !! a) as [qa|] eqn:Ha.
  - destruct H as [H|H]; [done|].
    rewrite (getitem_Some _ _ _ Ha), (getitem_None _ _ H). done.
  - rewrite (getitem_None _ _ Ha). done.
Qed.

Lemma inverse_of_swap (f g : list nat) (x y fx fy : nat) :
  inverse_of f g -> f !! x = Some fx -> f !! y = Some fy ->
  inverse_of (<[y:=fx]> (<[x:=fy]> f)) (<[fy:=x]> (<[fx:=y]> g)).
Proof.
  intros H Hx Hy i v Hi.
  pose proof (H _ _ Hx) as Hgx. pose proof (H _ _ Hy) as Hgy.
  pose proof (lookup_lt_Some _ _ _ Hgx) as Hlx.
  pose proof (lookup_lt_Some _ _ _ Hgy) as Hly.
  apply list_lookup_insert_Some in Hi as [(Hiy & Hv & _)|[Hne Hi]].
  - subst i v. destruct (decide (fx = fy)) as [Heq|Hq].
    + rewrite Heq in *. rewrite list_lookup_insert_eq by (by rewrite length_insert). congruence.
    + rewrite list_lookup_insert_ne by done. by rewrite list_lookup_insert_eq.
  - apply list_lookup_insert_Some in Hi as [(Hix & Hv & _)|[Hne' Hi]].
    + subst i v. rewrite list_lookup_insert_eq by (by rewrite length_insert). done.
    + pose proof (H _ _ Hi) as Hgv.
      rewrite !list_lookup_insert_ne; [done| |]; intros Heq; rewrite Heq in *; congruence.
Qed.


Lemma mutual_inverses_ext (e1 e2 : RoutingEnv) :
  mapping_of e1 = mapping_of e2 -> mutual_inverses e1 -> mutual_inverses e2.
Proof.
  unfold mapping_of, mutual_inverses, num_qubits. intros [= Hc Hn Hq].
  by rewrite Hc, Hn, Hq.
Qed.

(** [_swap] keeps the arrays mutual inverses, for every edge: inside the
    arrays it exchanges two entries of each, outside it raises before it
    writes. *)
Lemma _swap_mutual_inverses (edge : nat * nat) :
  maintains mutual_inverses (_swap edge).
Proof.
  intros env Hinv. destruct edge as [a b].
  destruct (node_to_qubit env !! a) as [qa|] eqn:Ha; cycle 1.
  { eapply mutual_inverses_ext; [|done]. symmetry. apply _swap_out_of_range. by left. }
  destruct (node_to_qubit env !! b) as [qb|] eqn:Hb; cycle 1.
  { eapply mutual_inverses_ext; [|done]. symmetry. apply _swap_out_of_range. by right. }
  destruct Hinv as (Hl1 & Hl2 & H12 & H21).
  pose proof (H12 _ _ Ha) as Hqa. pose proof (H12 _ _ Hb) as Hqb.
  rewrite (_swap_eq env a b qa qb) by eauto using lookup_lt_Some.
  unfold mutual_inverses, num_qubits; simpl.
  rewrite !length_insert. repeat split; try done.
  - by apply inverse_of_swap.
  - by apply (inverse_of_swap (qubit_to_node env) (node_to_qubit env) qa qb a b).
Qed.

Lemma _swap_config (edge : nat * nat) : preserves config (_swap edge).
Proof. unfold _swap. frame. Qed.

(** ** C7: two SWAPs on the same edge *)


(** ** Maintaining a state predicate *)

Lemma maintains_bind {S A B} (P : S -> Prop) (m : M S A) (k : A -> M S B) :
  maintains P m -> (forall a, maintains P (k a)) -> maintains P (bind m k).
Proof.
  intros Hm Hk s Hs. unfold bind. specialize (Hm s Hs).
  destruct (m s) as [[a|e] s']; simpl in *; [|done].
  by apply Hk.
Qed.

Lemma maintains_preserves {S A X} (f : S -> X) (P : S -> Prop) (m : M S A) :
  (forall s s', f s' = f s -> P s -> P s') -> preserves f m -> maintains P m.
Proof. intros Hext Hm s Hs. eapply Hext; [apply Hm|done]. Qed.

Lemma maintains_zoom {S T A} (P : T -> Prop) (get : S -> T) (set : T -> S -> S) (m : M T A) :
  (forall t s, get (set t s) = t) -> maintains P m ->
  maintains (fun s => P (get s)) (zoom get set m).
Proof. intros Hgs Hm s Hs. unfold zoom. simpl. rewrite Hgs. by apply Hm. Qed.

Lemma maintains_if {S A} (P : S -> Prop) (b : bool) (m1 m2 : M S A) :
  maintains P m1 -> maintains P m2 -> maintains P (if b then m1 else m2).
Proof. by destruct b. Qed.

Lemma bind_ok {S A B} (m : M S A) (k : A -> M S B) (s s' : S) (a : A) :
  m s = (Ok a, s') -> bind m k s = k a s'.
Proof. unfold bind. by intros ->. Qed.

Lemma bind_raise {S A B} (m : M S A) (k : A -> M S B) (s s' : S) (e : exn) :
  m s = (Raise e, s') -> bind m k s = (Raise e, s').
Proof. unfold bind. by intros ->. Qed.

(** ** Filling [qubit_to_node] from [node_to_qubit] *)

Lemma set_qubit_to_node_id (env : RoutingEnv) :
  set_qubit_to_node (qubit_to_node env) env = env.
Proof. by destruct env. Qed.

Lemma fill_loop (pairs : list (nat * nat)) : forall env : RoutingEnv,
  (forall nq, nq ∈ pairs -> nq.2 < length (qubit_to_node env)) ->
  NoDup (pairs.*2) ->
  exists q2n,
    for_each pairs (fun nq =>
      do q2n <- call (fun env => setitem (qubit_to_node env) nq.2 nq.1);
      modify (set_qubit_to_node q2n)) env = (Ok tt, set_qubit_to_node q2n env) /\
    length q2n = length (qubit_to_node env) /\
    (forall n q, (n, q) ∈ pairs -> q2n !! q = Some n) /\
    (forall q, q ∉ pairs.*2 -> q2n !! q = qubit_to_node env !! q).
Proof.
  induction pairs as [|[n q] rest IH]; intros env Hlt Hnd.
  - exists (qubit_to_node env). simpl. unfold ret. rewrite set_qubit_to_node_id.
    split; [done|]. split; [done|]. split; [|done]. intros ? ? H. by apply elem_of_nil in H.
  - simpl in Hnd. apply NoDup_cons in Hnd as [Hq Hnd].
    assert (Hql : q < length (qubit_to_node env)) by (apply (Hlt (n, q)); left).
    set (env1 := set_qubit_to_node (<[q:=n]> (qubit_to_node env)) env).
    destruct (IH env1) as (q2n & Hrun & Hlen & Hin & Hout); [|done|].
    { intros nq Hnq. unfold env1. simpl. rewrite length_insert. apply Hlt. by right. }
    exists q2n. split; [|split; [|split]].
    + cbn [for_each]. erewrite bind_ok; [exact Hrun|].
      unfold bind, call, modify. cbn [fst snd]. by rewrite setitem_lt.
    + rewrite Hlen. unfold env1. simpl. by rewrite length_insert.
    + intros n' q' Hel. apply elem_of_cons in Hel as [[= -> ->]|Hel]; [|by apply Hin].
      rewrite Hout by done. unfold env1. simpl. by rewrite list_lookup_insert_eq.
    + intros q' Hq'. simpl in Hq'. apply not_elem_of_cons in Hq' as [Hne Hq'].
      rewrite Hout by done. unfold env1. simpl. by rewrite list_lookup_insert_ne.
Qed.

Lemma elem_of_zip_seq (l : list nat) (i x : nat) :
  (i, x) ∈ zip (seq 0 (length l)) l <-> l !! i = Some x.
Proof.
  rewrite list_elem_of_lookup. split.
  - intros [k Hk]. apply lookup_zip_with_Some in Hk as (a & b & [= <- <-] & Ha & Hb).
    apply lookup_seq in Ha as [-> _]. done.
  - intros Hi. exists i. apply lookup_zip_with_Some. exists i, x. split; [done|].
    split; [|done]. apply lookup_seq. split; [done|]. eauto using lookup_lt_Some.
Qed.

(** On a permutation of the nodes the loop returns, and leaves the two
    arrays mutual inverses. *)
Lemma fill_qubit_to_node_spec (env : RoutingEnv) :
  node_to_qubit env ≡ₚ seq 0 (num_qubits env) ->
  length (qubit_to_node env) = num_qubits env ->
  exists q2n,
    fill_qubit_to_node env = (Ok tt, set_qubit_to_node q2n env) /\
    mutual_inverses (set_qubit_to_node q2n env).
Proof.
  intros Hperm Hlen.
  assert (Hl : length (node_to_qubit env) = num_qubits env).
  { by rewrite Hperm, length_seq. }
  destruct (fill_loop (zip (seq 0 (length (node_to_qubit env))) (node_to_qubit env)) env)
    as (q2n & Hrun & Hlen' & Hin & Hout).
  { intros [n q] Hnq. simpl. apply elem_of_zip_seq in Hnq.
    apply list_elem_of_lookup_2 in Hnq. rewrite Hperm in Hnq.
    apply elem_of_seq in Hnq. lia. }
  { rewrite snd_zip by (rewrite length_seq; lia). rewrite Hperm. apply NoDup_seq. }
  exists q2n. split.
  { unfold fill_qubit_to_node, bind, gets. simpl. exact Hrun. }
  unfold mutual_inverses, num_qubits. simpl. repeat split.
  - done.
  - by rewrite Hlen'.
  - intros i x Hi. apply Hin. by apply elem_of_zip_seq.
  - intros q n Hq.
    assert (Hqn : q < num_qubits env).
    { apply lookup_lt_Some in Hq. lia. }
    assert (Hel : q ∈ node_to_qubit env).
    { rewrite Hperm. apply elem_of_seq. lia. }
    apply list_elem_of_lookup in Hel as [i Hi].
    assert (Hqi : q2n !! q = Some i) by (apply Hin; by apply elem_of_zip_seq).
    congruence.
Qed.

(** ** The mapping invariant along construction, reset and step *)

Lemma well_mapped_ext (e1 e2 : RoutingEnv) :
  mapping_of e2 = mapping_of e1 -> well_mapped e1 -> well_mapped e2.
Proof.
  intros Heq [Hinv Hperm]. split.
  - by apply (mutual_inverses_ext e1).
  - unfold mapping_of, num_qubits in *. injection Heq as Hc _ _. by rewrite Hc.
Qed.

Lemma maintains_frame (A : Type) (m : M RoutingEnv A) :
  preserves mapping_of m -> maintains well_mapped m.
Proof. apply maintains_preserves. apply well_mapped_ext. Qed.

Lemma maintains_pure {S A} (P : S -> Prop) (m : M S A) :
  preserves id m -> maintains P m.
Proof. intros H s Hs. specialize (H s). unfold id in H. by rewrite H. Qed.

Lemma _swap_well_mapped (edge : nat * nat) : maintains well_mapped (_swap edge).
Proof.
  intros env [Hinv Hperm]. split.
  - by apply _swap_mutual_inverses.
  - unfold num_qubits. by rewrite (_swap_config edge env).
Qed.

Lemma reset_mapping_well_mapped : maintains well_mapped reset_mapping.
Proof.
  intros env [(Hl1 & Hl2 & _) Hperm].
  set (env1 := set_node_to_qubit (initial_mapping (config env)) env).
  destruct (fill_qubit_to_node_spec env1) as (q2n & Hrun & Hinv); [done|done|].
  unfold reset_mapping. erewrite bind_ok by reflexivity.
  fold env1. rewrite Hrun. split; done.
Qed.

Lemma __init___well_mapped (a : InitArgs) (env : RoutingEnv) :
  (forall m, arg_initial_mapping a = Some m -> m ≡ₚ seq 0 (num_nodes (arg_coupling_map a))) ->
  __init__ a = Ok env -> well_mapped env.
Proof.
  intros Hperm. unfold __init__.
  set (im := default (seq 0 (num_nodes (arg_coupling_map a))) (arg_initial_mapping a)).
  assert (Him : im ≡ₚ seq 0 (num_nodes (arg_coupling_map a))).
  { unfold im. destruct (arg_initial_mapping a); simpl; auto. }
  case_decide; [done|]. case_decide; [done|].
  match goal with |- context [fill_qubit_to_node ?e] => set (env0 := e) end.
  destruct (fill_qubit_to_node_spec env0) as (q2n & Hrun & Hinv).
  { done. }
  { unfold env0, num_qubits. simpl. rewrite length_replicate. by rewrite Him, length_seq. }
  rewrite Hrun. intros [= <-].
  assert (Hwm : well_mapped (set_qubit_to_node q2n env0)) by (split; done).
  destruct (noise_aware _); [|done].
  revert Hwm. apply well_mapped_ext.
  apply (calibrate_mapping _ (set_qubit_to_node q2n env0)).
Qed.

Ltac maint_base :=
  first
    [ apply maintains_frame;
        first [ apply _remove_op_node_mapping | apply _schedule_gates_mapping
              | apply _bridge_mapping | apply seq_update_state_mapping
              | apply calibrate_mapping | apply reset_circuit_mapping ]
    | apply _swap_well_mapped
    | apply reset_mapping_well_mapped ].

Lemma seq_super_well_mapped (A : Type) (m : M RoutingEnv A) :
  maintains well_mapped m ->
  maintains (fun s => well_mapped (seq_base s)) (Sequential.super m).
Proof. intros H. unfold Sequential.super. by apply (maintains_zoom well_mapped). Qed.

Lemma seq_attr_well_mapped (A : Type) (m : M SequentialRoutingEnv A) :
  preserves seq_base m -> maintains (fun s => well_mapped (seq_base s)) m.
Proof. intros H s Hs. by rewrite H. Qed.

Ltac maint_seq :=
  repeat first
    [ apply seq_super_well_mapped; solve [maint_base]
    | apply seq_attr_well_mapped; solve [unfold print, Sequential.current_obs; frame]
    | apply maintains_bind; [|intros ?]
    | match goal with
      | |- maintains _ (match ?x with _ => _ end) => destruct x
      end ].

Lemma seq_reset_well_mapped :
  maintains (fun s => well_mapped (seq_base s)) Sequential.reset.
Proof. unfold Sequential.reset. maint_seq. Qed.

Lemma seq_step_well_mapped (action : nat) :
  maintains (fun s => well_mapped (seq_base s)) (Sequential.step action).
Proof. unfold Sequential.step. maint_seq. Qed.

Lemma seq_reachable_well_mapped (a : InitArgs) (restrict : bool) (env : SequentialRoutingEnv) :
  (forall m, arg_initial_mapping a = Some m -> m ≡ₚ seq 0 (num_nodes (arg_coupling_map a))) ->
  seq_reachable a restrict env -> well_mapped (seq_base env).
Proof.
  intros Hperm. induction 1 as [env Hinit|env _ IH|env action _ IH|env rates _ IH].
  - unfold Sequential.__init__ in Hinit.
    destruct (__init__ a) as [b|] eqn:Hb; [|done]. injection Hinit as <-.
    by apply (__init___well_mapped a).
  - by apply seq_reset_well_mapped.
  - by apply seq_step_well_mapped.
  - revert IH. apply (seq_super_well_mapped _ (calibrate rates)). maint_base.
Qed.

Lemma lay_super_well_mapped (A : Type) (m : M RoutingEnv A) :
  maintains well_mapped m ->
  maintains (fun s => well_mapped (lay_base s)) (Layered.super m).
Proof. intros H. unfold Layered.super. by apply (maintains_zoom well_mapped). Qed.

Lemma lay_attr_well_mapped (A : Type) (m : M LayeredRoutingEnv A) :
  preserves lay_base m -> maintains (fun s => well_mapped (lay_base s)) m.
Proof. intros H s Hs. by rewrite H. Qed.

Ltac maint_lay :=
  repeat first
    [ apply lay_super_well_mapped; solve [maint_base]
    | apply lay_attr_well_mapped; solve [unfold Layered.current_obs; frame]
    | apply maintains_bind; [|intros ?]
    | match goal with
      | |- maintains _ (match ?x with _ => _ end) => destruct x
      end ].

Lemma lay_update_state_well_mapped :
  maintains (fun s => well_mapped (lay_base s)) Layered._update_state.
Proof. unfold Layered._update_state, Layered._schedule_gates. maint_lay. Qed.

Lemma lay_reset_well_mapped :
  maintains (fun s => well_mapped (lay_base s)) Layered.reset.
Proof.
  unfold Layered.reset, Layered._reset_state.
  pose proof lay_update_state_well_mapped. maint_lay; done.
Qed.

Lemma lay_step_well_mapped (action : nat) :
  maintains (fun s => well_mapped (lay_base s)) (Layered.step action).
Proof.
  unfold Layered.step, Layered._swap, Layered._bridge.
  pose proof lay_update_state_well_mapped. maint_lay; done.
Qed.

Lemma lay_reachable_well_mapped (a : InitArgs) (decomposed : bool) (env : LayeredRoutingEnv) :
  (forall m, arg_initial_mapping a = Some m -> m ≡ₚ seq 0 (num_nodes (arg_coupling_map a))) ->
  lay_reachable a decomposed env -> well_mapped (lay_base env).
Proof.
  intros Hperm. induction 1 as [env Hinit|env _ IH|env action _ IH|env rates _ IH].
  - unfold Layered.__init__ in Hinit.
    destruct (__init__ a) as [b|] eqn:Hb; [|done]. injection Hinit as <-.
    by apply (__init___well_mapped a).
  - by apply lay_reset_well_mapped.
  - by apply lay_step_well_mapped.
  - revert IH. apply (lay_super_well_mapped _ (calibrate rates)). maint_base.
Qed.

(** ** Which steps write to the arrays *)

Lemma bind_gets {S A B} (f : S -> A) (k : A -> M S B) (s : S) :
  bind (gets f) k s = k (f s) s.
Proof. done. Qed.

Lemma preserves_after {S A B X} (f : S -> X) (m : M S A) (k : A -> M S B) (s : S) :
  (forall a, preserves f (k a)) -> f (bind m k s).2 = f (m s).2.
Proof.
  intros Hk. unfold bind. destruct (m s) as [[a|e] s']; [|done]. apply Hk.
Qed.

Lemma arrays_of_mapping (e1 e2 : RoutingEnv) :
  mapping_of e1 = mapping_of e2 -> arrays_of e1 = arrays_of e2.
Proof. unfold mapping_of, arrays_of. by intros [= _ -> ->]. Qed.

Lemma seq_super_preserves {A X} (f : RoutingEnv -> X) (m : M RoutingEnv A) :
  preserves f m -> preserves (fun s => f (seq_base s)) (Sequential.super m).
Proof. intros H. unfold Sequential.super. by apply (preserves_zoom f). Qed.

Lemma lay_super_preserves {A X} (f : RoutingEnv -> X) (m : M RoutingEnv A) :
  preserves f m -> preserves (fun s => f (lay_base s)) (Layered.super m).
Proof. intros H. unfold Layered.super. by apply (preserves_zoom f). Qed.

Ltac frame_base :=
  first [ apply _remove_op_node_mapping | apply _schedule_gates_mapping
        | apply _bridge_mapping | apply seq_update_state_mapping
        | apply calibrate_mapping | apply reset_circuit_mapping ].

Ltac frame_variant :=
  repeat first
    [ apply seq_super_preserves; solve [frame_base]
    | apply lay_super_preserves; solve [frame_base]
    | apply preserves_ret | apply preserves_gets | apply preserves_call | apply preserves_raise
    | apply preserves_modify; intros ?; reflexivity
    | apply preserves_bind; [|intros ?]
    | match goal with
      | |- preserves _ (match ?x with _ => _ end) => destruct x
      end ].

Lemma seq_update_state_frame :
  preserves (fun s => mapping_of (seq_base s)) (Sequential.super Sequential._update_state).
Proof. frame_variant. Qed.







(** ** C1: the mapping invariant *)


(** ** C5: the terminated state of the sequential variant *)

Lemma seq_super_config (A : Type) (m : M RoutingEnv A) :
  preserves config m ->
  preserves (fun s => (_blocked_swap s, config (seq_base s))) (Sequential.super m).
Proof. intros H s. unfold Sequential.super, zoom. simpl. by rewrite H. Qed.

Lemma preserves_fst {S A X Y} (f : S -> X * Y) (m : M S A) :
  preserves f m -> preserves (fun s => (f s).1) m.
Proof. intros H s. by rewrite H. Qed.

Lemma mapping_config (A : Type) (m : M RoutingEnv A) :
  preserves mapping_of m -> preserves config m.
Proof. intros H s. specialize (H s). unfold mapping_of in H. by injection H. Qed.

Ltac config_base :=
  first [ apply _swap_config
        | apply mapping_config; frame_base
        | unfold reset_mapping, fill_qubit_to_node; frame ].

Ltac frame_blocked :=
  repeat first
    [ apply seq_super_config; solve [config_base]
    | apply preserves_ret | apply preserves_gets | apply preserves_call | apply preserves_raise
    | apply preserves_modify; intros ?; reflexivity
    | apply preserves_bind; [|intros ?]
    | match goal with
      | |- preserves _ (match ?x with _ => _ end) => destruct x
      end ].

Lemma blocked_swap_valid_ext (s s' : SequentialRoutingEnv) :
  (_blocked_swap s', config (seq_base s')) = (_blocked_swap s, config (seq_base s)) ->
  blocked_swap_valid s -> blocked_swap_valid s'.
Proof.
  unfold blocked_swap_valid, num_edges, edge_list. intros [= -> ->]. done.
Qed.

Lemma seq_reset_blocked_swap : maintains blocked_swap_valid Sequential.reset.
Proof.
  apply (maintains_preserves (fun s => (_blocked_swap s, config (seq_base s)))).
  - apply blocked_swap_valid_ext.
  - unfold Sequential.reset, Sequential.current_obs. frame_blocked.
Qed.

Lemma seq_step_blocked_swap (action : nat) (c : Config) :
  maintains (fun s => blocked_swap_valid s /\ config (seq_base s) = c) (Sequential.step action).
Proof.
  set (P := fun s : SequentialRoutingEnv => blocked_swap_valid s /\ config (seq_base s) = c).
  assert (Hkeep : forall A (m : M SequentialRoutingEnv A),
            preserves (fun s => (_blocked_swap s, config (seq_base s))) m -> maintains P m).
  { intros A m Hm s [Hs Hc]. specialize (Hm s). simpl in Hm. injection Hm as Hb Hc'.
    split; [|congruence]. eapply blocked_swap_valid_ext; [|exact Hs]. by rewrite Hb, Hc'. }
  intros s [Hs Hc]. unfold Sequential.step. rewrite bind_gets.
  destruct (terminated (seq_base s)).
  { apply Hkeep; [|done]. unfold Sequential.current_obs. frame_blocked. }
  rewrite bind_gets.
  assert (Hn : num_edges (seq_base s) = length (graph_edge_list (coupling_map c))).
  { unfold num_edges, edge_list. by rewrite Hc. }
  revert Hn. generalize (num_edges (seq_base s)) as n. intros n Hn.
  match goal with
  | |- context [ (?m s).2 ] => enough (Hm : maintains P m) by (apply Hm; done)
  end.
  apply maintains_bind.
  { apply Hkeep. unfold print. frame_blocked. }
  intros reward. apply maintains_bind.
  { apply Hkeep. frame_blocked. }
  intros _. apply maintains_bind; [apply Hkeep; frame_blocked|]. intros sr.
  apply maintains_bind; [apply Hkeep; frame_blocked|]. intros scheduled.
  apply maintains_bind.
  { intros s' [Hs' Hc']. unfold modify. simpl. split; [|done].
    unfold blocked_swap_valid. simpl.
    destruct (bool_decide (action < n)) eqn:Hlt; simpl; [|done].
    destruct (bool_decide (scheduled = 0)); [|done].
    apply bool_decide_eq_true in Hlt. unfold num_edges, edge_list. simpl.
    rewrite Hc'. lia. }
  intros _. apply Hkeep. unfold Sequential.current_obs. frame_blocked.
Qed.

Lemma seq_reachable_blocked_swap (a : InitArgs) (restrict : bool) (env : SequentialRoutingEnv) :
  seq_reachable a restrict env -> blocked_swap_valid env.
Proof.
  induction 1 as [env Hinit|env _ IH|env action _ IH|env rates _ IH].
  - unfold Sequential.__init__ in Hinit.
    destruct (__init__ a) as [b|]; [|done]. by injection Hinit as <-.
  - by apply seq_reset_blocked_swap.
  - by apply (seq_step_blocked_swap action (config (seq_base env))).
  - revert IH. apply (maintains_preserves (fun s => (_blocked_swap s, config (seq_base s)))).
    + apply blocked_swap_valid_ext.
    + frame_blocked.
Qed.

Lemma map_outcome_ok {A B} (f : A -> outcome B) (g : A -> B) (l : list A) :
  (forall x, x ∈ l -> f x = Ok (g x)) -> map_outcome f l = Ok (map g l).
Proof.
  induction l as [|x l IH]; intros H; [done|]. simpl.
  rewrite H by left. simpl. rewrite IH; [done|]. intros y Hy. apply H. by right.
Qed.

Lemma length_zero_at (indices : list nat) (mask : list bool) :
  length (zero_at indices mask) = length mask.
Proof.
  unfold zero_at. revert mask. induction indices as [|i l IH]; intros mask; [done|].
  simpl. by rewrite IH, length_insert.
Qed.

Lemma terminated_dag (env : RoutingEnv) : terminated env = true -> dag env = [].
Proof.
  unfold terminated, dag_size. intros H. apply bool_decide_eq_true in H.
  by apply length_zero_iff_nil.
Qed.

Lemma _bridge_args_empty (env : RoutingEnv) (pair : nat * nat) :
  dag env = [] -> _bridge_args env pair = Ok None.
Proof. unfold _bridge_args. by intros ->. Qed.

(** With an empty DAG the action mask is computed without an exception. *)
Lemma seq_action_mask_terminated (env : SequentialRoutingEnv) :
  dag (seq_base env) = [] -> blocked_swap_valid env ->
  exists mask, Sequential.action_mask env = Ok mask.
Proof.
  intros Hdag Hvalid. unfold Sequential.action_mask.
  assert (Hfl : Sequential.front_layer_nodes (seq_base env) = Ok []).
  { unfold Sequential.front_layer_nodes. by rewrite Hdag. }
  rewrite Hfl.
  rewrite (map_outcome_ok _ (fun _ => None));
    [|intros; by apply _bridge_args_empty].
  unfold blocked_swap_valid in Hvalid.
  destruct (restrict_swaps_to_front_layer env); destruct (_blocked_swap env) as [i|]; simpl;
    try rewrite setitem_lt by (rewrite ?length_zero_at, length_replicate; lia);
    simpl; eauto.
Qed.

(** C5. In the sequential variant the terminated state is absorbing: in
    every reachable state whose DAG is empty, [step] with any action returns
    (it computes the observation without an exception), the reward is zero,
    [terminated] is reported true, and the whole environment state is the
    state before the step. *)
Theorem terminated_is_absorbing (a : InitArgs) (restrict : bool)
    (env : SequentialRoutingEnv) (action : nat) :
  seq_reachable a restrict env ->
  terminated (seq_base env) = true ->
  exists obs, Sequential.step action env = (Ok (obs, 0%Q, true, false), env).
Proof.
  intros Hreach Hterm.
  destruct (seq_action_mask_terminated env) as [mask Hmask].
  { by apply terminated_dag. }
  { by apply (seq_reachable_blocked_swap a restrict). }
  exists mask. unfold Sequential.step. rewrite bind_gets, Hterm.
  unfold Sequential.current_obs.
  by rewrite (bind_ok _ _ env env mask) by (unfold call; by rewrite Hmask).
Qed.

(** ** C4: an invalid BRIDGE action in the sequential variant *)

Lemma seq_super_run {A} (m : M RoutingEnv A) (s : SequentialRoutingEnv) :
  Sequential.super m s = ((m (seq_base s)).1, seq_set_base (m (seq_base s)).2 s).
Proof. done. Qed.

(** With nothing to schedule, the commit only resets its two counters. *)
Lemma seq_update_state_nothing (env : RoutingEnv) :
  _schedulable_gates env false = Ok [] ->
  Sequential._update_state env = (Ok tt, set_scheduling_result 0 0%Q env).
Proof.
  intros H. unfold Sequential._update_state.
  rewrite (bind_ok _ _ env env ([] : GateSchedulingList)) by (unfold call; by rewrite H).
  done.
Qed.

(** C4 (counterexample). After [reset] on the circuit cx(q0, q2); cx(q0, q1);
    cx(q1, q3) and the device 0 - 1 - 3 - 2, the BRIDGE action 3 (pair (0, 3))
    has no candidate in the front layer, yet [step 3] returns the reward 1
    and commits cx(q1, q3): the DAG and the routed-gates log change. *)
Lemma invalid_bridge_counterexample : ~ invalid_bridge_is_noop lookahead_state 3.
Proof.
  intros H.
  destruct (H eq_refl ltac:(vm_compute; lia) (0, 3) eq_refl eq_refl)
    as ((obs & t & Hr) & _ & Hdag & _).
  vm_compute in Hdag. discriminate Hdag.
Qed.

Lemma invalid_bridge_counterexample_values :
  terminated (seq_base lookahead_state) = false /\
  _bridge_args (seq_base lookahead_state) (0, 3) = Ok None /\
  (Sequential.step 3 lookahead_state).1 =
    Ok ([true; false; true; false; false], 1%Q, false, false) /\
  dag (seq_base lookahead_state) = [cx 0 0 2; cx 2 1 3] /\
  dag (seq_base (Sequential.step 3 lookahead_state).2) = [cx 0 0 2] /\
  routed_gates (seq_base lookahead_state) = [(CXGate, [0; 1])] /\
  routed_gates (seq_base (Sequential.step 3 lookahead_state).2) =
    [(CXGate, [0; 1]); (CXGate, [1; 3])].
Proof. vm_compute. repeat split. Qed.

(** C4 (amended). In the sequential variant, in a non-terminated state, a
    BRIDGE action whose pair has no front-layer candidate earns no action
    reward and prints the diagnostic, but the step still commits whatever is
    schedulable: the state after the step is the state after
    [_update_state], with the blocked SWAP cleared, and the reward is the
    scheduling reward of that commit.  The mapping arrays are never changed.
    When no gate is schedulable in the state, the DAG, the routed-gates log and
    the routed set are unchanged as well and the reward is exactly zero. *)
Theorem invalid_bridge_only_commits (env : SequentialRoutingEnv) (action : nat) (pair : nat * nat) :
  terminated (seq_base env) = false ->
  num_edges (seq_base env) <= action ->
  bridge_pairs (config (seq_base env)) !! (action - num_edges (seq_base env)) = Some pair ->
  _bridge_args (seq_base env) pair = Ok None ->
  let r := Sequential.step action env in
  let commit := Sequential._update_state (seq_base env) in
  arrays_of (seq_base r.2) = arrays_of (seq_base env) /\
  seq_base r.2 = commit.2 /\
  seq_stdout r.2 = seq_stdout env ++ ["Invalid BRIDGE action was selected"%string] /\
  (commit.1 = Ok tt ->
   _blocked_swap r.2 = None /\
   r.1 = omap_outcome
           (fun obs => (obs, (0 + _scheduling_reward commit.2)%Q, terminated commit.2, false))
           (Sequential.action_mask r.2)) /\
  (_schedulable_gates (seq_base env) false = Ok [] ->
   dag (seq_base r.2) = dag (seq_base env) /\
   routed_gates (seq_base r.2) = routed_gates (seq_base env) /\
   routed_op_nodes (seq_base r.2) = routed_op_nodes (seq_base env) /\
   r.1 = omap_outcome (fun obs => (obs, 0%Q, false, false)) (Sequential.action_mask r.2)).
Proof.
  intros Hterm Hge Hpair Hargs r commit.
  set (env1 := {| seq_base := seq_base env;
                  restrict_swaps_to_front_layer := restrict_swaps_to_front_layer env;
                  _blocked_swap := _blocked_swap env;
                  seq_stdout := seq_stdout env ++ ["Invalid BRIDGE action was selected"%string] |}).
  set (env3 := set_blocked_swap None (seq_set_base commit.2 env1)).
  assert (Hr : r =
    match commit.1 with
    | Ok _ =>
        (omap_outcome
           (fun obs => (obs, (0 + _scheduling_reward commit.2)%Q, terminated commit.2, false))
           (Sequential.action_mask env3), env3)
    | Raise e => (Raise e, seq_set_base commit.2 env1)
    end).
  { unfold r, Sequential.step. rewrite bind_gets. cbv beta. rewrite Hterm, bind_gets. cbv beta.
    rewrite bool_decide_eq_false_2 by lia.
    erewrite (bind_ok _ _ env env1 0%Q); cycle 1.
    { rewrite (bind_ok _ _ env env pair) by (unfold call, getitem; by rewrite Hpair).
      rewrite (bind_ok _ _ env env None) by (unfold call; by rewrite Hargs).
      done. }
    unfold bind at 1. rewrite seq_super_run. fold commit. change (seq_base env1) with (seq_base env).
    fold commit. destruct commit.1 as [[]|e]; [|done].
    rewrite !bind_gets. cbv beta. simpl andb.
    erewrite bind_ok by reflexivity. fold env3.
    unfold Sequential.current_obs, bind, call.
    destruct (Sequential.action_mask env3); done. }
  assert (Hbase : seq_base r.2 = commit.2).
  { rewrite Hr. by destruct commit.1. }
  split.
  { rewrite Hbase. apply arrays_of_mapping. apply seq_update_state_mapping. }
  split; [done|]. split.
  { rewrite Hr. by destruct commit.1. }
  split.
  { intros Hok. rewrite Hr, Hok. done. }
  intros Hnone. unfold commit in *.
  rewrite (seq_update_state_nothing _ Hnone) in Hr, Hbase. simpl in Hr.
  rewrite Hbase. simpl. repeat split; try done.
  rewrite Hr. cbn [fst snd].
  change (terminated (set_scheduling_result 0 0 (seq_base env))) with (terminated (seq_base env)).
  by rewrite Hterm.
Qed.

(** ** C10: the layered step has no guard *)

Lemma _swap_routed_gates (edge : nat * nat) (env : RoutingEnv) :
  routed_gates (_swap edge env).2 = routed_gates env ++ [(SwapGate, [edge.1; edge.2])].
Proof.
  unfold _swap. rewrite (preserves_after routed_gates) by (intros ?; frame). done.
Qed.

Lemma lay_step_bridge_raises (env : LayeredRoutingEnv) (action : nat) (pair : nat * nat) :
  num_edges (lay_base env) <= action ->
  bridge_pairs (config (lay_base env)) !! (action - num_edges (lay_base env)) = Some pair ->
  _bridge_args (lay_base env) pair = Ok None ->
  Layered.step action env = (Raise TypeError, env).
Proof.
  intros Hge Hpair Hargs. unfold Layered.step. rewrite !bind_gets. cbv beta.
  apply lookup_lt_Some in Hpair as Hlt.
  rewrite decide_False by lia. rewrite decide_True by lia.
  apply bind_raise.
  rewrite (bind_ok _ _ env env pair) by (unfold call, getitem; by rewrite Hpair).
  rewrite (bind_ok _ _ env env None) by (unfold call; by rewrite Hargs).
  done.
Qed.

(** C10. The layered [step] has no guard.  A BRIDGE action whose pair has no
    front-layer candidate raises (unpacking [None]) and leaves the state as it
    was, where the sequential variant returns with the diagnostic; in a
    terminated state this is every BRIDGE action.  A SWAP action is carried
    out in every state, terminated or not: the SWAP is logged and the mapping
    goes through [_swap]. *)
Theorem layered_step_unguarded (env : LayeredRoutingEnv) (action : nat) :
  (forall pair,
     num_edges (lay_base env) <= action ->
     bridge_pairs (config (lay_base env)) !! (action - num_edges (lay_base env)) = Some pair ->
     _bridge_args (lay_base env) pair = Ok None ->
     Layered.step action env = (Raise TypeError, env)) /\
  (terminated (lay_base env) = true ->
   num_edges (lay_base env) <= action <
     num_edges (lay_base env) + length (bridge_pairs (config (lay_base env))) ->
   Layered.step action env = (Raise TypeError, env)) /\
  (forall edge,
     edge_list (lay_base env) !! action = Some edge ->
     lay_base (Layered.step action env).2 = (_swap edge (lay_base env)).2 /\
     routed_gates (lay_base (Layered.step action env).2) =
       routed_gates (lay_base env) ++ [(SwapGate, [edge.1; edge.2])]).
Proof.
  split; [intros pair; apply lay_step_bridge_raises|]. split.
  - intros Hterm [Hge Hlt].
    destruct (lookup_lt_is_Some_2 (bridge_pairs (config (lay_base env)))
                (action - num_edges (lay_base env))) as [pair Hpair]; [lia|].
    apply (lay_step_bridge_raises env action pair); [done|done|].
    apply _bridge_args_empty. by apply terminated_dag.
  - intros edge Hedge. apply lookup_lt_Some in Hedge as Hlt. fold (num_edges (lay_base env)) in Hlt.
    assert (Hstate : lay_base (Layered.step action env).2 = (_swap edge (lay_base env)).2).
    { unfold Layered.step. rewrite !bind_gets. cbv beta.
      rewrite decide_True by done. unfold Layered.current_obs.
      rewrite (preserves_after lay_base) by (intros ?; frame).
      rewrite (bind_ok _ _ env env edge) by (unfold call, getitem; by rewrite Hedge).
      rewrite (preserves_after lay_base) by (intros ?; frame).
      unfold Layered._swap.
      rewrite (preserves_after lay_base) by (intros ?; frame).
      done. }
    split; [done|]. rewrite Hstate. apply _swap_routed_gates.
Qed.

(** ** C9: the reward functions *)

Lemma sum_gate_rewards_unaware (env : RoutingEnv) (gates : GateSchedulingList) :
  noise_config (config env) = None ->
  forall acc, exists r,
    sum_gate_rewards env gates acc = Ok r /\ (r == acc + two_qubit_count gates)%Q.
Proof.
  intros Hnc. unfold two_qubit_count.
  induction gates as [|[o nodes] gates IH]; intros acc.
  - exists acc. split; [done|]. simpl. ring.
  - cbn [sum_gate_rewards].
    destruct (decide (length nodes = 2)) as [H2|H2].
    + unfold _gate_reward. rewrite Hnc. cbn [obind].
      destruct (IH (acc + 1)%Q) as (r & Hr & Heq). exists r. split; [done|].
      rewrite filter_cons_True by done.
      rewrite Heq. cbn [length]. rewrite Nat2Z.inj_succ, <- Z.add_1_l, inject_Z_plus. ring.
    + destruct (IH acc) as (r & Hr & Heq). exists r. split; [done|].
      by rewrite filter_cons_False by done.
Qed.

(** C9. Without a noise configuration the reward of a committed two-qubit
    gate is exactly +1 (so a commit earns the number of its two-qubit gates),
    the SWAP reward exactly -3 and the BRIDGE reward exactly -2.  With a noise
    configuration the gate reward is the log reliability of the edge plus the
    added-gate constant, the SWAP reward is 3 times the log reliability of the
    swapped edge, and the BRIDGE reward is 2 times the sum of the log
    reliabilities of the edges (middle, target) and (control, middle) plus the
    added-gate constant. *)
Theorem reward_formulas (env : RoutingEnv) :
  (noise_config (config env) = None ->
   (forall edge, _gate_reward env edge = Ok 1%Q) /\
   (forall edge, _swap_reward env edge = Ok (-3)%Q) /\
   (forall control middle target, _bridge_reward env control middle target = Ok (-2)%Q) /\
   (forall gates, exists r,
      sum_gate_rewards env gates 0%Q = Ok r /\ (r == two_qubit_count gates)%Q)) /\
  (forall nc, noise_config (config env) = Some nc ->
   (forall edge r,
      edge_to_log_reliability env !! edge = Some r ->
      _gate_reward env edge = Ok (r + added_gate_reward nc)%Q /\
      _swap_reward env edge = Ok (3 * r)%Q) /\
   (forall control middle target r1 r2,
      edge_to_log_reliability env !! (middle, target) = Some r1 ->
      edge_to_log_reliability env !! (control, middle) = Some r2 ->
      _bridge_reward env control middle target = Ok (2 * (r1 + r2) + added_gate_reward nc)%Q)).
Proof.
  split.
  - intros Hnc. unfold _gate_reward, _swap_reward, _bridge_reward. rewrite Hnc.
    repeat split; try done.
    intros gates. destruct (sum_gate_rewards_unaware env gates Hnc 0%Q) as (r & Hr & Heq).
    exists r. split; [done|]. rewrite Heq. ring.
  - intros nc Hnc. unfold _gate_reward, _swap_reward, _bridge_reward, log_reliability_of.
    rewrite Hnc. split.
    + intros edge r Hr. by rewrite Hr.
    + intros c m t r1 r2 H1 H2. by rewrite H1, H2.
Qed.

(** ** C6: the shape of the error rates *)

(** The constructor rejects an error-rate array whose shape is not the
    number of edges (when the initial mapping has not been rejected first),
    and so do the constructors of the two variants. *)
Lemma __init___rejects_error_rates (a : InitArgs) (rates : list Q) :
  arg_error_rates a = Some rates ->
  length rates ≠ length (graph_edge_list (arg_coupling_map a)) ->
  (exists msg, __init__ a = Raise (ValueError msg)) /\
  (forall restrict, exists msg, Sequential.__init__ a restrict = Raise (ValueError msg)) /\
  (forall decomposed, exists msg, Layered.__init__ a decomposed = Raise (ValueError msg)).
Proof.
  intros Hrates Hlen.
  assert (H : exists msg, __init__ a = Raise (ValueError msg)).
  { unfold __init__. rewrite Hrates. simpl. case_decide; [eauto|]. case_decide; [eauto|done]. }
  destruct H as [msg H]. split; [eauto|].
  unfold Sequential.__init__, Layered.__init__. rewrite H. split; intros; eauto.
Qed.

(** [calibrate] never raises and stores whatever array it is given. *)
Lemma calibrate_never_rejects (rates : list Q) (env : RoutingEnv) :
  (calibrate rates env).1 = Ok tt /\ error_rates (calibrate rates env).2 = rates.
Proof.
  unfold calibrate, modify, calibrate_env. simpl. by destruct (noise_config (config env)).
Qed.

(** C6 (the code against the specification).  On the device 0 - 1 - 2 (two edges) the
    constructor rejects the error-rate array [0.5] of shape (1,), but
    [calibrate] accepts the same array on an existing environment: it returns,
    stores the array, and leaves the edge (1, 2) without a log reliability, so
    that the next SWAP reward on that edge raises [KeyError]. *)
Lemma calibrate_accepts_mismatched_rates :
  (exists msg, __init__ short_rates_args = Raise (ValueError msg)) /\
  num_edges line3_env = 2 /\
  (calibrate [1 # 2] line3_env).1 = Ok tt /\
  error_rates (calibrate [1 # 2] line3_env).2 = [1 # 2] /\
  edge_to_log_reliability (calibrate [1 # 2] line3_env).2 !! (1, 2) = None /\
  _swap_reward line3_env (1, 2) = Ok (3 * - (2 # 10))%Q /\
  _swap_reward (calibrate [1 # 2] line3_env).2 (1, 2) = Raise KeyError.
Proof.
  split; [eexists; vm_compute; reflexivity|]. vm_compute. repeat split.
Qed.

(** ** C8: the bridge-candidate lookup *)


Lemma merge_sort_pair (nodes : list nat) (a b : nat) :
  merge_sort Nat.le nodes = [a; b] -> exists control target, nodes = [control; target].
Proof.
  intros H. pose proof (merge_sort_Permutation Nat.le nodes) as Hp.
  rewrite H in Hp. apply Permutation_length in Hp.
  destruct nodes as [|c [|t [|]]]; try done. eauto.
Qed.

(** What the loop over a layer returns, when the nodes of its CX gates can be
    read. *)
Lemma bridge_args_in_spec (env : RoutingEnv) (pair : nat * nat) (layer : list DAGOpNode) :
  (forall op_node, op_node ∈ layer -> op op_node = CXGate ->
     exists nodes, mapped_nodes env (qargs op_node) = Ok nodes) ->
  (exists op_node control target,
     bridge_args_in env pair layer = Ok (Some (op_node, shortest_paths env control target)) /\
     op_node ∈ layer /\ op op_node = CXGate /\
     mapped_nodes env (qargs op_node) = Ok [control; target] /\
     merge_sort Nat.le [control; target] = [pair.1; pair.2]) \/
  (bridge_args_in env pair layer = Ok None /\
   forall op_node nodes, op_node ∈ layer -> op op_node = CXGate ->
     mapped_nodes env (qargs op_node) = Ok nodes ->
     merge_sort Nat.le nodes ≠ [pair.1; pair.2]).
Proof.
  induction layer as [|o layer IH]; intros Hread.
  - right. split; [done|]. intros ? ? H. by apply elem_of_nil in H.
  - assert (Htail : forall op_node, op_node ∈ layer -> op op_node = CXGate ->
              exists nodes, mapped_nodes env (qargs op_node) = Ok nodes).
    { intros ? ?. apply Hread. by right. }
    specialize (IH Htail). cbn [bridge_args_in].
    destruct (op o) eqn:Hop; cbn [is_CXGate];
      try (destruct IH as [(o' & c & t & Hr & Hin & Hrest)|[Hr Hno]];
           [ left; exists o', c, t; split; [done|]; split; [by right|done]
           | right; split; [done|]; intros o' ns Hin Hcx;
             apply elem_of_cons in Hin as [->|Hin]; [congruence|by apply Hno] ]).
    destruct (Hread o) as [nodes Hnodes]; [by left|done|]. rewrite Hnodes. cbn [obind].
    destruct (decide (merge_sort Nat.le nodes = [pair.1; pair.2])) as [Hsort|Hsort].
    + destruct (merge_sort_pair _ _ _ Hsort) as (c & t & ->).
      left. exists o, c, t. split; [done|]. split; [by left|done].
    + destruct IH as [(o' & c & t & Hr & Hin & Hrest)|[Hr Hno]].
      * left. exists o', c, t. split; [done|]. split; [by right|done].
      * right. split; [done|]. intros o' ns Hin Hcx Hns.
        apply elem_of_cons in Hin as [->|Hin]; [congruence|by eapply Hno].
Qed.


(** ** C2: one scheduling pass *)

(** C2 (counterexample). On the two-node device, one pass over cx(q0, q1);
    cx(q0, q1) schedules both operations: the second one uses the nodes 0 and
    1 of the first, which the first did not claim. *)
Lemma pass_counterexample : ~ pass_claims_scheduled_nodes twice_env.
Proof.
  intros H.
  apply (H [(cx 0 0 1, [0; 1]); (cx 1 0 1, [0; 1])] eq_refl
           [(cx 0 0 1, [0; 1])] (cx 1 0 1, [0; 1]) [] eq_refl 0).
  - left.
  - left.
Qed.

Lemma _is_schedulable_iff (env : RoutingEnv) (nodes : list nat) (locked : gset nat) :
  _is_schedulable env nodes locked = true <->
  (length nodes ≠ 2 \/
   exists a b, nodes = [a; b] /\ has_edge (coupling_map (config env)) a b = true) /\
  (forall n, n ∈ nodes -> n ∉ locked).
Proof.
  unfold _is_schedulable. rewrite andb_true_iff, forallb_forall.
  assert (Hvalid :
    match nodes with
    | [a; b] => has_edge (coupling_map (config env)) a b
    | _ => true
    end = true <->
    (length nodes ≠ 2 \/
     exists a b, nodes = [a; b] /\ has_edge (coupling_map (config env)) a b = true)).
  { destruct nodes as [|a [|b [|c l]]]; simpl; try (split; [by left|done]).
    split.
    - intros H. right. by exists a, b.
    - intros [H|(a' & b' & [= <- <-] & H)]; done. }
  assert (Hfree :
    (forall x, In x nodes -> negb (bool_decide (x ∈ locked)) = true) <->
    (forall n, n ∈ nodes -> n ∉ locked)).
  { split.
    - intros H n Hn. apply list_elem_of_In in Hn. apply H in Hn.
      apply negb_true_iff, bool_decide_eq_false in Hn. done.
    - intros H n Hn. apply list_elem_of_In in Hn.
      apply negb_true_iff, bool_decide_eq_false. by apply H. }
  tauto.
Qed.

Lemma _is_schedulable_antitone (env : RoutingEnv) (nodes : list nat) (l1 l2 : gset nat) :
  l1 ⊆ l2 -> _is_schedulable env nodes l2 = true -> _is_schedulable env nodes l1 = true.
Proof.
  intros Hsub. rewrite !_is_schedulable_iff. intros [Hv Hl]. split; [done|].
  intros n Hn Hin. apply (Hl n Hn). by apply Hsub.
Qed.

Lemma elem_of_ordered_add {A} `{EqDecision A} (x y : A) (l : list A) :
  x ∈ ordered_add y l <-> x = y \/ x ∈ l.
Proof.
  unfold ordered_add. case_decide.
  - split; [by right|]. intros [->|H']; done.
  - rewrite elem_of_app, list_elem_of_singleton. tauto.
Qed.

Lemma schedule_commuting_spec (env : RoutingEnv) (locked : gset nat) (candidates : list DAGOpNode) :
  forall gates gates',
    schedule_commuting env locked candidates gates = Ok gates' ->
    forall g, g ∈ gates' -> g ∈ gates \/ passed_rule env locked g.
Proof.
  induction candidates as [|c rest IH]; intros gates gates' Hrun g Hg.
  - injection Hrun as <-. by left.
  - cbn [schedule_commuting] in Hrun.
    destruct (mapped_nodes env (qargs c)) as [ns|] eqn:Hns; [|done]. cbn [obind] in Hrun.
    destruct (IH _ _ Hrun g Hg) as [Hin|Hp]; [|by right].
    destruct (_is_schedulable env ns locked) eqn:Hs; [|by left].
    apply elem_of_ordered_add in Hin as [->|Hin]; [|by left].
    right. by split.
Qed.

Lemma commutation_lookahead_spec (env : RoutingEnv) (op_node : DAGOpNode) (locked : gset nat)
    (free_qargs : list nat) :
  forall gates gates',
    commutation_lookahead env op_node locked free_qargs gates = Ok gates' ->
    forall g, g ∈ gates' -> g ∈ gates \/ passed_rule env locked g.
Proof.
  induction free_qargs as [|q rest IH]; intros gates gates' Hrun g Hg.
  - injection Hrun as <-. by left.
  - cbn [commutation_lookahead] in Hrun.
    destruct (commuting_op_nodes env op_node q) as [cands|]; [|done]. cbn [obind] in Hrun.
    destruct (schedule_commuting env locked cands gates) as [gates1|] eqn:H1; [|done].
    cbn [obind] in Hrun.
    destruct (IH _ _ Hrun g Hg) as [Hin|Hp]; [|by right].
    by apply (schedule_commuting_spec env locked cands gates gates1).
Qed.

Lemma visit_op_node_spec (env : RoutingEnv) (gates : list (DAGOpNode * list nat))
    (locked : gset nat) (op_node : DAGOpNode) (nodes : list nat)
    (gates' : list (DAGOpNode * list nat)) (locked' : gset nat) :
  mapped_nodes env (qargs op_node) = Ok nodes ->
  visit_op_node env (gates, locked) op_node = Ok (gates', locked') ->
  if _is_schedulable env nodes locked
  then gates' = ordered_add (op_node, nodes) gates /\ locked' = locked
  else locked' = locked ∪ list_to_set nodes /\
       forall g, g ∈ gates' -> g ∈ gates \/ passed_rule env locked g.
Proof.
  intros Hnodes. unfold visit_op_node. rewrite Hnodes. cbn [obind fst snd].
  destruct (_is_schedulable env nodes locked); [by intros [= <- <-]|].
  destruct (commutation_analysis (config env)).
  - destruct (commutation_lookahead _ _ _ _ _) as [gates1|] eqn:H1; [|done].
    cbn [obind]. intros [= <- <-]. split; [done|].
    by apply (commutation_lookahead_spec _ _ _ _ _ _ H1).
  - cbn [obind]. intros [= <- <-]. split; [done|]. intros g Hg. by left.
Qed.

Lemma schedulable_loop_spec (env : RoutingEnv) (op_nodes : list DAGOpNode) :
  forall gates locked gates' locked',
    schedulable_loop env op_nodes (gates, locked) = Ok (gates', locked') ->
    locked ⊆ locked' /\
    forall g, g ∈ gates' -> g ∈ gates \/ passed_rule env locked g.
Proof.
  induction op_nodes as [|o rest IH]; intros gates locked gates' locked' Hrun.
  - cbn [schedulable_loop] in Hrun. simplify_eq. split; [done|]. intros g Hg. by left.
  - cbn [schedulable_loop] in Hrun.
    destruct (visit_op_node env (gates, locked) o) as [[gates1 locked1]|] eqn:Hvisit; [|done].
    cbn [obind snd] in Hrun.
    assert (Hstep : locked ⊆ locked1 /\
              forall g, g ∈ gates1 -> g ∈ gates \/ passed_rule env locked g).
    { unfold visit_op_node in Hvisit.
      destruct (mapped_nodes env (qargs o)) as [ns|] eqn:Hns; [|done].
      pose proof (visit_op_node_spec env gates locked o ns gates1 locked1 Hns) as Hspec.
      unfold visit_op_node in Hspec. rewrite Hns in Hspec. specialize (Hspec Hvisit).
      destruct (_is_schedulable env ns locked) eqn:Hs.
      - destruct Hspec as [-> ->]. split; [done|]. intros g Hg.
        apply elem_of_ordered_add in Hg as [->|Hg]; [right; by split|by left].
      - destruct Hspec as [-> Hg]. split; [apply union_subseteq_l|done]. }
    destruct Hstep as [Hsub Hgates].
    destruct (decide (size locked1 = num_qubits env)).
    + by simplify_eq.
    + destruct (IH _ _ _ _ Hrun) as [Hsub' Hgates']. split; [by etrans|].
      intros g Hg. destruct (Hgates' g Hg) as [Hin|[Hm Hp]]; [by apply Hgates|].
      right. split; [done|]. by apply (_is_schedulable_antitone env _ locked locked1).
Qed.

(** C2 (amended). The rule of a pass: an operation is schedulable iff its
    node tuple does not have exactly two entries or its two nodes are joined by
    an edge of the device, and none of its nodes is locked.  Nodes are locked
    by the operations the pass finds NOT schedulable when it visits them: such
    an operation locks all its nodes (after the commutation lookahead, whose
    candidates pass the same rule), while a schedulable operation is added to
    the result and locks nothing.  Locks only grow, so every operation that
    enters the result later in the pass, directly or through the lookahead,
    has its nodes off every node locked so far; the result of a pass holds
    only operations that pass the rule under the current mapping. *)
Theorem pass_locks_blocked_nodes (env : RoutingEnv) :
  (forall nodes locked,
     _is_schedulable env nodes locked = true <->
     (length nodes ≠ 2 \/
      exists a b, nodes = [a; b] /\ has_edge (coupling_map (config env)) a b = true) /\
     (forall n, n ∈ nodes -> n ∉ locked)) /\
  (forall gates locked op_node nodes gates' locked',
     mapped_nodes env (qargs op_node) = Ok nodes ->
     visit_op_node env (gates, locked) op_node = Ok (gates', locked') ->
     if _is_schedulable env nodes locked
     then gates' = ordered_add (op_node, nodes) gates /\ locked' = locked
     else locked' = locked ∪ list_to_set nodes /\
          forall g, g ∈ gates' -> g ∈ gates \/ passed_rule env locked g) /\
  (forall op_nodes gates locked gates' locked',
     schedulable_loop env op_nodes (gates, locked) = Ok (gates', locked') ->
     locked ⊆ locked' /\
     forall g, g ∈ gates' -> g ∈ gates \/ passed_rule env locked g) /\
  (forall only_front_layer gates,
     _schedulable_gates env only_front_layer = Ok gates ->
     forall g, g ∈ gates -> passed_rule env ∅ g).
Proof.
  split; [apply _is_schedulable_iff|].
  split; [apply visit_op_node_spec|].
  split; [intros op_nodes; apply schedulable_loop_spec|].
  intros only_front_layer gates. unfold _schedulable_gates.
  destruct (schedulable_loop env _ _) as [[gates' locked']|] eqn:Hloop; [|done].
  cbn [obind fst]. intros [= <-] g Hg.
  destruct (schedulable_loop_spec _ _ _ _ _ _ Hloop) as [_ H].
  destruct (H g Hg) as [Hin|Hp]; [|done]. by apply elem_of_nil in Hin.
Qed.

(** ** C3: [copy()] *)

(** The copy gets fresh objects for [node_to_qubit], [qubit_to_node], [dag]
    and [routed_gates], and the very object of the original for
    [routed_op_nodes]. *)
Lemma copy_refs_shares_routed_op_nodes (r : Refs) (h : list object) :
  match copy_refs r h with
  | Some (r', h') =>
      ref_node_to_qubit r' = length h /\
      ref_qubit_to_node r' = length h + 1 /\
      ref_dag r' = length h + 2 /\
      ref_routed_gates r' = length h + 3 /\
      ref_routed_op_nodes r' = ref_routed_op_nodes r
  | None => True
  end.
Proof.
  unfold copy_refs, alloc.
  destruct (h !! ref_node_to_qubit r), (h !! ref_qubit_to_node r), (h !! ref_dag r),
    (h !! ref_routed_gates r); try done.
  simpl. rewrite !length_app. simpl. repeat split; lia.
Qed.

(** The collections [copy()] does copy are out of reach of the copy: an
    in-place method run on the copy leaves the mapping arrays, the DAG and
    the routed-gates log of the original as they were. *)
Lemma copy_isolates_copied_collections {A} (m : M SequentialRoutingEnv A)
    (i i' i'' : SequentialInstance) (h h' h'' : list object) (o : outcome A)
    (env : SequentialRoutingEnv) :
  ref_routed_op_nodes (seq_refs i) ≠ ref_node_to_qubit (seq_refs i) ->
  ref_routed_op_nodes (seq_refs i) ≠ ref_qubit_to_node (seq_refs i) ->
  ref_routed_op_nodes (seq_refs i) ≠ ref_dag (seq_refs i) ->
  ref_routed_op_nodes (seq_refs i) ≠ ref_routed_gates (seq_refs i) ->
  SequentialObject.load h i = Some env ->
  SequentialObject.copy i h = Some (i', h') ->
  SequentialObject.run m i' h' = Some (o, i'', h'') ->
  exists env',
    SequentialObject.load h'' i = Some env' /\
    arrays_of (seq_base env') = arrays_of (seq_base env) /\
    dag (seq_base env') = dag (seq_base env) /\
    routed_gates (seq_base env') = routed_gates (seq_base env).
Proof.
  intros Hn Hq Hd Hl Hload Hcopy Hrun.
  unfold SequentialObject.load, load_base in Hload.
  destruct (h !! ref_node_to_qubit (seq_refs i)) as [[n2q| | | |]|] eqn:E1; try done.
  destruct (h !! ref_qubit_to_node (seq_refs i)) as [[q2n| | | |]|] eqn:E2; try done.
  destruct (h !! ref_dag (seq_refs i)) as [[|d| | |]|] eqn:E3; try done.
  destruct (h !! ref_routed_gates (seq_refs i)) as [[| |l| |]|] eqn:E4; try done.
  destruct (h !! ref_routed_op_nodes (seq_refs i)) as [[| | |s|]|] eqn:E5; try done.
  injection Hload as <-.
  unfold SequentialObject.copy, copy_refs, alloc in Hcopy.
  rewrite E1, E2, E3, E4 in Hcopy. cbn [fst snd] in Hcopy. injection Hcopy as <- <-.
  unfold SequentialObject.run in Hrun.
  destruct (SequentialObject.load _ _) as [envc|]; [|done].
  injection Hrun as _ _ <-. cbn [seq_refs].
  set (b := seq_base (m envc).2).
  assert (Hkeep : forall a x, h !! a = Some x -> a ≠ ref_routed_op_nodes (seq_refs i) ->
            store_base
              {| ref_node_to_qubit := length h;
                 ref_qubit_to_node := length (h ++ [ArrayObj n2q]);
                 ref_dag := length ((h ++ [ArrayObj n2q]) ++ [ArrayObj q2n]);
                 ref_routed_gates :=
                   length (((h ++ [ArrayObj n2q]) ++ [ArrayObj q2n]) ++ [DagObj d]);
                 ref_routed_op_nodes := ref_routed_op_nodes (seq_refs i) |} b
              ((((h ++ [ArrayObj n2q]) ++ [ArrayObj q2n]) ++ [DagObj d]) ++ [ListObj l])
              !! a = Some x).
  { intros a x Ha Hne. apply lookup_lt_Some in Ha as Hlt.
    unfold store_base. cbn [ref_node_to_qubit ref_qubit_to_node ref_dag ref_routed_gates
                             ref_routed_op_nodes].
    rewrite !length_app. cbn [length].
    rewrite !list_lookup_insert_ne by lia.
    rewrite !lookup_app_l by (rewrite ?length_app; cbn [length]; lia). done. }
  assert (Hset : store_base
              {| ref_node_to_qubit := length h;
                 ref_qubit_to_node := length (h ++ [ArrayObj n2q]);
                 ref_dag := length ((h ++ [ArrayObj n2q]) ++ [ArrayObj q2n]);
                 ref_routed_gates :=
                   length (((h ++ [ArrayObj n2q]) ++ [ArrayObj q2n]) ++ [DagObj d]);
                 ref_routed_op_nodes := ref_routed_op_nodes (seq_refs i) |} b
              ((((h ++ [ArrayObj n2q]) ++ [ArrayObj q2n]) ++ [DagObj d]) ++ [ListObj l])
              !! ref_routed_op_nodes (seq_refs i) = Some (SetObj (routed_op_nodes b))).
  { apply lookup_lt_Some in E5 as Hlt. unfold store_base.
    cbn [ref_node_to_qubit ref_qubit_to_node ref_dag ref_routed_gates ref_routed_op_nodes].
    rewrite list_lookup_insert_eq; [done|].
    rewrite !length_insert, !length_app. lia. }
  unfold SequentialObject.load, load_base.
  rewrite (Hkeep _ _ E1), (Hkeep _ _ E2), (Hkeep _ _ E3), (Hkeep _ _ E4), Hset by done.
  eexists. split; [reflexivity|]. done.
Qed.

(** C3 (the code against the specification).  An environment with a blocked
    cx(q0, q2) is copied and the copy is stepped with the SWAP action 0, which
    commits the gate in the copy.  The mapping arrays, the DAG and the
    routed-gates log of the original are as before, but its routed-operations
    set, empty before, now holds the operation the copy routed: the set is
    shared, not copied. *)
Lemma copy_step_contaminates_original :
  let original := original_instance.1 in
  (seq_base <$> SequentialObject.load heap_after_copy original) =
    (seq_base <$> SequentialObject.load original_instance.2 original) /\
  (routed_op_nodes ∘ seq_base <$> SequentialObject.load heap_after_copy original) = Some ∅ /\
  (routed_op_nodes ∘ seq_base <$> SequentialObject.load heap_after_step_on_copy original)
    = Some {[0]} /\
  (dag ∘ seq_base <$> SequentialObject.load heap_after_step_on_copy original)
    = Some [cx 0 0 2] /\
  (arrays_of ∘ seq_base <$> SequentialObject.load heap_after_step_on_copy original)
    = Some ([0; 1; 2], [0; 1; 2]) /\
  (routed_gates ∘ seq_base <$> SequentialObject.load heap_after_step_on_copy original)
    = Some [].
Proof. vm_compute. repeat split. Qed.

(** ** The theorems at concrete environments *)

(** ** The theorems at concrete environments *)




(** The initial mapping [1; 0; 2] of [line3_args] is a permutation of the nodes. *)
Lemma line3_args_permutation (m : list nat) :
  arg_initial_mapping line3_args = Some m -> m ≡ₚ seq 0 (num_nodes (arg_coupling_map line3_args)).
Proof. intros [= <-]. apply perm_swap. Qed.

(** [line3_done] is reached by construction, [reset] and one step. *)
Lemma line3_done_reachable : seq_reachable line3_args true line3_done.
Proof. apply seq_reach_step, seq_reach_reset, seq_reach_init. reflexivity. Qed.


(** C5 at the terminated state [line3_done], with an action outside the
    action space. *)
Lemma terminated_is_absorbing_witness :
  exists obs, Sequential.step 7 line3_done = (Ok (obs, 0%Q, true, false), line3_done).
Proof.
  apply (terminated_is_absorbing line3_args true line3_done 7).
  - apply line3_done_reachable.
  - reflexivity.
Defined.

(** C4 (amended) at [far_state], where nothing is schedulable: the invalid
    BRIDGE action 3 returns the reward 0 and changes neither the arrays, the
    DAG nor the log. *)
Lemma invalid_bridge_only_commits_witness :
  let r := Sequential.step 3 far_state in
  r.1 = Ok ([true; false; true; false; false], 0%Q, false, false) /\
  arrays_of (seq_base r.2) = arrays_of (seq_base far_state) /\
  dag (seq_base r.2) = dag (seq_base far_state) /\
  routed_gates (seq_base r.2) = routed_gates (seq_base far_state).
Proof.
  assert (Hterm : terminated (seq_base far_state) = false) by (vm_compute; reflexivity).
  assert (Hge : num_edges (seq_base far_state) <= 3) by (vm_compute; lia).
  assert (Hpair : bridge_pairs (config (seq_base far_state))
                    !! (3 - num_edges (seq_base far_state)) = Some (0, 3))
    by (vm_compute; reflexivity).
  assert (Hargs : _bridge_args (seq_base far_state) (0, 3) = Ok None)
    by (vm_compute; reflexivity).
  assert (Hgates : _schedulable_gates (seq_base far_state) false = Ok [])
    by (vm_compute; reflexivity).
  destruct (invalid_bridge_only_commits far_state 3 (0, 3) Hterm Hge Hpair Hargs)
    as (Harr & _ & _ & _ & Hnone).
  destruct (Hnone Hgates) as (Hdag & Hlog & _ & Hres).
  cbv zeta. split; [|exact (conj Harr (conj Hdag Hlog))].
  rewrite Hres. vm_compute. reflexivity.
Defined.

(** C10 at [far_layered]: the BRIDGE action 3 raises, the SWAP action 0 is
    logged. *)
Lemma layered_step_unguarded_witness :
  Layered.step 3 far_layered = (Raise TypeError, far_layered) /\
  routed_gates (lay_base (Layered.step 0 far_layered).2) = [(SwapGate, [0; 1])].
Proof.
  destruct (layered_step_unguarded far_layered 3) as (Hbridge & _ & _).
  destruct (layered_step_unguarded far_layered 0) as (_ & _ & Hswap).
  split.
  - apply (Hbridge (0, 3)); [vm_compute; lia|reflexivity|reflexivity].
  - destruct (Hswap (0, 1) eq_refl) as [_ Hlog]. rewrite Hlog. reflexivity.
Defined.

(** C9 at a noise-unaware and at a noise-aware environment. *)
Lemma reward_formulas_witness :
  _gate_reward (seq_base blocked_state) (1, 2) = Ok 1%Q /\
  _swap_reward (seq_base blocked_state) (0, 1) = Ok (-3)%Q /\
  _bridge_reward (seq_base blocked_state) 0 1 2 = Ok (-2)%Q /\
  _gate_reward line3_env (0, 1) = Ok (- (1 # 10) + (1 # 100))%Q /\
  _swap_reward line3_env (0, 1) = Ok (3 * - (1 # 10))%Q /\
  _bridge_reward line3_env 0 1 2 = Ok (2 * (- (2 # 10) + - (1 # 10)) + (1 # 100))%Q.
Proof.
  destruct (reward_formulas (seq_base blocked_state)) as [Hunaware _].
  destruct (Hunaware eq_refl) as (Hg & Hs & Hb & _).
  destruct (reward_formulas line3_env) as [_ Haware].
  destruct (Haware example_noise eq_refl) as [Hedge Hbridge].
  destruct (Hedge (0, 1) (- (1 # 10))%Q eq_refl) as [Hg' Hs'].
  split; [apply Hg|]. split; [apply Hs|]. split; [apply Hb|].
  split; [exact Hg'|]. split; [exact Hs'|].
  apply (Hbridge 0 1 2 (- (2 # 10))%Q (- (1 # 10))%Q); reflexivity.
Defined.


(** C2 (amended) at [lookahead_state]: the pass returns cx(q1, q3), which
    passes the rule, while cx(q0, q2) on the nodes 0 and 2 does not. *)
Lemma pass_locks_blocked_nodes_witness :
  passed_rule (seq_base lookahead_state) ∅ (cx 2 1 3, [1; 3]) /\
  _is_schedulable (seq_base lookahead_state) [0; 2] ∅ = false.
Proof.
  destruct (pass_locks_blocked_nodes (seq_base lookahead_state)) as (Hrule & _ & _ & Hpass).
  split.
  - apply (Hpass false [(cx 2 1 3, [1; 3])] eq_refl). left.
  - destruct (_is_schedulable (seq_base lookahead_state) [0; 2] ∅) eqn:Hs; [|done].
    apply Hrule in Hs as [[Hlen|(a & b & [= <- <-] & Hedge)] _].
    + by contradict Hlen.
    + vm_compute in Hedge. discriminate Hedge.
Defined.

(** * Further properties of the code *)

(** ** SchedulingMap *)

Ltac cons_cases :=
  try done; try (by subst);
  try (exfalso;
       match goal with
       | H : _ ∉ _ :: _ |- _ => apply H; apply elem_of_cons; first [by left | by right]
       end);
  try (match goal with
       | H : _ ∈ _ :: _ |- _ => apply elem_of_cons in H as [?|?]; done
       end).

Lemma SchedulingMap_setitem_lookup (k : nat) (v : Z) (m : gmap nat Z) (j : nat) :
  SchedulingMap_setitem k v m !! j =
    if decide (j = k) then (if decide (v = 0%Z) then None else Some v) else m !! j.
Proof.
  unfold SchedulingMap_setitem. destruct (decide (j = k)) as [->|Hne].
  - destruct (decide (v = 0%Z)); [apply lookup_delete_eq|apply lookup_insert_eq].
  - destruct (decide (v = 0%Z)); [by apply lookup_delete_ne|by apply lookup_insert_ne].
Qed.

Lemma lookup_update_all (keys : list nat) (m : gmap nat Z) (j : nat) :
  update_all keys m !! j = if decide (j ∈ keys) then Some 1%Z else m !! j.
Proof.
  unfold update_all. revert m. induction keys as [|k keys IH]; intros m.
  - cbn [foldl]. destruct (decide (j ∈ [])) as [Hin|_]; [|done]. by apply elem_of_nil in Hin.
  - cbn [foldl]. rewrite IH, SchedulingMap_setitem_lookup.
    destruct (decide (j ∈ keys)) as [Hin|Hnin];
      destruct (decide (j ∈ k :: keys)) as [Hin'|Hnin'];
      destruct (decide (j = k)) as [Hjk|Hne]; cons_cases.
Qed.

Lemma decrement_loop_lookup (keys : list nat) : forall (m : gmap nat Z) (j : nat),
  NoDup keys ->
  foldl (fun m' k =>
           match m' !! k with
           | Some v => SchedulingMap_setitem k (v - 1)%Z m'
           | None => m'
           end) m keys !! j =
    if decide (j ∈ keys)
    then m !! j ≫= (fun v => if decide (v - 1 = 0)%Z then None else Some (v - 1)%Z)
    else m !! j.
Proof.
  induction keys as [|k keys IH]; intros m j Hnd.
  - cbn [foldl]. destruct (decide (j ∈ [])) as [Hin|_]; [|done]. by apply elem_of_nil in Hin.
  - apply NoDup_cons in Hnd as [Hk Hnd]. cbn [foldl]. rewrite IH by done.
    assert (Hstep : forall i,
      match m !! k with
      | Some v => SchedulingMap_setitem k (v - 1)%Z m
      | None => m
      end !! i =
      if decide (i = k)
      then m !! k ≫= (fun v => if decide (v - 1 = 0)%Z then None else Some (v - 1)%Z)
      else m !! i).
    { intros i. destruct (m !! k) as [v|] eqn:Hv.
      - rewrite SchedulingMap_setitem_lookup. by destruct (decide (i = k)).
      - destruct (decide (i = k)) as [->|]; [by rewrite Hv|done]. }
    rewrite Hstep.
    destruct (decide (j ∈ keys)) as [Hin|Hnin];
      destruct (decide (j ∈ k :: keys)) as [Hin'|Hnin'];
      destruct (decide (j = k)) as [Hjk|Hne]; cons_cases.
Qed.

Lemma lookup_decrement (m : gmap nat Z) (j : nat) :
  decrement m !! j =
    m !! j ≫= (fun v => if decide (v - 1 = 0)%Z then None else Some (v - 1)%Z).
Proof.
  unfold decrement. rewrite decrement_loop_lookup by apply NoDup_elements.
  destruct (decide (j ∈ elements (dom m))) as [Hin|Hnin]; [done|].
  rewrite elem_of_elements, elem_of_dom in Hnin.
  destruct (m !! j) as [v|] eqn:Hv; [|done]. exfalso. apply Hnin. by exists v.
Qed.

(** X1. [update_all(keys)] locks every key with the duration one and leaves
    the other entries as they were. *)
Theorem update_all_lookup (keys : list nat) (m : gmap nat Z) (j : nat) :
  update_all keys m !! j = if decide (j ∈ keys) then Some 1%Z else m !! j.
Proof. apply lookup_update_all. Qed.

(** X2. [decrement()] takes one off every lock and drops the locks that
    reach zero; no entry is added. *)
Theorem decrement_lookup (m : gmap nat Z) (j : nat) :
  decrement m !! j =
    m !! j ≫= (fun v => if decide (v - 1 = 0)%Z then None else Some (v - 1)%Z).
Proof. apply lookup_decrement. Qed.

Lemma unit_locks_update_all (keys : list nat) (m : gmap nat Z) :
  unit_locks m -> unit_locks (update_all keys m).
Proof.
  intros Hm k v. rewrite lookup_update_all. case_decide; [congruence|apply Hm].
Qed.

Lemma unit_locks_decrement (m : gmap nat Z) : unit_locks m -> decrement m = ∅.
Proof.
  intros Hm. apply map_eq. intros j. rewrite lookup_decrement, lookup_empty.
  destruct (m !! j) as [v|] eqn:Hv; [|done]. rewrite (Hm _ _ Hv). done.
Qed.

(** ** The locks of the layered environment *)

Lemma lay_super_scheduling_map {A} (m : M RoutingEnv A) :
  preserves scheduling_map (Layered.super m).
Proof. by intros s. Qed.

Lemma unit_locks_empty : unit_locks ∅.
Proof. intros k v H. by rewrite lookup_empty in H. Qed.

Lemma maintains_unit_locks_super {A} (m : M RoutingEnv A) :
  maintains (fun s => unit_locks (scheduling_map s)) (Layered.super m).
Proof. intros s Hs. by rewrite lay_super_scheduling_map. Qed.

Lemma maintains_unit_locks_read {A} (m : M LayeredRoutingEnv A) :
  preserves scheduling_map m -> maintains (fun s => unit_locks (scheduling_map s)) m.
Proof. intros H s Hs. by rewrite H. Qed.

Lemma maintains_unit_locks_update_all (keys : LayeredRoutingEnv -> list nat) :
  maintains (fun s => unit_locks (scheduling_map s))
    (modify (fun env => set_scheduling_map (update_all (keys env) (scheduling_map env)) env)).
Proof. intros s Hs. by apply unit_locks_update_all. Qed.

Ltac maint_locks :=
  repeat first
    [ assumption
    | apply maintains_unit_locks_super
    | apply (maintains_unit_locks_update_all (fun _ => _))
    | apply maintains_unit_locks_read; solve [unfold Layered.current_obs; frame]
    | apply maintains_bind; [|intros ?]
    | match goal with
      | |- maintains _ (match ?x with _ => _ end) => destruct x
      end ].

Lemma lay_update_state_unit_locks :
  maintains (fun s => unit_locks (scheduling_map s)) Layered._update_state.
Proof.
  unfold Layered._update_state, Layered._schedule_gates.
  apply maintains_bind.
  { intros s Hs. simpl. rewrite (unit_locks_decrement _ Hs). apply unit_locks_empty. }
  intros _. maint_locks.
Qed.

Lemma lay_step_unit_locks (action : nat) :
  maintains (fun s => unit_locks (scheduling_map s)) (Layered.step action).
Proof.
  pose proof lay_update_state_unit_locks.
  unfold Layered.step, Layered._swap, Layered._bridge. maint_locks.
Qed.

Lemma lay_reset_unit_locks :
  maintains (fun s => unit_locks (scheduling_map s)) Layered.reset.
Proof.
  pose proof lay_update_state_unit_locks.
  unfold Layered.reset, Layered._reset_state.
  apply maintains_bind; [maint_locks|intros _].
  apply maintains_bind; [|intros _; maint_locks].
  apply maintains_bind; [intros s _; apply unit_locks_empty|intros _].
  maint_locks.
Qed.

Lemma lay_reachable_unit_locks (a : InitArgs) (decomposed : bool) (env : LayeredRoutingEnv) :
  lay_reachable a decomposed env -> unit_locks (scheduling_map env).
Proof.
  induction 1 as [env Hinit|env _ IH|env action _ IH|env rates _ IH].
  - unfold Layered.__init__ in Hinit. destruct (__init__ a); [|done].
    injection Hinit as <-. apply unit_locks_empty.
  - by apply lay_reset_unit_locks.
  - by apply lay_step_unit_locks.
  - by apply (maintains_unit_locks_super (calibrate rates)).
Qed.

(** X3. In every reachable state of a layered environment every lock has the
    duration one, so the locked-edges observation has one entry per edge,
    each entry is 0 or 1 and lies inside the bounds [LockedEdges.space]
    declares, and an entry is 1 exactly when one of the two nodes of its edge
    is locked. *)
Theorem locked_edges_obs_in_space (a : InitArgs) (decomposed : bool) (env : LayeredRoutingEnv) :
  lay_reachable a decomposed env ->
  unit_locks (scheduling_map env) /\
  [length (LockedEdges.obs env)] = box_shape (LockedEdges.space env) /\
  forall i edge,
    edge_list (lay_base env) !! i = Some edge ->
    exists x,
      LockedEdges.obs env !! i = Some x /\
      (box_low (LockedEdges.space env) <= x <= box_high (LockedEdges.space env))%Z /\
      x = (if touches_locked (scheduling_map env) [edge.1; edge.2] then 1 else 0)%Z.
Proof.
  intros Hreach. pose proof (lay_reachable_unit_locks _ _ _ Hreach) as Hunit.
  split; [done|]. split.
  { unfold LockedEdges.obs, LockedEdges.space, num_edges. by rewrite length_map. }
  intros i edge Hedge. unfold LockedEdges.obs. rewrite list_lookup_fmap, Hedge.
  eexists. split; [reflexivity|].
  assert (Hval : forall n, default 0%Z (scheduling_map env !! n) =
            if bool_decide (is_Some (scheduling_map env !! n)) then 1%Z else 0%Z).
  { intros n. destruct (scheduling_map env !! n) as [v|] eqn:Hv.
    - rewrite (Hunit _ _ Hv). rewrite bool_decide_eq_true_2; [done|]. by eexists.
    - rewrite bool_decide_eq_false_2; [done|]. by intros [? ?]. }
  unfold touches_locked. cbn [existsb]. rewrite !Hval.
  unfold LockedEdges.space. cbn [box_low box_high].
  destruct (bool_decide (is_Some (scheduling_map env !! edge.1)));
    destruct (bool_decide (is_Some (scheduling_map env !! edge.2)));
    destruct (use_decomposed_actions env); cbn; lia.
Qed.

(** ** What a step does to the DAG and the log *)

Lemma progresses_refl (s : RoutingEnv) : progresses s s.
Proof. repeat split; done. Qed.

Lemma progresses_trans (s1 s2 s3 : RoutingEnv) :
  progresses s1 s2 -> progresses s2 s3 -> progresses s1 s3.
Proof.
  intros (Hd & Hl & Hs & Hc) (Hd' & Hl' & Hs' & Hc'). repeat split.
  - by etrans.
  - by etrans.
  - by etrans.
  - congruence.
Qed.

Lemma progresses_ext (s s' : RoutingEnv) :
  circuit_state s' = circuit_state s -> progresses s s'.
Proof. unfold circuit_state. intros [= Hd Hl Hs Hc]. unfold progresses. by rewrite Hd, Hl, Hs, Hc. Qed.

Lemma advances_bind {S A B} (R : S -> S -> Prop) (m : M S A) (k : A -> M S B) :
  (forall s1 s2 s3, R s1 s2 -> R s2 s3 -> R s1 s3) ->
  advances R m -> (forall a, advances R (k a)) -> advances R (bind m k).
Proof.
  intros Htrans Hm Hk s. unfold bind. specialize (Hm s).
  destruct (m s) as [[a|e] s']; simpl in *; [|done].
  eapply Htrans; [exact Hm|apply Hk].
Qed.

Lemma advances_for_each {S A} (R : S -> S -> Prop) (l : list A) (body : A -> M S unit) :
  (forall s, R s s) ->
  (forall s1 s2 s3, R s1 s2 -> R s2 s3 -> R s1 s3) ->
  (forall x, advances R (body x)) -> advances R (for_each l body).
Proof.
  intros Hrefl Htrans Hbody. induction l as [|x l IH]; simpl.
  - intros s. apply Hrefl.
  - by apply advances_bind.
Qed.

Lemma advances_preserves {S A X} (R : S -> S -> Prop) (f : S -> X) (m : M S A) :
  (forall s s', f s' = f s -> R s s') -> preserves f m -> advances R m.
Proof. intros Hext Hm s. apply Hext, Hm. Qed.

Lemma advances_zoom {S T A} (R : T -> T -> Prop) (get : S -> T) (set : T -> S -> S) (m : M T A) :
  (forall t s, get (set t s) = t) -> advances R m ->
  advances (fun s s' => R (get s) (get s')) (zoom get set m).
Proof. intros Hgs Hm s. unfold zoom. simpl. rewrite Hgs. apply Hm. Qed.

Lemma _remove_op_node_progresses (op_node : DAGOpNode) :
  advances progresses (_remove_op_node op_node).
Proof.
  intros s. unfold _remove_op_node, bind, modify. simpl. repeat split; try done.
  - unfold remove_op_node. apply sublist_filter.
  - apply union_subseteq_l.
Qed.

Lemma append_progresses (entry : RoutingEnv -> Gate * list nat) :
  advances progresses (modify (fun env => set_routed_gates (routed_gates env ++ [entry env]) env)).
Proof. intros s. unfold modify. simpl. repeat split; try done. by apply prefix_app_r. Qed.

Lemma _schedule_gates_progresses (gates : list (DAGOpNode * list nat)) :
  advances progresses (_schedule_gates gates).
Proof.
  unfold _schedule_gates.
  apply advances_bind; [apply progresses_trans| |intros _].
  - apply advances_for_each; [apply progresses_refl|apply progresses_trans|]. intros g.
    apply advances_bind; [apply progresses_trans| |intros _].
    + apply (append_progresses (fun _ => _)).
    + apply _remove_op_node_progresses.
  - apply (advances_preserves progresses circuit_state); [apply progresses_ext|]. frame.
Qed.

Lemma _bridge_progresses (c m t : nat) : advances progresses (_bridge c m t).
Proof. unfold _bridge. apply (append_progresses (fun _ => _)). Qed.

Lemma _swap_progresses (edge : nat * nat) : advances progresses (_swap edge).
Proof.
  unfold _swap. apply advances_bind; [apply progresses_trans| |intros _].
  - apply (append_progresses (fun _ => _)).
  - apply (advances_preserves progresses circuit_state); [apply progresses_ext|]. frame.
Qed.

Lemma seq_update_state_progresses : advances progresses Sequential._update_state.
Proof.
  unfold Sequential._update_state. apply advances_bind; [apply progresses_trans| |intros gates].
  - apply (advances_preserves progresses circuit_state); [apply progresses_ext|]. frame.
  - apply _schedule_gates_progresses.
Qed.

Lemma seq_super_progresses {A} (m : M RoutingEnv A) :
  advances progresses m ->
  advances (fun s s' => progresses (seq_base s) (seq_base s')) (Sequential.super m).
Proof. intros H. unfold Sequential.super. by apply (advances_zoom progresses). Qed.

Lemma lay_super_progresses {A} (m : M RoutingEnv A) :
  advances progresses m ->
  advances (fun s s' => progresses (lay_base s) (lay_base s')) (Layered.super m).
Proof. intros H. unfold Layered.super. by apply (advances_zoom progresses). Qed.

Lemma seq_attr_progresses {A} (m : M SequentialRoutingEnv A) :
  preserves seq_base m -> advances (fun s s' => progresses (seq_base s) (seq_base s')) m.
Proof. intros H s. rewrite H. apply progresses_refl. Qed.

Lemma lay_attr_progresses {A} (m : M LayeredRoutingEnv A) :
  preserves lay_base m -> advances (fun s s' => progresses (lay_base s) (lay_base s')) m.
Proof. intros H s. rewrite H. apply progresses_refl. Qed.

Ltac progress_base :=
  first [ apply _remove_op_node_progresses | apply _schedule_gates_progresses
        | apply _bridge_progresses | apply _swap_progresses
        | apply seq_update_state_progresses ].

Ltac progress_variant :=
  repeat first
    [ assumption
    | apply seq_super_progresses; solve [progress_base]
    | apply lay_super_progresses; solve [progress_base]
    | apply seq_attr_progresses; solve [unfold print, Sequential.current_obs; frame]
    | apply lay_attr_progresses; solve [unfold Layered.current_obs; frame]
    | apply advances_bind;
        [intros ? ? ?; apply progresses_trans| |intros ?]
    | match goal with
      | |- advances _ (match ?x with _ => _ end) => destruct x
      end ].

Lemma lay_update_state_progresses :
  advances (fun s s' => progresses (lay_base s) (lay_base s')) Layered._update_state.
Proof. unfold Layered._update_state, Layered._schedule_gates. progress_variant. Qed.

Lemma seq_step_progresses (action : nat) :
  advances (fun s s' => progresses (seq_base s) (seq_base s')) (Sequential.step action).
Proof. unfold Sequential.step. progress_variant. Qed.

Lemma lay_step_progresses (action : nat) :
  advances (fun s s' => progresses (lay_base s) (lay_base s')) (Layered.step action).
Proof.
  pose proof lay_update_state_progresses.
  unfold Layered.step, Layered._swap, Layered._bridge. progress_variant.
Qed.

(** X4. A step of either variant, whether it returns or raises, only takes
    operations out of the DAG (what is left is a sublist of the DAG before, in
    the same order), only appends to the routed-gates log (the log before is a
    prefix of the log after), only adds to the routed set, and leaves the
    configuration alone. *)
Theorem step_progresses (action : nat) :
  (forall env : SequentialRoutingEnv,
     progresses (seq_base env) (seq_base (Sequential.step action env).2)) /\
  (forall env : LayeredRoutingEnv,
     progresses (lay_base env) (lay_base (Layered.step action env).2)).
Proof.
  split.
  - apply seq_step_progresses.
  - apply lay_step_progresses.
Qed.

(** ** Action masks *)

Lemma zero_at_lookup (indices : list nat) : forall (mask : list bool) (j : nat),
  zero_at indices mask !! j =
    (fun b => if decide (j ∈ indices) then false else b) <$> mask !! j.
Proof.
  unfold zero_at. induction indices as [|i indices IH]; intros mask j.
  - cbn [foldl]. destruct (mask !! j); [|done]. cbn.
    destruct (decide (j ∈ [])) as [Hin|_]; [|done]. by apply elem_of_nil in Hin.
  - cbn [foldl]. rewrite IH, list_lookup_insert.
    destruct (decide (i = j ∧ i < length mask)) as [[-> Hlt]|Hno].
    + destruct (lookup_lt_is_Some_2 mask j Hlt) as [b Hb]. rewrite Hb. cbn.
      rewrite (decide_True (P := j ∈ j :: indices)) by (apply elem_of_cons; by left).
      by destruct (decide (j ∈ indices)).
    + destruct (mask !! j) as [b|] eqn:Hb; [|done]. cbn. f_equal.
      assert (Hne : i ≠ j).
      { intros ->. apply Hno. split; [done|]. by eapply lookup_lt_Some. }
      destruct (decide (j ∈ indices)) as [Hin|Hnin];
        destruct (decide (j ∈ i :: indices)) as [Hin'|Hnin']; cons_cases.
Qed.

Lemma elem_of_zip_seq_lookup {A} (l : list A) (i : nat) (x : A) :
  (i, x) ∈ zip (seq 0 (length l)) l <-> l !! i = Some x.
Proof.
  rewrite list_elem_of_lookup. split.
  - intros [k Hk]. apply lookup_zip_with_Some in Hk as (a & b & [= <- <-] & Ha & Hb).
    apply lookup_seq in Ha as [-> _]. done.
  - intros Hi. exists i. apply lookup_zip_with_Some. exists i, x. split; [done|].
    split; [|done]. apply lookup_seq. split; [done|]. eauto using lookup_lt_Some.
Qed.

Lemma elem_of_indices_where {A} (p : A -> bool) (l : list A) (i : nat) :
  i ∈ indices_where p l <-> exists x, l !! i = Some x /\ p x = true.
Proof.
  unfold indices_where. rewrite list_elem_of_fmap. split.
  - intros ([i' x] & -> & Hin). apply list_elem_of_filter in Hin as [Hp Hin].
    apply elem_of_zip_seq_lookup in Hin. by exists x.
  - intros (x & Hx & Hp). exists (i, x). split; [done|].
    apply list_elem_of_filter. split; [done|]. by apply elem_of_zip_seq_lookup.
Qed.

Lemma map_outcome_lookup {A B} (f : A -> outcome B) (l : list A) : forall ys,
  map_outcome f l = Ok ys ->
  length ys = length l /\
  forall i x, l !! i = Some x -> exists y, ys !! i = Some y /\ f x = Ok y.
Proof.
  induction l as [|a l IH]; intros ys H.
  - injection H as <-. split; [done|]. intros i x Hx. by rewrite lookup_nil in Hx.
  - cbn [map_outcome] in H. destruct (f a) as [b|] eqn:Hb; [|done]. cbn [obind] in H.
    destruct (map_outcome f l) as [bs|]; [|done]. cbn [obind] in H. injection H as <-.
    destruct (IH bs eq_refl) as [Hlen Hall]. split; [simpl; by rewrite Hlen|].
    intros [|i] x Hx.
    + injection Hx as <-. by exists b.
    + by apply Hall.
Qed.

Lemma zero_at_true (indices : list nat) (mask : list bool) (j : nat) :
  zero_at indices mask !! j = Some true <-> mask !! j = Some true /\ j ∉ indices.
Proof.
  rewrite zero_at_lookup. destruct (mask !! j) as [b|]; cbn; [|naive_solver].
  destruct (decide (j ∈ indices)); naive_solver.
Qed.

Lemma replicate_true (n j : nat) : replicate n true !! j = Some true <-> j < n.
Proof.
  split.
  - intros H. apply lookup_lt_Some in H. by rewrite length_replicate in H.
  - intros H. by apply lookup_replicate_2.
Qed.

Lemma bridge_indices_where (env : RoutingEnv) (p : option (DAGOpNode * list nat) -> bool)
    (args : list (option (DAGOpNode * list nat))) (j : nat) :
  map_outcome (_bridge_args env) (bridge_pairs (config env)) = Ok args ->
  j ∈ map (fun i => num_edges env + i) (indices_where p args)
  <-> num_edges env <= j /\
      exists pair o,
        bridge_pairs (config env) !! (j - num_edges env) = Some pair /\
        _bridge_args env pair = Ok o /\ p o = true.
Proof.
  intros Hargs. destruct (map_outcome_lookup _ _ _ Hargs) as [Hlen Hall].
  rewrite list_elem_of_fmap. split.
  - intros (i & -> & Hi). apply elem_of_indices_where in Hi as (o & Ho & Hp).
    split; [lia|]. replace (num_edges env + i - num_edges env) with i by lia.
    destruct (lookup_lt_is_Some_2 (bridge_pairs (config env)) i) as [pair Hpair].
    { rewrite <- Hlen. by eapply lookup_lt_Some. }
    exists pair, o. split; [done|]. destruct (Hall i pair Hpair) as (o' & Ho' & Hf).
    rewrite Ho in Ho'. by injection Ho' as <-.
  - intros (Hge & pair & o & Hpair & Hf & Hp). exists (j - num_edges env). split; [lia|].
    apply elem_of_indices_where. destruct (Hall _ _ Hpair) as (o' & Ho' & Hf').
    rewrite Hf in Hf'. injection Hf' as <-. by exists o.
Qed.

Lemma seq_action_mask_entries (env : SequentialRoutingEnv) (mask : list bool) :
  Sequential.action_mask env = Ok mask ->
  length mask = num_edges (seq_base env) + length (bridge_pairs (config (seq_base env))) /\
  forall j,
    mask !! j = Some true <->
    j < num_edges (seq_base env) + length (bridge_pairs (config (seq_base env))) /\
    seq_action_valid env j.
Proof.
  unfold Sequential.action_mask.
  set (b := seq_base env). set (n := num_edges b + length (bridge_pairs (config b))).
  intros H.
  (* the mask after the SWAP restriction *)
  destruct (if restrict_swaps_to_front_layer env
            then try fl <- Sequential.front_layer_nodes b;
                 Ok (zero_at (indices_where
                        (fun edge : nat * nat =>
                           negb (bool_decide (edge.1 ∈ fl) || bool_decide (edge.2 ∈ fl)))
                        (edge_list b)) (replicate n true))
            else Ok (replicate n true)) as [mask1|] eqn:H1; [|done].
  cbn [obind] in H.
  assert (Hlen1 : length mask1 = n).
  { destruct (restrict_swaps_to_front_layer env).
    - destruct (Sequential.front_layer_nodes b); [|done]. injection H1 as <-.
      by rewrite length_zero_at, length_replicate.
    - injection H1 as <-. by rewrite length_replicate. }
  assert (Hm1 : forall j, mask1 !! j = Some true <->
            j < n /\
            (restrict_swaps_to_front_layer env = true ->
             forall edge, edge_list b !! j = Some edge ->
               exists fl, Sequential.front_layer_nodes b = Ok fl /\ (edge.1 ∈ fl \/ edge.2 ∈ fl))).
  { intros j. destruct (restrict_swaps_to_front_layer env).
    - destruct (Sequential.front_layer_nodes b) as [fl|]; [|done]. injection H1 as <-.
      rewrite zero_at_true, replicate_true, elem_of_indices_where. split.
      + intros [Hj Hnot]. split; [done|]. intros _ edge Hedge. exists fl. split; [done|].
        destruct (decide (edge.1 ∈ fl)) as [?|H1']; [by left|].
        destruct (decide (edge.2 ∈ fl)) as [?|H2']; [by right|].
        exfalso. apply Hnot. exists edge. split; [done|].
        by rewrite !bool_decide_eq_false_2.
      + intros [Hj Hall]. split; [done|]. intros (edge & Hedge & Hp).
        destruct (Hall eq_refl edge Hedge) as (fl' & [= <-] & [Hin|Hin]);
          rewrite (bool_decide_eq_true_2 _ Hin) in Hp; cbn in Hp;
          rewrite ?orb_true_r in Hp; done.
    - injection H1 as <-. rewrite replicate_true. naive_solver. }
  (* the mask after the blocked SWAP *)
  destruct (match _blocked_swap env with
            | Some i => setitem mask1 i false
            | None => Ok mask1
            end) as [mask2|] eqn:H2; [|done].
  cbn [obind] in H.
  assert (Hlen2 : length mask2 = n).
  { destruct (_blocked_swap env) as [i|]; [|by injection H2 as <-].
    unfold setitem in H2. case_decide; [|done]. injection H2 as <-. by rewrite length_insert. }
  assert (Hm2 : forall j, mask2 !! j = Some true <->
            mask1 !! j = Some true /\ _blocked_swap env ≠ Some j).
  { intros j. destruct (_blocked_swap env) as [i|]; [|injection H2 as <-; naive_solver].
    unfold setitem in H2. case_decide as Hi; [|done]. injection H2 as <-.
    rewrite list_lookup_insert. case_decide as Hij.
    - destruct Hij as [-> _]. naive_solver.
    - split; [|naive_solver]. intros Hj. split; [done|]. intros [= ->]. apply Hij.
      split; [done|]. done. }
  (* the BRIDGE actions *)
  destruct (map_outcome (_bridge_args b) (bridge_pairs (config b))) as [args|] eqn:Hargs; [|done].
  cbn [obind] in H. injection H as <-.
  split; [by rewrite length_zero_at|].
  intros j. rewrite zero_at_true, Hm2, Hm1, (bridge_indices_where b _ args j Hargs).
  unfold seq_action_valid. fold b. fold n.
  destruct (map_outcome_lookup _ _ _ Hargs) as [Hlenargs Hall].
  destruct (decide (j < num_edges b)) as [Hlt|Hge].
  - split.
    + intros [[[Hj Hswap] Hblocked] _]. split; [done|]. split; [done|].
      intros Hrestrict.
      destruct (lookup_lt_is_Some_2 (edge_list b) j Hlt) as [edge Hedge].
      destruct (Hswap Hrestrict edge Hedge) as (fl & Hfl & Hin). by exists fl, edge.
    + intros [Hj [Hblocked Hswap]]. split; [|lia]. split; [|done]. split; [done|].
      intros Hrestrict edge Hedge. destruct (Hswap Hrestrict) as (fl & edge' & Hfl & Hedge' & Hin).
      rewrite Hedge in Hedge'. injection Hedge' as <-. by exists fl.
  - split.
    + intros [[[Hj Hswap] Hblocked] Hbridge]. split; [done|]. split; [done|].
      destruct (lookup_lt_is_Some_2 (bridge_pairs (config b)) (j - num_edges b)) as [pair Hpair].
      { unfold n in Hj. lia. }
      destruct (Hall _ _ Hpair) as ([args'|] & _ & Hf).
      * by exists pair, args'.
      * exfalso. apply Hbridge. split; [lia|]. by exists pair, None.
    + intros [Hj [Hblocked (pair & args' & Hpair & Hf)]]. split.
      * split; [|done]. split; [done|]. intros _ edge Hedge.
        apply lookup_lt_Some in Hedge. unfold num_edges in Hge. lia.
      * intros [_ (pair' & o & Hpair' & Hf' & Hnone)]. rewrite Hpair in Hpair'.
        injection Hpair' as <-. rewrite Hf in Hf'. by injection Hf' as <-.
Qed.

(** X5. Whenever the sequential action mask is computed, it has one entry
    per action (the SWAP actions, then the BRIDGE actions), and the entry of
    an action is 1 exactly when the action is not the blocked SWAP and, for a
    SWAP under the front-layer restriction, its edge touches a node of the
    front layer, and, for a BRIDGE, [_bridge_args] finds a candidate for its
    pair. *)
Theorem seq_action_mask_spec (env : SequentialRoutingEnv) (mask : list bool) :
  Sequential.action_mask env = Ok mask ->
  length mask = num_edges (seq_base env) + length (bridge_pairs (config (seq_base env))) /\
  forall j,
    mask !! j = Some true <->
    j < num_edges (seq_base env) + length (bridge_pairs (config (seq_base env))) /\
    seq_action_valid env j.
Proof. apply seq_action_mask_entries. Qed.

Lemma touches_locked_false (m : gmap nat Z) (nodes : list nat) :
  touches_locked m nodes = false <-> forall n, n ∈ nodes -> m !! n = None.
Proof.
  unfold touches_locked. induction nodes as [|x l IH]; simpl.
  - split; [|done]. intros _ n Hn. by apply elem_of_nil in Hn.
  - rewrite orb_false_iff, IH, bool_decide_eq_false, <- eq_None_not_Some. split.
    + intros [Hx Hl] n Hn. apply elem_of_cons in Hn as [->|Hn]; [done|by apply Hl].
    + intros H. split; [apply H; by left|]. intros n Hn. apply H. by right.
Qed.

Lemma lay_action_mask_entries (env : LayeredRoutingEnv) (mask : list bool) :
  Layered.action_mask env = Ok mask ->
  length mask = num_edges (lay_base env) + length (bridge_pairs (config (lay_base env))) + 1 /\
  forall j,
    mask !! j = Some true <->
    j < num_edges (lay_base env) + length (bridge_pairs (config (lay_base env))) + 1 /\
    lay_action_valid env j.
Proof.
  unfold Layered.action_mask, lay_action_valid.
  set (b := lay_base env). set (np := length (bridge_pairs (config b))).
  cbv zeta. intros H.
  destruct (map_outcome (_bridge_args b) (bridge_pairs (config b))) as [args|] eqn:Hargs; [|done].
  cbn [obind] in H. injection H as <-.
  destruct (map_outcome_lookup _ _ _ Hargs) as [Hlenargs Hall].
  split.
  { case_decide; rewrite ?length_insert, !length_zero_at, length_replicate; done. }
  intros j.
  assert (Hcommit : forall l : list bool,
            (if decide (scheduling_map env = ∅) then <[num_edges b + np + 1 - 1 := false]> l else l) !! j
              = Some true <->
            l !! j = Some true /\ (j = num_edges b + np -> scheduling_map env ≠ ∅)).
  { intros l. case_decide as Hempty; [|naive_solver].
    rewrite list_lookup_insert. case_decide as Hj.
    - destruct Hj as [Hj _]. split; [done|]. intros [_ Hne]. exfalso. apply Hne; [lia|done].
    - split; [|naive_solver]. intros Hl. split; [done|]. intros ->. exfalso. apply Hj.
      split; [lia|]. apply lookup_lt_Some in Hl. lia. }
  rewrite Hcommit, zero_at_true, zero_at_true, replicate_true,
    (bridge_indices_where b _ args j Hargs), elem_of_indices_where.
  destruct (decide (j < num_edges b)) as [Hlt|Hge].
  - destruct (lookup_lt_is_Some_2 (edge_list b) j Hlt) as [edge Hedge]. split.
    + intros [[[Hj Hswap] _] _]. split; [done|]. exists edge. split; [done|].
      destruct (touches_locked (scheduling_map env) [edge.1; edge.2]) eqn:Ht.
      * exfalso. apply Hswap. by exists edge.
      * pose proof (proj1 (touches_locked_false _ _) Ht) as Hfree.
        split; apply Hfree; set_solver.
    + intros [Hj (edge' & Hedge' & H1 & H2)]. rewrite Hedge in Hedge'. injection Hedge' as <-.
      split; [|lia]. split; [|lia]. split; [done|]. intros (edge' & Hedge' & Ht).
      rewrite Hedge in Hedge'. injection Hedge' as <-.
      assert (touches_locked (scheduling_map env) [edge.1; edge.2] = false) as Hf;
        [|change (touches_locked (scheduling_map env) [edge.1; edge.2] = true) in Ht; congruence].
      apply touches_locked_false. intros n Hn. set_solver.
  - assert (Hnoswap : ~ exists x : nat * nat, edge_list b !! j = Some x /\
              touches_locked (scheduling_map env) [x.1; x.2] = true).
    { intros (x & Hx & _). apply lookup_lt_Some in Hx. unfold num_edges in Hge. lia. }
    destruct (decide (j < num_edges b + np)) as [Hlt|Hge'].
    + destruct (lookup_lt_is_Some_2 (bridge_pairs (config b)) (j - num_edges b)) as [pair Hpair].
      { unfold np in Hlt. lia. }
      destruct (Hall _ _ Hpair) as (o & _ & Hf). split.
      * intros [[[Hj _] Hbridge] _]. split; [done|].
        destruct o as [[op_node nodes]|].
        -- exists pair, op_node, nodes. split; [done|]. split; [done|].
           apply touches_locked_false.
           destruct (touches_locked (scheduling_map env) nodes) eqn:Ht; [|done].
           exfalso. apply Hbridge. split; [lia|]. by exists pair, (Some (op_node, nodes)).
        -- exfalso. apply Hbridge. split; [lia|]. by exists pair, None.
      * intros [Hj (pair' & op_node & nodes & Hpair' & Hf' & Hfree)].
        rewrite Hpair in Hpair'. injection Hpair' as <-. rewrite Hf in Hf'. injection Hf' as ->.
        split; [|lia]. split; [done|]. intros [_ (pair' & o & Hpair' & Hf' & Hp)].
        rewrite Hpair in Hpair'. injection Hpair' as <-. rewrite Hf in Hf'. injection Hf' as <-.
        pose proof (proj2 (touches_locked_false _ _) Hfree) as Ht.
        change (touches_locked (scheduling_map env) nodes = true) in Hp. congruence.
    + split.
      * intros [[[Hj _] _] Hne]. split; [done|]. apply Hne. lia.
      * intros [Hj Hne]. split; [|done]. split; [done|].
        intros [_ (pair & o & Hpair & _)]. apply lookup_lt_Some in Hpair. unfold np in Hge'. lia.
Qed.

(** X6. The layered action mask is always computed when [_bridge_args]
    returns; it has one entry per SWAP, per BRIDGE and one for COMMIT, and
    an entry is 1 exactly when: its SWAP edge has no locked endpoint; its
    BRIDGE pair has a candidate whose three nodes are not locked; for
    COMMIT, the scheduling map is not empty. *)
Theorem lay_action_mask_spec (env : LayeredRoutingEnv) (mask : list bool) :
  Layered.action_mask env = Ok mask ->
  length mask = num_edges (lay_base env) + length (bridge_pairs (config (lay_base env))) + 1 /\
  forall j,
    mask !! j = Some true <->
    j < num_edges (lay_base env) + length (bridge_pairs (config (lay_base env))) + 1 /\
    lay_action_valid env j.
Proof. apply lay_action_mask_entries. Qed.

(** ** What a step leaves in the mask *)

Lemma bind_inv {S A B} (m : M S A) (k : A -> M S B) (s s' : S) (b : B) :
  bind m k s = (Ok b, s') -> exists a s1, m s = (Ok a, s1) /\ k a s1 = (Ok b, s').
Proof. unfold bind. destruct (m s) as [[a|e] s1]; [by exists a, s1|done]. Qed.

Lemma call_inv {S A} (f : S -> outcome A) (s s' : S) (a : A) :
  call f s = (Ok a, s') -> f s = Ok a /\ s' = s.
Proof. unfold call. by intros [= -> ->]. Qed.

Lemma mask_entry_false (mask : list bool) (j : nat) :
  j < length mask -> mask !! j ≠ Some true -> mask !! j = Some false.
Proof.
  intros Hj Hne. destruct (lookup_lt_is_Some_2 mask j Hj) as [[|] Hb]; [done|done].
Qed.

(** X7. A layered step that applies a SWAP and returns hands back a mask in
    which that SWAP is disabled and COMMIT is enabled: the two nodes of the
    edge are locked until the next COMMIT. *)
Theorem lay_swap_step_masks_swap (action : nat) (env env' : LayeredRoutingEnv)
    (obs : list bool) (reward : Q) (is_terminated truncated : bool) :
  action < num_edges (lay_base env) ->
  Layered.step action env = (Ok (obs, reward, is_terminated, truncated), env') ->
  obs !! action = Some false /\
  obs !! (num_edges (lay_base env) + length (bridge_pairs (config (lay_base env)))) = Some true.
Proof.
  intros Hlt H. unfold Layered.step in H. rewrite !bind_gets in H. cbv beta in H.
  rewrite decide_True in H by done.
  apply bind_inv in H as (r & s3 & H & Hobs).
  apply bind_inv in H as (edge & s0 & Hedge & H). apply call_inv in Hedge as [Hedge ->].
  apply bind_inv in H as ([] & s2 & Hswap & Hreward). apply call_inv in Hreward as [_ ->].
  unfold Layered._swap in Hswap.
  apply bind_inv in Hswap as ([] & s1 & Hsuper & Hlock).
  unfold modify in Hlock. injection Hlock as <-.
  assert (Hmap : scheduling_map s1 = scheduling_map env).
  { rewrite <- (lay_super_scheduling_map (_swap edge) env). by rewrite Hsuper. }
  assert (Hcfg : config (lay_base s1) = config (lay_base env)).
  { pose proof (lay_super_preserves config (_swap edge) (_swap_config edge) env) as Hc.
    cbv beta in Hc. by rewrite Hsuper in Hc. }
  apply bind_inv in Hobs as (obs' & s4 & Hmask & Hrest). apply call_inv in Hmask as [Hmask ->].
  rewrite bind_gets in Hrest. unfold ret in Hrest. injection Hrest as <- _ _ _ _.
  apply lay_action_mask_entries in Hmask as [Hlen Hentries].
  assert (Hne : num_edges (lay_base s1) = num_edges (lay_base env)).
  { unfold num_edges, edge_list. by rewrite Hcfg. }
  cbn [lay_base set_scheduling_map] in Hlen, Hentries. rewrite Hcfg, Hne in Hlen.
  assert (Hlocked : update_all [edge.1; edge.2] (scheduling_map s1) !! edge.1 = Some 1%Z).
  { rewrite lookup_update_all, decide_True; [done|]. apply elem_of_cons. by left. }
  unfold getitem in Hedge. destruct (edge_list (lay_base env) !! action) as [edge'|] eqn:Hl; [|done].
  injection Hedge as ->.
  split.
  - apply mask_entry_false; [lia|]. rewrite Hentries. intros [_ Hvalid].
    unfold lay_action_valid in Hvalid. cbn [lay_base set_scheduling_map scheduling_map] in Hvalid.
    rewrite Hne, decide_True in Hvalid by done. destruct Hvalid as (e & He & H1 & _).
    unfold edge_list in He, Hl. rewrite Hcfg, Hl in He. injection He as <-.
    change (update_all [edge.1; edge.2] (scheduling_map s1) !! edge.1 = None) in H1. congruence.
  - apply Hentries. rewrite Hcfg, Hne. split; [lia|].
    unfold lay_action_valid. cbn [lay_base set_scheduling_map scheduling_map].
    rewrite Hcfg, Hne, !decide_False by lia. intros Hempty.
    change (update_all [edge.1; edge.2] (scheduling_map s1) = ∅) in Hempty. rewrite Hempty in Hlocked.
    by rewrite lookup_empty in Hlocked.
Qed.

Lemma seq_step_num_edges (action : nat) (env : SequentialRoutingEnv) :
  num_edges (seq_base (Sequential.step action env).2) = num_edges (seq_base env).
Proof.
  destruct (seq_step_progresses action env) as (_ & _ & _ & Hc).
  unfold num_edges, edge_list. by rewrite Hc.
Qed.

(** X8. After a sequential step out of a state that is not terminated, the
    blocked SWAP is the action just taken when it was a SWAP and the commit
    that followed scheduled no gate, and nothing otherwise; in the first case
    the returned mask disables that SWAP. *)
Theorem seq_step_blocks_idle_swap (action : nat) (env env' : SequentialRoutingEnv)
    (obs : list bool) (reward : Q) (is_terminated truncated : bool) :
  terminated (seq_base env) = false ->
  Sequential.step action env = (Ok (obs, reward, is_terminated, truncated), env') ->
  _blocked_swap env' =
    (if bool_decide (action < num_edges (seq_base env))
        && bool_decide (_num_scheduled_2q_gates (seq_base env') = 0)
     then Some action else None) /\
  (action < num_edges (seq_base env) ->
   _num_scheduled_2q_gates (seq_base env') = 0 ->
   obs !! action = Some false).
Proof.
  intros Hterm H.
  pose proof (seq_step_num_edges action env) as Hne. rewrite H in Hne. cbn [snd] in Hne.
  unfold Sequential.step in H. rewrite bind_gets in H. cbv beta in H. rewrite Hterm in H.
  rewrite bind_gets in H. cbv beta in H.
  apply bind_inv in H as (r & s1 & _ & H).
  apply bind_inv in H as ([] & s2 & _ & H).
  rewrite !bind_gets in H. cbv beta in H.
  apply bind_inv in H as ([] & s3 & Hblock & H). unfold modify in Hblock. injection Hblock as <-.
  apply bind_inv in H as (obs' & s4 & Hmask & H). apply call_inv in Hmask as [Hmask ->].
  rewrite bind_gets in H. unfold ret in H. injection H as <- _ _ _ <-.
  split; [done|]. intros Hlt Hzero. cbn [seq_base set_blocked_swap] in Hzero, Hne.
  apply seq_action_mask_entries in Hmask as [Hlen Hentries].
  cbn [seq_base set_blocked_swap] in Hlen.
  apply mask_entry_false; [lia|]. rewrite Hentries. intros [_ [Hblocked _]].
  apply Hblocked. cbn [_blocked_swap set_blocked_swap].
  by rewrite (bool_decide_eq_true_2 _ Hlt), (bool_decide_eq_true_2 _ Hzero).
Qed.

(** ** Committing gates *)

Lemma filter_iff {A} (P Q : A -> Prop) `{!forall x, Decision (P x)} `{!forall x, Decision (Q x)}
    (l : list A) :
  (forall x, P x <-> Q x) -> filter P l = filter Q l.
Proof.
  intros Hiff. induction l as [|x l IH]; [done|].
  rewrite !filter_cons, IH. destruct (decide (P x)) as [HP|HP]; destruct (decide (Q x)) as [HQ|HQ];
    try done; exfalso; [apply HQ|apply HP]; by apply Hiff.
Qed.

Lemma filter_all {A} (P : A -> Prop) `{!forall x, Decision (P x)} (l : list A) :
  (forall x, P x) -> filter P l = l.
Proof.
  intros Hall. induction l as [|x l IH]; [done|]. by rewrite filter_cons_True, IH.
Qed.

Lemma schedule_loop (gates : GateSchedulingList) : forall env : RoutingEnv,
  exists env',
    for_each gates (fun g =>
      modify (fun env => set_routed_gates (routed_gates env ++ [(op g.1, g.2)]) env) ;;
      _remove_op_node g.1) env = (Ok tt, env') /\
    routed_gates env' = routed_gates env ++ map (fun g => (op g.1, g.2)) gates /\
    dag env' = filter (fun m => node_id m ∉ map (fun g => node_id g.1) gates) (dag env) /\
    routed_op_nodes env' = routed_op_nodes env ∪ list_to_set (map (fun g => node_id g.1) gates) /\
    mapping_of env' = mapping_of env /\
    _scheduling_reward env' = _scheduling_reward env.
Proof.
  induction gates as [|g gates IH]; intros env.
  - exists env. split; [done|]. split; [by rewrite app_nil_r|]. split.
    { symmetry. apply filter_all. intros m. simpl. apply not_elem_of_nil. }
    split; [|done]. simpl. set_solver.
  - set (env1 := set_routed_op_nodes (routed_op_nodes env ∪ {[node_id g.1]})
                   (set_dag (remove_op_node g.1 (dag env))
                      (set_routed_gates (routed_gates env ++ [(op g.1, g.2)]) env))).
    destruct (IH env1) as (env' & Hrun & Hlog & Hdag & Hset & Hmap & Hrew).
    exists env'. split; [exact Hrun|]. split; [|split; [|split; [|split]]].
    + rewrite Hlog. cbn [env1 routed_gates set_routed_op_nodes set_dag set_routed_gates map].
      by rewrite <- app_assoc.
    + rewrite Hdag. cbn [env1 dag set_routed_op_nodes set_dag]. unfold remove_op_node.
      rewrite list_filter_filter. apply filter_iff. intros m. cbn [map].
      rewrite not_elem_of_cons. tauto.
    + rewrite Hset. cbn [env1 routed_op_nodes set_routed_op_nodes map list_to_set]. set_solver.
    + by rewrite Hmap.
    + by rewrite Hrew.
Qed.

Lemma _schedule_gates_effect (gates : GateSchedulingList) (env : RoutingEnv) :
  let env' := (_schedule_gates gates env).2 in
  routed_gates env' = routed_gates env ++ map (fun g => (op g.1, g.2)) gates /\
  dag env' = filter (fun m => node_id m ∉ map (fun g => node_id g.1) gates) (dag env) /\
  routed_op_nodes env' = routed_op_nodes env ∪ list_to_set (map (fun g => node_id g.1) gates) /\
  _num_scheduled_2q_gates env' = length gates.
Proof.
  cbv zeta.
  destruct (schedule_loop gates env) as (env1 & Hrun & Hlog & Hdag & Hset & _).
  assert (Hfinal : exists reward,
            (_schedule_gates gates env).2 = set_scheduling_result (length gates) reward env1).
  { unfold _schedule_gates. rewrite (bind_ok _ _ _ _ _ Hrun).
    unfold bind, modify, call.
    destruct (sum_gate_rewards (set_scheduling_result (length gates) (_scheduling_reward env1) env1)
                gates 0%Q) as [reward|e]; by eexists. }
  destruct Hfinal as [reward ->]. done.
Qed.

(** X9. [_schedule_gates(gates)], whether the reward sum returns or raises,
    appends the gates to the routed-gates log in order, takes exactly the
    operations with their ids out of the DAG, adds those ids to the routed
    set and sets [_num_scheduled_2q_gates] to the number of all the gates
    given, whatever their number of qubits. *)
Theorem schedule_gates_accounting (gates : GateSchedulingList) (env : RoutingEnv) :
  let env' := (_schedule_gates gates env).2 in
  routed_gates env' = routed_gates env ++ map (fun g => (op g.1, g.2)) gates /\
  dag env' = filter (fun m => node_id m ∉ map (fun g => node_id g.1) gates) (dag env) /\
  routed_op_nodes env' = routed_op_nodes env ∪ list_to_set (map (fun g => node_id g.1) gates) /\
  _num_scheduled_2q_gates env' = length gates.
Proof. apply _schedule_gates_effect. Qed.

(** ** The constructor *)

Lemma pair_le_total : Total pair_le.
Proof. intros [a b] [c d]. unfold pair_le. simpl. lia. Qed.

Lemma pair_le_trans : Transitive pair_le.
Proof. intros [a b] [c d] [e f]. unfold pair_le. simpl. lia. Qed.

Lemma distance_two_pairs_elems (g : PyGraph) :
  (forall j i,
     (j, i) ∈ distance_two_pairs g <->
     j < i /\ i < num_nodes g /\ graph_distance_matrix g j i = 2) /\
  StronglySorted pair_le (distance_two_pairs g) /\
  NoDup (distance_two_pairs g).
Proof.
  unfold distance_two_pairs.
  set (inner := fun i =>
         flat_map (fun j => if decide (graph_distance_matrix g j i = 2) then [(j, i)] else [])
                  (seq 0 i)).
  set (l := flat_map inner (seq 0 (num_nodes g))).
  assert (Hinner : forall i p, p ∈ inner i <-> p.2 = i /\ p.1 < i /\ graph_distance_matrix g p.1 i = 2).
  { intros i [a b]. unfold inner. rewrite list_elem_of_In, in_flat_map. simpl. split.
    - intros (j & Hj & Hp). apply list_elem_of_In, elem_of_seq in Hj.
      case_decide; [|done]. destruct Hp as [[= <- <-]|[]]. split; [done|]. split; [lia|done].
    - intros (-> & Hlt & Hd). exists a. split.
      + apply list_elem_of_In, elem_of_seq. lia.
      + rewrite decide_True by done. by left. }
  assert (Hmem : forall j i, (j, i) ∈ l <-> j < i /\ i < num_nodes g /\ graph_distance_matrix g j i = 2).
  { intros j i. unfold l. rewrite list_elem_of_In, in_flat_map. split.
    - intros (i' & Hi' & Hp). apply list_elem_of_In, elem_of_seq in Hi'.
      apply list_elem_of_In, Hinner in Hp as (Hi & Hlt & Hd). simpl in *. subst i'.
      split; [done|]. split; [lia|done].
    - intros (Hlt & Hi & Hd). exists i. split.
      + apply list_elem_of_In, elem_of_seq. lia.
      + apply list_elem_of_In, Hinner. done. }
  assert (Hnd_inner : forall i, NoDup (inner i)).
  { intros i. unfold inner.
    assert (Hgen : forall start len,
              NoDup (flat_map (fun j => if decide (graph_distance_matrix g j i = 2)
                                        then [(j, i)] else []) (seq start len)) /\
              forall p, p ∈ flat_map (fun j => if decide (graph_distance_matrix g j i = 2)
                                               then [(j, i)] else []) (seq start len) ->
                        start <= p.1).
    { intros start len. revert start. induction len as [|len IH]; intros start.
      - simpl. split; [constructor|]. intros p Hp. by apply elem_of_nil in Hp.
      - simpl. destruct (IH (S start)) as [Hnd Hge]. case_decide; simpl.
        + split.
          * constructor; [|done]. intros Hin. apply Hge in Hin. simpl in Hin. lia.
          * intros p Hp. apply elem_of_cons in Hp as [->|Hp]; [simpl; lia|].
            apply Hge in Hp. lia.
        + split; [done|]. intros p Hp. apply Hge in Hp. lia. }
    apply Hgen. }
  assert (Hnd : NoDup l).
  { unfold l.
    assert (Hgen : forall start len,
              NoDup (flat_map inner (seq start len)) /\
              forall p, p ∈ flat_map inner (seq start len) -> start <= p.2).
    { intros start len. revert start. induction len as [|len IH]; intros start.
      - simpl. split; [constructor|]. intros p Hp. by apply elem_of_nil in Hp.
      - simpl. destruct (IH (S start)) as [Hnd Hge]. split.
        + apply NoDup_app. split; [apply Hnd_inner|]. split; [|done].
          intros p Hp Hp'. apply Hinner in Hp as [Hp _]. apply Hge in Hp'. lia.
        + intros p Hp. apply elem_of_app in Hp as [Hp|Hp].
          * apply Hinner in Hp as [Hp _]. lia.
          * apply Hge in Hp. lia. }
    apply Hgen. }
  pose proof (merge_sort_Permutation pair_le l) as Hperm.
  split; [|split].
  - intros j i. rewrite Hperm. apply Hmem.
  - apply StronglySorted_merge_sort; [apply pair_le_trans|apply pair_le_total].
  - by rewrite Hperm.
Qed.

(** X10. The BRIDGE pairs of a device are exactly the pairs (j, i) of nodes
    with j below i at distance two in the distance matrix, each once, in
    increasing lexicographic order. *)
Theorem distance_two_pairs_spec (g : PyGraph) :
  (forall j i,
     (j, i) ∈ distance_two_pairs g <->
     j < i /\ i < num_nodes g /\ graph_distance_matrix g j i = 2) /\
  StronglySorted pair_le (distance_two_pairs g) /\
  NoDup (distance_two_pairs g).
Proof. apply distance_two_pairs_elems. Qed.

Lemma fill_loop_outcome (pairs : list (nat * nat)) : forall env : RoutingEnv,
  exists q2n,
    length q2n = length (qubit_to_node env) /\
    ((Forall (fun nq : nat * nat => nq.2 < length (qubit_to_node env)) pairs /\
      for_each pairs (fun nq =>
        do q2n <- call (fun env => setitem (qubit_to_node env) nq.2 nq.1);
        modify (set_qubit_to_node q2n)) env = (Ok tt, set_qubit_to_node q2n env)) \/
     (Exists (fun nq : nat * nat => length (qubit_to_node env) <= nq.2) pairs /\
      for_each pairs (fun nq =>
        do q2n <- call (fun env => setitem (qubit_to_node env) nq.2 nq.1);
        modify (set_qubit_to_node q2n)) env = (Raise IndexError, set_qubit_to_node q2n env))).
Proof.
  induction pairs as [|[n q] rest IH]; intros env.
  - exists (qubit_to_node env). split; [done|]. left. split; [constructor|].
    simpl. unfold ret. by rewrite set_qubit_to_node_id.
  - destruct (decide (q < length (qubit_to_node env))) as [Hlt|Hge].
    + set (env1 := set_qubit_to_node (<[q:=n]> (qubit_to_node env)) env).
      assert (Hstep : forall k : unit -> M RoutingEnv unit,
                bind (do q2n <- call (fun env => setitem (qubit_to_node env) q n);
                      modify (set_qubit_to_node q2n)) k env = k tt env1).
      { intros k. unfold bind, call, modify. cbn [fst snd]. by rewrite setitem_lt. }
      destruct (IH env1) as (q2n & Hlen & Hcases).
      assert (Hlen1 : length (qubit_to_node env1) = length (qubit_to_node env)).
      { unfold env1. simpl. by rewrite length_insert. }
      exists q2n. split; [by rewrite Hlen|].
      destruct Hcases as [[Hall Hrun]|[Hex Hrun]]; [left|right].
      * split; [constructor; [done|by rewrite <- Hlen1]|].
        cbn [for_each fst snd]. rewrite Hstep. exact Hrun.
      * split; [apply Exists_cons_tl; by rewrite <- Hlen1|].
        cbn [for_each fst snd]. rewrite Hstep. exact Hrun.
    + exists (qubit_to_node env). split; [done|]. right. split.
      * apply Exists_cons_hd. simpl. lia.
      * cbn [for_each fst snd]. unfold bind, call, setitem. rewrite decide_False by done.
        by rewrite set_qubit_to_node_id.
Qed.

Lemma __init___cases (a : InitArgs) :
  let n := num_nodes (arg_coupling_map a) in
  let m := length (graph_edge_list (arg_coupling_map a)) in
  let mapping := default (seq 0 n) (arg_initial_mapping a) in
  let rates := default (replicate m 0%Q) (arg_error_rates a) in
  match __init__ a with
  | Ok env =>
      length mapping = n /\ length rates = m /\ Forall (fun q => q < n) mapping /\
      node_to_qubit env = mapping /\ length (qubit_to_node env) = n /\
      error_rates env = rates /\
      dag env = default [] (arg_circuit a) /\ routed_gates env = []
  | Raise (ValueError _) => length mapping ≠ n \/ length rates ≠ m
  | Raise IndexError =>
      length mapping = n /\ length rates = m /\ Exists (fun q => n <= q) mapping
  | Raise _ => False
  end.
Proof.
  cbv zeta. unfold __init__.
  set (n := num_nodes (arg_coupling_map a)).
  set (m := length (graph_edge_list (arg_coupling_map a))).
  set (mapping := default (seq 0 n) (arg_initial_mapping a)).
  set (rates := default (replicate m 0%Q) (arg_error_rates a)).
  case_decide as Hmap; [by left|]. case_decide as Hrates; [by right|].
  match goal with |- context [fill_qubit_to_node ?e] => set (env0 := e) end.
  unfold fill_qubit_to_node. rewrite bind_gets.
  destruct (fill_loop_outcome (zip (seq 0 (length (node_to_qubit env0))) (node_to_qubit env0)) env0)
    as (q2n & Hlen & [[Hall ->]|[Hex ->]]).
  - assert (Hentries : Forall (fun q => q < n) mapping).
    { apply Forall_forall. intros q Hq. apply list_elem_of_lookup in Hq as [i Hi].
      rewrite Forall_forall in Hall.
      specialize (Hall (i, q)). cbn in Hall. rewrite length_replicate, Hmap in Hall.
      apply Hall. rewrite <- Hmap. apply elem_of_zip_seq_lookup. exact Hi. }
    assert (Hq2n : length q2n = n).
    { rewrite Hlen. cbn. by rewrite length_replicate. }
    destruct (noise_aware (set_qubit_to_node q2n env0)).
    + unfold calibrate_env. destruct (noise_config _); cbn; done.
    + cbn. done.
  - split; [done|]. split; [done|]. apply Exists_exists in Hex as ([i q] & Hin & Hq).
    apply Exists_exists. exists q. cbn in Hq. rewrite length_replicate, Hmap in Hq.
    split; [|done]. apply elem_of_zip_seq_lookup in Hin. by eapply list_elem_of_lookup_2.
Qed.


(** ** Calibration *)

Lemma calibration_table (l : list ((nat * nat) * Q)) :
  let table :=
    foldl (fun (m : gmap (nat * nat) Q) ev => <[((ev.1).2, (ev.1).1) := ev.2]> (<[ev.1 := ev.2]> m))
          ∅ l in
  (forall a b, table !! (a, b) = table !! (b, a)) /\
  (forall a b v, table !! (a, b) = Some v ->
     exists e, (e, v) ∈ l /\ (e = (a, b) \/ e = (b, a))) /\
  (forall e v, (e, v) ∈ l -> is_Some (table !! e) /\ is_Some (table !! (e.2, e.1))).
Proof.
  cbv zeta. induction l as [|[[x y] w] l IH] using rev_ind.
  - simpl. split; [done|]. split.
    + intros a b v H. by rewrite lookup_empty in H.
    + intros e v H. by apply elem_of_nil in H.
  - rewrite foldl_app. cbn [foldl fst snd].
    set (table := foldl _ ∅ l) in *. destruct IH as (Hsym & Hval & Hcov).
    assert (Hlook : forall a b,
              <[(y, x) := w]> (<[(x, y) := w]> table) !! (a, b) =
                if decide ((a, b) = (y, x)) then Some w
                else if decide ((a, b) = (x, y)) then Some w else table !! (a, b)).
    { intros a b. destruct (decide ((a, b) = (y, x))) as [->|Hne1].
      - by rewrite lookup_insert_eq.
      - rewrite lookup_insert_ne by done. destruct (decide ((a, b) = (x, y))) as [->|Hne2].
        + by rewrite lookup_insert_eq.
        + by rewrite lookup_insert_ne. }
    split; [|split].
    + intros a b. rewrite !Hlook.
      destruct (decide ((a, b) = (y, x))) as [[= -> ->]|Hne1].
      { destruct (decide ((x, y) = (y, x))); [done|]. by rewrite decide_True. }
      destruct (decide ((a, b) = (x, y))) as [[= -> ->]|Hne2].
      { by rewrite decide_True. }
      rewrite decide_False by congruence. rewrite decide_False by congruence. apply Hsym.
    + intros a b v. rewrite Hlook.
      destruct (decide ((a, b) = (y, x))) as [[= -> ->]|Hne1].
      { intros [= <-]. exists (x, y). split; [|by right]. apply elem_of_app. right. by left. }
      destruct (decide ((a, b) = (x, y))) as [[= -> ->]|Hne2].
      { intros [= <-]. exists (x, y). split; [|by left]. apply elem_of_app. right. by left. }
      intros H. destruct (Hval a b v H) as (e & He & Hor). exists e. split; [|done].
      apply elem_of_app. by left.
    + intros [a b] v Hin. cbn [fst snd]. rewrite !Hlook.
      apply elem_of_app in Hin as [Hin|Hin].
      * destruct (Hcov _ _ Hin) as [H1 H2]. cbn [fst snd] in H2.
        split; repeat case_decide; eauto.
      * apply list_elem_of_singleton in Hin. injection Hin as -> -> ->.
        split; repeat case_decide; eauto; congruence.
Qed.

Lemma elem_of_zip_lookup {A B} (l : list A) (k : list B) (x : A) (y : B) :
  (x, y) ∈ zip l k <-> exists i, l !! i = Some x /\ k !! i = Some y.
Proof.
  rewrite list_elem_of_lookup. split.
  - intros [i Hi]. apply lookup_zip_with_Some in Hi as (a & b & [= <- <-] & Ha & Hb). eauto.
  - intros (i & Ha & Hb). exists i. apply lookup_zip_with_Some. eauto.
Qed.

(** X12. [calibrate(error_rates)] never raises and stores the array it is
    given.  Without a noise configuration it leaves the reliability table
    alone.  With one, it stores the computed log reliabilities and rebuilds
    the table from nothing: the table is symmetric in the two orientations of
    an edge, every value stored for a pair of nodes is the log reliability at
    the index of an edge between them, and an edge has an entry (in both
    orientations) as soon as its index has a log reliability. *)
Theorem calibrate_table (rates : list Q) (env : RoutingEnv) :
  let env' := (calibrate rates env).2 in
  (calibrate rates env).1 = Ok tt /\
  error_rates env' = rates /\
  match noise_config (config env) with
  | None => edge_to_log_reliability env' = edge_to_log_reliability env
  | Some nc =>
      let lr := calculate_log_reliabilities nc rates in
      let table := edge_to_log_reliability env' in
      log_reliabilities env' = lr /\
      (forall a b, table !! (a, b) = table !! (b, a)) /\
      (forall a b v, table !! (a, b) = Some v ->
         exists i, lr !! i = Some v /\
                   (edge_list env !! i = Some (a, b) \/ edge_list env !! i = Some (b, a))) /\
      (forall i a b, edge_list env !! i = Some (a, b) -> i < length lr ->
         is_Some (table !! (a, b)) /\ is_Some (table !! (b, a)))
  end.
Proof.
  cbv zeta. unfold calibrate, modify, calibrate_env. cbn [fst snd].
  destruct (noise_config (config env)) as [nc|]; [|done].
  cbn [error_rates log_reliabilities edge_to_log_reliability set_calibration].
  split; [done|]. split; [done|]. split; [done|].
  destruct (calibration_table (zip (edge_list env) (calculate_log_reliabilities nc rates)))
    as (Hsym & Hval & Hcov).
  split; [exact Hsym|]. split.
  - intros a b v H. destruct (Hval a b v H) as (e & He & Hor).
    apply elem_of_zip_lookup in He as (i & Hi & Hv). exists i. split; [done|].
    destruct Hor as [->| ->]; [by left|by right].
  - intros i a b Hi Hlt. destruct (lookup_lt_is_Some_2 _ _ Hlt) as [v Hv].
    apply (Hcov (a, b) v). apply elem_of_zip_lookup. eauto.
Qed.

(** ** Actions outside the action space, and the blocked SWAP across episodes *)

(** X13. A sequential step out of a state that is not terminated, with an
    action past the last BRIDGE action, raises [IndexError] and leaves the
    environment exactly as it was. *)
Theorem seq_step_out_of_range (action : nat) (env : SequentialRoutingEnv) :
  terminated (seq_base env) = false ->
  num_edges (seq_base env) + length (bridge_pairs (config (seq_base env))) <= action ->
  Sequential.step action env = (Raise IndexError, env).
Proof.
  intros Hterm Hge. unfold Sequential.step. rewrite bind_gets. cbv beta. rewrite Hterm.
  rewrite bind_gets. cbv beta. rewrite bool_decide_eq_false_2 by lia.
  apply bind_raise. apply bind_raise. unfold call. f_equal.
  apply getitem_None. apply lookup_ge_None. lia.
Qed.

(** X14. The layered step has no upper bound on the action: every number
    past the last BRIDGE action is a COMMIT, and does what the COMMIT action
    does. *)
Theorem lay_step_out_of_range_commits (action : nat) (env : LayeredRoutingEnv) :
  num_edges (lay_base env) + length (bridge_pairs (config (lay_base env))) <= action ->
  Layered.step action env =
  Layered.step (num_edges (lay_base env) + length (bridge_pairs (config (lay_base env)))) env.
Proof.
  intros Hge. unfold Layered.step. rewrite !bind_gets. cbv beta.
  rewrite !(decide_False (P := action < _)) by lia.
  rewrite !(decide_False (P := _ + _ < _)) by lia. done.
Qed.

Lemma seq_action_mask_blocked (env : SequentialRoutingEnv) (mask : list bool) (j : nat) :
  Sequential.action_mask env = Ok mask -> _blocked_swap env = Some j -> mask !! j = Some false.
Proof.
  unfold Sequential.action_mask. intros H Hj. rewrite Hj in H.
  match type of H with
  | obind ?m _ = _ => destruct m as [mask1|]; [|done]
  end.
  cbn [obind] in H. unfold setitem in H. case_decide as Hlt; [|done]. cbn [obind] in H.
  destruct (map_outcome _ _) as [args|]; [|done]. cbn [obind] in H. injection H as <-.
  rewrite zero_at_lookup, list_lookup_insert_eq by done. cbn. by case_decide.
Qed.

(** X15. [reset] of the sequential environment does not clear the blocked
    SWAP: when it returns, the SWAP blocked at the end of the previous episode
    is still blocked, and the first mask of the new episode disables it. *)
Theorem seq_reset_keeps_blocked_swap (env env' : SequentialRoutingEnv) (obs : list bool) (j : nat) :
  Sequential.reset env = (Ok obs, env') ->
  _blocked_swap env = Some j ->
  _blocked_swap env' = Some j /\ obs !! j = Some false.
Proof.
  intros H Hj.
  assert (Hkeep : _blocked_swap env' = _blocked_swap env).
  { assert (Hp : preserves (fun s => (_blocked_swap s, config (seq_base s))) Sequential.reset).
    { unfold Sequential.reset, Sequential.current_obs. frame_blocked. }
    specialize (Hp env). rewrite H in Hp. by injection Hp. }
  split; [by rewrite Hkeep|].
  unfold Sequential.reset in H.
  apply bind_inv in H as ([] & s1 & _ & H). apply bind_inv in H as ([] & s2 & _ & H).
  apply bind_inv in H as ([] & s3 & _ & H). apply call_inv in H as [Hmask ->].
  apply (seq_action_mask_blocked s3); [done|]. by rewrite Hkeep.
Qed.

Lemma touches_locked_empty (nodes : list nat) : touches_locked ∅ nodes = false.
Proof. apply touches_locked_false. intros n _. apply lookup_empty. Qed.

(** X16. A COMMIT in a reachable layered state clears every lock, schedules
    exactly the gates [_schedulable_gates(only_front_layer=True)] of the base
    class finds (no lock is left to hold one back), and, when the reward sum
    returns, locks exactly the nodes of these gates; when the sum raises, the
    gates are logged all the same and no node is locked. *)
Theorem lay_commit_relocks (a : InitArgs) (decomposed : bool) (env : LayeredRoutingEnv) :
  lay_reachable a decomposed env ->
  let result := Layered._update_state env in
  match _schedulable_gates (lay_base env) true with
  | Ok gates =>
      routed_gates (lay_base result.2) =
        routed_gates (lay_base env) ++ map (fun g => (op g.1, g.2)) gates /\
      match result.1 with
      | Ok _ =>
          forall n, scheduling_map result.2 !! n =
                    if decide (n ∈ concat (gates.*2)) then Some 1%Z else None
      | Raise _ => scheduling_map result.2 = ∅
      end
  | Raise e => result = (Raise e, set_scheduling_map ∅ env)
  end.
Proof.
  intros Hreach. pose proof (lay_reachable_unit_locks _ _ _ Hreach) as Hunit.
  cbv zeta.
  assert (Hres : Layered._update_state env =
            match _schedulable_gates (lay_base env) true with
            | Ok gates => Layered._schedule_gates gates (set_scheduling_map ∅ env)
            | Raise e => (Raise e, set_scheduling_map ∅ env)
            end).
  { unfold Layered._update_state, bind, modify, call. rewrite (unit_locks_decrement _ Hunit).
    unfold Layered._schedulable_gates. cbn [lay_base set_scheduling_map scheduling_map].
    destruct (_schedulable_gates (lay_base env) true) as [gates|e]; [|done].
    cbn [obind]. rewrite filter_all; [done|]. intros g. apply touches_locked_empty. }
  rewrite Hres. clear Hres.
  destruct (_schedulable_gates (lay_base env) true) as [gates|e]; [|done].
  destruct (_schedule_gates_effect gates (lay_base env)) as (Hlog & _).
  assert (Hrun : Layered._schedule_gates gates (set_scheduling_map ∅ env) =
            match (_schedule_gates gates (lay_base env)).1 with
            | Ok _ =>
                (Ok tt, set_scheduling_map (update_all (concat (gates.*2)) ∅)
                          (lay_set_base (_schedule_gates gates (lay_base env)).2 env))
            | Raise e =>
                (Raise e, lay_set_base (_schedule_gates gates (lay_base env)).2
                            (set_scheduling_map ∅ env))
            end).
  { unfold Layered._schedule_gates, Layered.super, zoom, bind, modify.
    cbn [lay_base set_scheduling_map scheduling_map fst snd].
    by destruct (_schedule_gates gates (lay_base env)) as [[[]|e] b']. }
  rewrite Hrun. clear Hrun.
  destruct (_schedule_gates gates (lay_base env)).1 as [[]|e];
    cbn [fst snd lay_base lay_set_base scheduling_map set_scheduling_map].
  - split; [done|]. intros n. rewrite lookup_update_all. by rewrite lookup_empty.
  - split; done.
Qed.

(** ** The routed circuit fits the device *)

Lemma on_device_app (s s' : RoutingEnv) (new : list (Gate * list nat)) :
  config s' = config s ->
  routed_gates s' = routed_gates s ++ new ->
  (forall g a b, (g, [a; b]) ∈ new -> has_edge (coupling_map (config s)) a b = true) ->
  on_device s -> on_device s'.
Proof.
  intros Hc Hlog Hnew Hs g a b Hin. rewrite Hc. rewrite Hlog in Hin.
  apply elem_of_app in Hin as [Hin|Hin]; [by apply (Hs g)|by apply (Hnew g)].
Qed.

Lemma on_device_ext (s s' : RoutingEnv) :
  (config s', routed_gates s') = (config s, routed_gates s) -> on_device s -> on_device s'.
Proof.
  intros [= Hc Hlog]. apply (on_device_app s s' []); [done|by rewrite app_nil_r|].
  intros g a b Hin. by apply elem_of_nil in Hin.
Qed.

Lemma on_device_nil (s : RoutingEnv) : routed_gates s = [] -> on_device s.
Proof. intros Hlog g a b Hin. rewrite Hlog in Hin. by apply elem_of_nil in Hin. Qed.

Lemma on_device_frame {A} (m : M RoutingEnv A) :
  preserves (fun s => (config s, routed_gates s)) m -> maintains on_device m.
Proof. apply maintains_preserves. apply on_device_ext. Qed.

Lemma _remove_op_node_on_device (op_node : DAGOpNode) : maintains on_device (_remove_op_node op_node).
Proof. apply on_device_frame. unfold _remove_op_node. frame. Qed.

Lemma calibrate_on_device (rates : list Q) : maintains on_device (calibrate rates).
Proof.
  apply on_device_frame. unfold calibrate. apply preserves_modify. intros s.
  unfold calibrate_env. by destruct (noise_config (config s)).
Qed.

Lemma reset_mapping_on_device : maintains on_device reset_mapping.
Proof. apply on_device_frame. unfold reset_mapping, fill_qubit_to_node. frame. Qed.

Lemma _bridge_on_device (control middle target : nat) :
  maintains on_device (_bridge control middle target).
Proof.
  intros s Hs. eapply (on_device_app s); [done|done| |done].
  intros g a b Hin. apply list_elem_of_singleton in Hin. done.
Qed.

Lemma has_edge_edge_list (env : RoutingEnv) (i : nat) (edge : nat * nat) :
  edge_list env !! i = Some edge -> has_edge (coupling_map (config env)) edge.1 edge.2 = true.
Proof.
  intros H. apply list_elem_of_lookup_2 in H. unfold has_edge. apply orb_true_iff. left.
  apply bool_decide_eq_true. by destruct edge.
Qed.

Lemma _swap_on_device (edge : nat * nat) (env : RoutingEnv) :
  has_edge (coupling_map (config env)) edge.1 edge.2 = true ->
  on_device env -> on_device (_swap edge env).2.
Proof.
  intros Hedge. apply (on_device_app env _ [(SwapGate, [edge.1; edge.2])]).
  - apply _swap_config.
  - apply _swap_routed_gates.
  - intros g a b Hin. apply list_elem_of_singleton in Hin. by injection Hin as _ -> ->.
Qed.

Lemma _schedule_gates_on_device (gates : GateSchedulingList) (env : RoutingEnv) :
  (forall g, g ∈ gates -> passed_rule env ∅ g) ->
  on_device env -> on_device (_schedule_gates gates env).2.
Proof.
  intros Hgates. destruct (_schedule_gates_effect gates env) as (Hlog & _).
  apply (on_device_app env _ (map (fun g => (op g.1, g.2)) gates)); [|done|].
  - apply (mapping_config _ _ (_schedule_gates_mapping gates)).
  - intros g a b Hin. apply list_elem_of_fmap in Hin as ([op_node nodes] & [= -> Hnodes] & Hin).
    destruct (Hgates _ Hin) as [_ Hs]. cbn [snd] in Hs, Hnodes. subst nodes.
    apply _is_schedulable_iff in Hs as [[Hlen|(a' & b' & [= <- <-] & Hedge)] _]; done.
Qed.

Lemma _schedulable_gates_passed_rule (env : RoutingEnv) (only_front_layer : bool)
    (gates : GateSchedulingList) :
  _schedulable_gates env only_front_layer = Ok gates ->
  forall g, g ∈ gates -> passed_rule env ∅ g.
Proof.
  unfold _schedulable_gates.
  destruct (schedulable_loop env _ _) as [[gates' locked']|] eqn:Hloop; [|done].
  cbn [obind fst]. intros [= <-] g Hg.
  destruct (schedulable_loop_spec _ _ _ _ _ _ Hloop) as [_ H].
  destruct (H g Hg) as [Hin|Hp]; [|done]. by apply elem_of_nil in Hin.
Qed.

Lemma seq_update_state_on_device : maintains on_device Sequential._update_state.
Proof.
  intros env Henv. unfold Sequential._update_state, bind, call.
  destruct (_schedulable_gates env false) as [gates|e] eqn:Hgates; [|done].
  apply _schedule_gates_on_device; [|done]. by apply (_schedulable_gates_passed_rule env false).
Qed.

Lemma reset_circuit_on_device (env : RoutingEnv) : on_device (reset_circuit env).2.
Proof.
  apply on_device_nil. unfold reset_circuit.
  unfold bind at 1. unfold modify at 1. unfold bind at 1. unfold modify at 1.
  rewrite (preserves_after routed_gates) by (intros ?; frame). done.
Qed.

Lemma maintains_seq_super (P : RoutingEnv -> Prop) {A} (m : M RoutingEnv A) :
  maintains P m -> maintains (fun s => P (seq_base s)) (Sequential.super m).
Proof. intros H. unfold Sequential.super. by apply (maintains_zoom P). Qed.

Lemma maintains_lay_super (P : RoutingEnv -> Prop) {A} (m : M RoutingEnv A) :
  maintains P m -> maintains (fun s => P (lay_base s)) (Layered.super m).
Proof. intros H. unfold Layered.super. by apply (maintains_zoom P). Qed.

Lemma maintains_seq_attr (P : RoutingEnv -> Prop) {A} (m : M SequentialRoutingEnv A) :
  preserves seq_base m -> maintains (fun s => P (seq_base s)) m.
Proof. intros H s Hs. by rewrite H. Qed.

Lemma maintains_lay_attr (P : RoutingEnv -> Prop) {A} (m : M LayeredRoutingEnv A) :
  preserves lay_base m -> maintains (fun s => P (lay_base s)) m.
Proof. intros H s Hs. by rewrite H. Qed.

Ltac device_base :=
  first [ apply _remove_op_node_on_device | apply _bridge_on_device
        | apply seq_update_state_on_device | apply calibrate_on_device
        | apply reset_mapping_on_device ].

Ltac device_variant :=
  repeat first
    [ assumption
    | apply (maintains_seq_super on_device); solve [device_base]
    | apply (maintains_lay_super on_device); solve [device_base]
    | apply (maintains_seq_attr on_device); solve [unfold print, Sequential.current_obs; frame]
    | apply (maintains_lay_attr on_device); solve [unfold Layered.current_obs; frame]
    | apply maintains_bind; [|intros ?]
    | match goal with
      | |- maintains _ (match ?x with _ => _ end) => destruct x
      end ].

Lemma seq_swap_on_device (action : nat) :
  maintains (fun s => on_device (seq_base s))
    (do edge <- call (fun env => getitem (edge_list (seq_base env)) action);
     Sequential.super (_swap edge) ;;
     call (fun env => _swap_reward (seq_base env) edge)).
Proof.
  intros s Hs. unfold bind at 1. unfold call at 1. unfold getitem.
  destruct (edge_list (seq_base s) !! action) as [edge|] eqn:Hedge; [|done].
  assert (Hswap : on_device (seq_base (Sequential.super (_swap edge) s).2)).
  { apply _swap_on_device; [|done]. by apply (has_edge_edge_list _ action). }
  revert Hswap. unfold bind, call. by destruct (Sequential.super (_swap edge) s) as [[[]|e] s'].
Qed.

Lemma lay_update_state_on_device :
  maintains (fun s => on_device (lay_base s)) Layered._update_state.
Proof.
  unfold Layered._update_state. apply maintains_bind.
  { apply (maintains_lay_attr on_device). frame. }
  intros _ s Hs. unfold bind, call.
  destruct (Layered._schedulable_gates s true) as [gates|e] eqn:Hgates; [|done].
  assert (Hrule : forall g, g ∈ gates -> passed_rule (lay_base s) ∅ g).
  { unfold Layered._schedulable_gates in Hgates.
    destruct (_schedulable_gates (lay_base s) true) as [gates0|] eqn:H0; [|done].
    cbn [obind] in Hgates. injection Hgates as <-. intros g Hg.
    apply list_elem_of_filter in Hg as [_ Hg].
    by apply (_schedulable_gates_passed_rule (lay_base s) true gates0). }
  assert (Hbase : on_device (_schedule_gates gates (lay_base s)).2).
  { by apply _schedule_gates_on_device. }
  revert Hbase. unfold Layered._schedule_gates, Layered.super, zoom, bind, modify.
  by destruct (_schedule_gates gates (lay_base s)) as [[[]|e] b'].
Qed.

Lemma lay_swap_on_device (action : nat) :
  maintains (fun s => on_device (lay_base s))
    (do edge <- call (fun env => getitem (edge_list (lay_base env)) action);
     Layered._swap edge ;;
     call (fun env => _swap_reward (lay_base env) edge)).
Proof.
  intros s Hs. unfold bind at 1. unfold call at 1. unfold getitem.
  destruct (edge_list (lay_base s) !! action) as [edge|] eqn:Hedge; [|done].
  assert (Hswap : on_device (_swap edge (lay_base s)).2).
  { apply _swap_on_device; [|done]. by apply (has_edge_edge_list _ action). }
  revert Hswap. unfold Layered._swap, Layered.super, zoom, bind, call, modify.
  by destruct (_swap edge (lay_base s)) as [[[]|e] s'].
Qed.

Lemma seq_step_on_device (action : nat) :
  maintains (fun s => on_device (seq_base s)) (Sequential.step action).
Proof.
  pose proof (seq_swap_on_device action).
  unfold Sequential.step. device_variant.
Qed.

Lemma lay_step_on_device (action : nat) :
  maintains (fun s => on_device (lay_base s)) (Layered.step action).
Proof.
  pose proof (lay_swap_on_device action). pose proof lay_update_state_on_device.
  unfold Layered.step, Layered._bridge. device_variant.
Qed.

Lemma seq_reset_on_device (env : SequentialRoutingEnv) :
  on_device (seq_base (Sequential.reset env).2).
Proof.
  unfold Sequential.reset.
  assert (H1 : on_device (seq_base (Sequential.super reset_circuit env).2)).
  { apply reset_circuit_on_device. }
  revert H1. unfold bind at 1.
  destruct (Sequential.super reset_circuit env) as [[[]|e] s1]; [|done]. cbn [snd].
  revert s1. change (maintains (fun s => on_device (seq_base s))
    (Sequential.super reset_mapping ;; Sequential.super Sequential._update_state ;;
     Sequential.current_obs)).
  device_variant.
Qed.

Lemma lay_reset_on_device (env : LayeredRoutingEnv) :
  on_device (lay_base (Layered.reset env).2).
Proof.
  unfold Layered.reset.
  assert (H1 : on_device (lay_base (Layered.super reset_circuit env).2)).
  { apply reset_circuit_on_device. }
  revert H1. unfold bind at 1.
  destruct (Layered.super reset_circuit env) as [[[]|e] s1]; [|done]. cbn [snd].
  revert s1. change (maintains (fun s => on_device (lay_base s))
    (Layered._reset_state ;; Layered.current_obs)).
  pose proof lay_update_state_on_device. unfold Layered._reset_state. device_variant.
Qed.

Lemma __init___on_device (a : InitArgs) (env : RoutingEnv) : __init__ a = Ok env -> on_device env.
Proof.
  intros Hinit. pose proof (__init___cases a) as H. cbv zeta in H. rewrite Hinit in H.
  apply on_device_nil. apply H.
Qed.

(** X17. The routed circuit of a sequential environment fits the device: in
    every state reached from the constructor by [reset], [step] and
    [calibrate], whatever they return or raise, every entry of the
    routed-gates log on two nodes (a gate of the circuit or an inserted SWAP)
    acts on two nodes joined by an edge of the coupling map. *)
Theorem seq_routed_gates_on_device (a : InitArgs) (restrict : bool) (env : SequentialRoutingEnv) :
  seq_reachable a restrict env -> on_device (seq_base env).
Proof.
  induction 1 as [env Hinit|env _ IH|env action _ IH|env rates _ IH].
  - unfold Sequential.__init__ in Hinit. destruct (__init__ a) as [b|] eqn:Hb; [|done].
    injection Hinit as <-. by apply (__init___on_device a).
  - apply seq_reset_on_device.
  - by apply seq_step_on_device.
  - revert IH. apply (maintains_seq_super on_device). apply calibrate_on_device.
Qed.

(** X18. The routed circuit of a layered environment fits the device: in
    every state reached from the constructor by [reset], [step] and
    [calibrate], whatever they return or raise, every entry of the
    routed-gates log on two nodes acts on two nodes joined by an edge of the
    coupling map. *)
Theorem lay_routed_gates_on_device (a : InitArgs) (decomposed : bool) (env : LayeredRoutingEnv) :
  lay_reachable a decomposed env -> on_device (lay_base env).
Proof.
  induction 1 as [env Hinit|env _ IH|env action _ IH|env rates _ IH].
  - unfold Layered.__init__ in Hinit. destruct (__init__ a) as [b|] eqn:Hb; [|done].
    injection Hinit as <-. by apply (__init___on_device a).
  - apply lay_reset_on_device.
  - by apply lay_step_on_device.
  - revert IH. apply (maintains_lay_super on_device). apply calibrate_on_device.
Qed.

(** ** The qubit-interactions observation *)

Lemma elem_of_pairs (n j i : nat) : (j, i) ∈ QubitInteractions.pairs n <-> j < i /\ i < n.
Proof.
  unfold QubitInteractions.pairs. rewrite list_elem_of_In, in_flat_map. split.
  - intros (i' & Hi' & Hp). apply list_elem_of_In, elem_of_seq in Hi'.
    apply list_elem_of_In, list_elem_of_fmap in Hp as (j' & [= -> ->] & Hj').
    apply elem_of_seq in Hj'. lia.
  - intros [Hj Hi]. exists i. split.
    + apply list_elem_of_In, elem_of_seq. lia.
    + apply list_elem_of_In, list_elem_of_fmap. exists j. split; [done|].
      apply elem_of_seq. lia.
Qed.

Lemma length_pairs (n : nat) : length (QubitInteractions.pairs n) = n * (n - 1) / 2.
Proof.
  assert (H : length (QubitInteractions.pairs n) * 2 = n * (n - 1)).
  { unfold QubitInteractions.pairs. induction n as [|n IH]; [done|].
    rewrite seq_S, flat_map_app, length_app, Nat.mul_add_distr_r, IH. cbn [flat_map].
    rewrite app_nil_r, length_map, length_seq. destruct n; simpl; lia. }
  rewrite <- H. symmetry. apply Nat.div_mul. done.
Qed.

Lemma initial_interactions_lookup (keys : list (nat * nat)) (key : nat * nat) :
  (list_to_map (map (fun key => (key, (-1)%Z)) keys) : gmap (nat * nat) Z) !! key =
    if decide (key ∈ keys) then Some (-1)%Z else None.
Proof.
  induction keys as [|k keys IH]; cbn [map list_to_map foldr].
  - rewrite lookup_empty. by rewrite decide_False by apply not_elem_of_nil.
  - destruct (decide (key = k)) as [->|Hne].
    + rewrite lookup_insert_eq. rewrite decide_True; [done|]. apply elem_of_cons. by left.
    + rewrite lookup_insert_ne by done. rewrite IH.
      destruct (decide (key ∈ keys)) as [Hin|Hnin].
      * rewrite decide_True; [done|]. apply elem_of_cons. by right.
      * rewrite decide_False; [done|]. intros Hin. apply elem_of_cons in Hin as [?|?]; done.
Qed.

Lemma visit_lookup (i : nat) (qi qi' : gmap (nat * nat) Z) (op_node : DAGOpNode)
    (key : nat * nat) :
  QubitInteractions.visit i qi op_node = Ok qi' ->
  qi' !! key =
    (fun v => if decide (v = (-1)%Z /\ interacts key op_node) then Z.of_nat i else v) <$> qi !! key.
Proof.
  unfold QubitInteractions.visit. destruct key as [x y].
  assert (Hid : ~ interacts (x, y) op_node ->
            qi !! (x, y) =
            (fun v => if decide (v = (-1)%Z /\ interacts (x, y) op_node) then Z.of_nat i else v)
              <$> qi !! (x, y)).
  { intros HP. destruct (qi !! (x, y)) as [v|]; [|done]. cbn.
    rewrite decide_False; [done|]. tauto. }
  destruct (decide (length (qargs op_node) = 2)) as [Hlen|Hlen].
  - destruct (merge_sort Nat.le (qargs op_node)) as [|a [|b [|c l]]] eqn:Hsort; try done.
    destruct (qi !! (a, b)) as [v0|] eqn:Hv0; [|done]. intros [= <-].
    destruct (decide ((x, y) = (a, b))) as [[= -> ->]|Hne].
    + rewrite Hv0. cbn. destruct (decide (v0 = (-1)%Z)) as [->|Hv].
      * rewrite lookup_insert_eq. rewrite decide_True; [done|]. by repeat split.
      * rewrite Hv0. rewrite decide_False; [done|]. tauto.
    + assert (Hno : ~ interacts (x, y) op_node).
      { intros [_ H]. rewrite Hsort in H. injection H as -> ->. done. }
      destruct (decide (v0 = (-1)%Z)).
      * rewrite lookup_insert_ne by done. by apply Hid.
      * by apply Hid.
  - intros [= <-]. apply Hid. intros [H _]. done.
Qed.

Lemma visit_layer_lookup (i : nat) (layer : list DAGOpNode) :
  forall (qi qi' : gmap (nat * nat) Z) (key : nat * nat),
    QubitInteractions.visit_layer i qi layer = Ok qi' ->
    qi' !! key =
      (fun v => if decide (v = (-1)%Z /\ Exists (interacts key) layer) then Z.of_nat i else v)
        <$> qi !! key.
Proof.
  induction layer as [|op_node rest IH]; intros qi qi' key Hrun.
  - injection Hrun as <-. destruct (qi !! key) as [v|]; [|done]. cbn.
    rewrite decide_False; [done|]. intros [_ H]. by apply Exists_nil in H.
  - cbn [QubitInteractions.visit_layer] in Hrun.
    destruct (QubitInteractions.visit i qi op_node) as [qi1|] eqn:H1; [|done].
    cbn [obind] in Hrun. rewrite (IH _ _ key Hrun), (visit_lookup _ _ _ _ key H1).
    destruct (qi !! key) as [v|]; [|done]. cbn. f_equal.
    destruct (decide (v = (-1)%Z /\ interacts key op_node)) as [[-> Hop]|Hno].
    + rewrite decide_False by lia. rewrite decide_True; [done|]. split; [done|]. by left.
    + destruct (decide (v = (-1)%Z /\ Exists (interacts key) rest)) as [[-> Hrest]|Hno'].
      * rewrite decide_True; [done|]. split; [done|]. by right.
      * rewrite decide_False; [done|]. intros [-> Hex].
        apply Exists_cons in Hex as [?|?]; tauto.
Qed.

Lemma visit_layers_lookup (layers : list (list DAGOpNode)) :
  forall (i : nat) (qi qi' : gmap (nat * nat) Z) (key : nat * nat),
    QubitInteractions.visit_layers i qi layers = Ok qi' ->
    qi' !! key =
      (fun v => if decide (v = (-1)%Z)
                then match list_find (fun layer => Exists (interacts key) layer) layers with
                     | Some (k, _) => Z.of_nat (i + k)
                     | None => (-1)%Z
                     end
                else v) <$> qi !! key.
Proof.
  induction layers as [|layer rest IH]; intros i qi qi' key Hrun.
  - injection Hrun as <-. destruct (qi !! key) as [v|]; [|done]. cbn. f_equal.
    by destruct (decide (v = (-1)%Z)).
  - cbn [QubitInteractions.visit_layers] in Hrun.
    destruct (QubitInteractions.visit_layer i qi layer) as [qi1|] eqn:H1; [|done].
    cbn [obind] in Hrun. rewrite (IH _ _ _ key Hrun), (visit_layer_lookup _ _ _ _ key H1).
    destruct (qi !! key) as [v|]; [|done]. cbn [fmap option_fmap option_map list_find].
    f_equal.
    assert (Hlayer : Exists (interacts key) layer \/ ~ Exists (interacts key) layer).
    { destruct (decide (Exists (interacts key) layer)); auto. }
    assert (Hval : v = (-1)%Z \/ v <> (-1)%Z) by lia.
    destruct Hlayer as [Hex|Hno]; destruct Hval as [->|Hv].
    + rewrite (decide_True (P := _ /\ _)) by done.
      rewrite (decide_False (P := Z.of_nat i = _)) by lia.
      rewrite (decide_True (P := _ = _)) by done.
      rewrite (decide_True (P := Exists _ _)) by done. f_equal. lia.
    + rewrite (decide_False (P := _ /\ _)) by tauto.
      rewrite (decide_False (P := v = _)) by done.
      by rewrite (decide_False (P := v = _)) by done.
    + rewrite (decide_False (P := _ /\ _)) by tauto.
      rewrite !(decide_True (P := _ = _)) by done.
      rewrite (decide_False (P := Exists _ _)) by done.
      destruct (list_find _ rest) as [[k l]|]; cbn; [f_equal; lia|done].
    + rewrite (decide_False (P := _ /\ _)) by tauto.
      rewrite (decide_False (P := v = _)) by done.
      by rewrite (decide_False (P := v = _)) by done.
Qed.

Lemma first_interaction_bounds (key : nat * nat) (layers : list (list DAGOpNode)) :
  (-1 <= first_interaction key layers < Z.of_nat (length layers))%Z.
Proof.
  unfold first_interaction.
  destruct (list_find _ layers) as [[i l]|] eqn:Hfind; [|lia].
  apply list_find_Some in Hfind as (Hi & _). apply lookup_lt_Some in Hi. lia.
Qed.

Lemma length_slice_to {A} (k : Z) (l : list A) :
  (0 <= k)%Z -> (Z.of_nat (length (slice_to k l)) <= k)%Z.
Proof. intros Hk. unfold slice_to. rewrite decide_True by done. rewrite length_take. lia. Qed.

Lemma qubit_interactions_values (max_depth : Z) (env : RoutingEnv) (v : list Z) :
  QubitInteractions.obs max_depth env = Ok v ->
  v = map (fun key => first_interaction key (slice_to max_depth (dag_layers (dag env))))
          (QubitInteractions.pairs (num_qubits env)).
Proof.
  unfold QubitInteractions.obs. cbv zeta.
  destruct (QubitInteractions.visit_layers _ _ _) as [qi|] eqn:Hrun; [|done].
  cbn [obind]. intros [= <-]. apply map_ext_in. intros key Hkey. apply list_elem_of_In in Hkey.
  rewrite (visit_layers_lookup _ _ _ _ key Hrun), initial_interactions_lookup.
  rewrite decide_True by done. cbn. unfold first_interaction.
  by destruct (list_find _ _) as [[k l]|].
Qed.

(** X19. When [QubitInteractions.obs] returns, the array has one entry per
    pair of qubits, as many as [QubitInteractions.space] declares; the entry
    of the pair (j, i) is the index of the first of the layers
    [dag_layers(dag)[:max_depth]] with an operation on exactly the qubits
    j and i, and -1 when there is none; and with a depth that is not
    negative every entry is -1 or a layer index below the depth, inside the
    declared bounds. *)
Theorem qubit_interactions_obs_in_space (max_depth : Z) (env : RoutingEnv) (v : list Z) :
  QubitInteractions.obs max_depth env = Ok v ->
  [length v] = box_shape (QubitInteractions.space max_depth env) /\
  (forall idx key,
     QubitInteractions.pairs (num_qubits env) !! idx = Some key ->
     v !! idx = Some (first_interaction key (slice_to max_depth (dag_layers (dag env))))) /\
  ((0 <= max_depth)%Z ->
   Forall (fun x => (x = -1 \/ 0 <= x < max_depth)%Z /\
                    (box_low (QubitInteractions.space max_depth env) <= x
                     <= box_high (QubitInteractions.space max_depth env))%Z) v).
Proof.
  intros Hobs. apply qubit_interactions_values in Hobs. subst v. split; [|split].
  - cbn. by rewrite length_map, length_pairs.
  - intros idx key Hkey. by rewrite list_lookup_fmap, Hkey.
  - intros Hdepth. apply Forall_fmap, Forall_forall. intros key _. cbn.
    pose proof (first_interaction_bounds key (slice_to max_depth (dag_layers (dag env)))) as Hb.
    pose proof (length_slice_to max_depth (dag_layers (dag env)) Hdepth) as Hl.
    assert (Hnn : (first_interaction key (slice_to max_depth (dag_layers (dag env))) = -1
                   \/ 0 <= first_interaction key (slice_to max_depth (dag_layers (dag env))))%Z).
    { unfold first_interaction. destruct (list_find _ _) as [[k l]|]; lia. }
    lia.
Qed.

Lemma front_layer_from_subseteq (d : list DAGOpNode) :
  forall used op_node, op_node ∈ front_layer_from used d -> op_node ∈ d.
Proof.
  induction d as [|n rest IH]; intros used op_node Hin; [done|].
  cbn [front_layer_from] in Hin.
  destruct (forallb _ (qargs n)).
  - apply elem_of_cons in Hin as [->|Hin]; [by left|]. right. by eapply IH.
  - right. by eapply IH.
Qed.

Lemma front_layer_subseteq (d : list DAGOpNode) (op_node : DAGOpNode) :
  op_node ∈ front_layer d -> op_node ∈ d.
Proof.
  unfold front_layer. rewrite merge_sort_Permutation. apply front_layer_from_subseteq.
Qed.

Lemma foldr_remove_op_node_subseteq (front d : list DAGOpNode) (op_node : DAGOpNode) :
  op_node ∈ foldr remove_op_node d front -> op_node ∈ d.
Proof.
  induction front as [|n rest IH]; [done|]. cbn [foldr]. unfold remove_op_node at 1.
  intros Hin. apply list_elem_of_filter in Hin as [_ Hin]. by apply IH.
Qed.

Lemma dag_layers_subseteq (d : list DAGOpNode) (layer : list DAGOpNode) (op_node : DAGOpNode) :
  layer ∈ dag_layers d -> op_node ∈ layer -> op_node ∈ d.
Proof.
  unfold dag_layers. generalize (length d) as fuel. intros fuel. revert d.
  induction fuel as [|fuel IH]; intros d Hlayer Hop.
  - by apply elem_of_nil in Hlayer.
  - cbn [dag_layers_fuel] in Hlayer. destruct d as [|n rest]; [by apply elem_of_nil in Hlayer|].
    apply elem_of_cons in Hlayer as [->|Hlayer].
    + by apply front_layer_subseteq.
    + eapply foldr_remove_op_node_subseteq. by apply IH.
Qed.

Lemma slice_to_subseteq {A} (k : Z) (l : list A) (x : A) : x ∈ slice_to k l -> x ∈ l.
Proof.
  unfold slice_to. case_decide; intros Hin; apply list_elem_of_lookup in Hin as [i Hi];
    apply lookup_take_Some in Hi as [Hi _]; by eapply list_elem_of_lookup_2.
Qed.

Lemma merge_sort_two (a b : nat) :
  merge_sort Nat.le [a; b] = if decide (a <= b) then [a; b] else [b; a].
Proof.
  unfold merge_sort. cbn. change (Nat.le a b) with (a <= b). by destruct (decide (a <= b)).
Qed.

Lemma visit_returns (n i : nat) (qi : gmap (nat * nat) Z) (op_node : DAGOpNode) :
  (forall key, key ∈ QubitInteractions.pairs n -> is_Some (qi !! key)) ->
  (length (qargs op_node) = 2 ->
   exists a b, qargs op_node = [a; b] /\ a <> b /\ a < n /\ b < n) ->
  exists qi', QubitInteractions.visit i qi op_node = Ok qi' /\
              forall key, key ∈ QubitInteractions.pairs n -> is_Some (qi' !! key).
Proof.
  intros Hdom Hop.
  assert (Hrun : exists qi', QubitInteractions.visit i qi op_node = Ok qi').
  { unfold QubitInteractions.visit. case_decide as Hlen; [|by eexists].
    destruct (Hop Hlen) as (a & b & -> & Hne & Ha & Hb). rewrite merge_sort_two.
    destruct (decide (a <= b)).
    - destruct (Hdom (a, b)) as [v ->]; [apply elem_of_pairs; lia|]. by eexists.
    - destruct (Hdom (b, a)) as [v ->]; [apply elem_of_pairs; lia|]. by eexists. }
  destruct Hrun as [qi' Hrun]. exists qi'. split; [done|]. intros key Hkey.
  rewrite (visit_lookup _ _ _ _ key Hrun). apply fmap_is_Some. by apply Hdom.
Qed.

Lemma visit_layer_returns (n i : nat) (layer : list DAGOpNode) : forall qi : gmap (nat * nat) Z,
  (forall key, key ∈ QubitInteractions.pairs n -> is_Some (qi !! key)) ->
  (forall op_node, op_node ∈ layer -> length (qargs op_node) = 2 ->
     exists a b, qargs op_node = [a; b] /\ a <> b /\ a < n /\ b < n) ->
  exists qi', QubitInteractions.visit_layer i qi layer = Ok qi' /\
              forall key, key ∈ QubitInteractions.pairs n -> is_Some (qi' !! key).
Proof.
  induction layer as [|op_node rest IH]; intros qi Hdom Hops; [by exists qi|].
  destruct (visit_returns n i qi op_node Hdom) as (qi1 & Hrun & Hdom1).
  { apply Hops. by left. }
  destruct (IH qi1 Hdom1) as (qi' & Hrest & Hdom').
  { intros o Ho. apply Hops. by right. }
  exists qi'. split; [|done]. cbn [QubitInteractions.visit_layer]. by rewrite Hrun.
Qed.

Lemma visit_layers_returns (n : nat) (layers : list (list DAGOpNode)) :
  forall (i : nat) (qi : gmap (nat * nat) Z),
    (forall key, key ∈ QubitInteractions.pairs n -> is_Some (qi !! key)) ->
    (forall layer op_node, layer ∈ layers -> op_node ∈ layer -> length (qargs op_node) = 2 ->
       exists a b, qargs op_node = [a; b] /\ a <> b /\ a < n /\ b < n) ->
    exists qi', QubitInteractions.visit_layers i qi layers = Ok qi'.
Proof.
  induction layers as [|layer rest IH]; intros i qi Hdom Hops; [by exists qi|].
  destruct (visit_layer_returns n i layer qi Hdom) as (qi1 & Hrun & Hdom1).
  { intros o Ho. apply (Hops layer); [by left|done]. }
  destruct (IH (S i) qi1 Hdom1) as [qi' Hrest].
  { intros l o Hl. apply Hops. by right. }
  exists qi'. cbn [QubitInteractions.visit_layers]. by rewrite Hrun.
Qed.

(** [QubitInteractions.obs] returns when every operation of the DAG on two
    qubits acts on two different qubits of the device. *)
Lemma qubit_interactions_returns (max_depth : Z) (env : RoutingEnv) :
  (forall op_node, op_node ∈ dag env -> length (qargs op_node) = 2 ->
     exists a b, qargs op_node = [a; b] /\ a <> b /\ a < num_qubits env /\ b < num_qubits env) ->
  exists v, QubitInteractions.obs max_depth env = Ok v.
Proof.
  intros Hops. unfold QubitInteractions.obs. cbv zeta.
  destruct (visit_layers_returns (num_qubits env)
              (slice_to max_depth (dag_layers (dag env))) 0
              (list_to_map (map (fun key => (key, (-1)%Z))
                                (QubitInteractions.pairs (num_qubits env)))))
    as [qi ->].
  - intros key Hkey. rewrite initial_interactions_lookup. by rewrite decide_True.
  - intros layer op_node Hlayer Hop. apply Hops.
    apply (dag_layers_subseteq _ layer); [|done]. by apply slice_to_subseteq in Hlayer.
  - by eexists.
Qed.

(** ** The circuit-matrix observation *)

Lemma setitem2_shaped (n depth : nat) (env : RoutingEnv) (circuit circuit' : list (list Z))
    (row col : nat) (x : Z) :
  matrix_shaped n depth env circuit -> matrix_entry env x ->
  CircuitMatrix.setitem2 circuit row col x = Ok circuit' ->
  matrix_shaped n depth env circuit'.
Proof.
  intros [Hlen Hrows] Hx. unfold CircuitMatrix.setitem2, getitem, setitem.
  destruct (circuit !! row) as [r|] eqn:Hr; [|done]. cbn [obind].
  case_decide as Hcol; [|done]. cbn [obind]. case_decide as Hrow; [|done]. intros [= <-].
  split; [by rewrite length_insert|]. apply Forall_insert; [done|].
  rewrite Forall_forall in Hrows. destruct (Hrows r) as [Hr1 Hr2].
  { by eapply list_elem_of_lookup_2. }
  split; [by rewrite length_insert|]. by apply Forall_insert.
Qed.

Lemma setitem2_returns (n depth : nat) (env : RoutingEnv) (circuit : list (list Z))
    (row col : nat) (x : Z) :
  matrix_shaped n depth env circuit -> row < n -> col < depth ->
  exists circuit', CircuitMatrix.setitem2 circuit row col x = Ok circuit'.
Proof.
  intros [Hlen Hrows] Hrow Hcol. unfold CircuitMatrix.setitem2, getitem, setitem.
  destruct (lookup_lt_is_Some_2 circuit row) as [r Hr]; [lia|]. rewrite Hr. cbn [obind].
  rewrite Forall_forall in Hrows. destruct (Hrows r) as [Hr1 _].
  { by eapply list_elem_of_lookup_2. }
  rewrite decide_True by lia. cbn [obind]. rewrite decide_True by lia. by eexists.
Qed.

Lemma fill_shaped (n depth : nat) (env : RoutingEnv) (ops : list DAGOpNode) :
  forall layer_idx layer_qubits circuit circuit',
    matrix_shaped n depth env circuit ->
    CircuitMatrix.fill depth env ops layer_idx layer_qubits circuit = Ok circuit' ->
    matrix_shaped n depth env circuit'.
Proof.
  induction ops as [|op_node rest IH]; intros layer_idx layer_qubits circuit circuit' Hshape.
  - by intros [= <-].
  - cbn [CircuitMatrix.fill]. cbv zeta.
    destruct (_ && _); [by intros [= <-]|].
    destruct (qargs op_node) as [|idx_a [|idx_b [|? ?]]]; try done.
    unfold getitem at 1.
    destruct (qubit_to_node env !! idx_b) as [node_b|] eqn:Hb; [|done]. cbn [obind].
    destruct (CircuitMatrix.setitem2 circuit idx_a _ _) as [c1|] eqn:H1; [|done]. cbn [obind].
    unfold getitem at 1.
    destruct (qubit_to_node env !! idx_a) as [node_a|] eqn:Ha; [|done]. cbn [obind].
    destruct (CircuitMatrix.setitem2 c1 idx_b _ _) as [c2|] eqn:H2; [|done]. cbn [obind].
    assert (Hea : matrix_entry env (Z.of_nat node_a)) by (right; eauto).
    assert (Heb : matrix_entry env (Z.of_nat node_b)) by (right; eauto).
    apply IH. apply (setitem2_shaped n depth env c1 c2 _ _ _ (setitem2_shaped n depth env circuit c1 _ _ _ Hshape Heb H1) Hea H2).
Qed.

Lemma matrix_shaped_initial (n depth : nat) (env : RoutingEnv) :
  matrix_shaped n depth env (replicate n (replicate depth (-1)%Z)).
Proof.
  split; [by rewrite length_replicate|]. apply Forall_replicate.
  split; [by rewrite length_replicate|]. apply Forall_replicate. by left.
Qed.

Lemma matrix_rows (env : RoutingEnv) (circuit : list (list Z)) (qs : list nat) :
  forall m,
    map_outcome (fun q => try k <- getitem (node_to_qubit env) q; getitem circuit k) qs = Ok m ->
    length m = length qs /\ Forall (fun row => row ∈ circuit) m.
Proof.
  induction qs as [|q qs IH]; intros m; cbn [map_outcome].
  - by intros [= <-].
  - unfold getitem at 1. destruct (node_to_qubit env !! q) as [k|]; [|done]. cbn [obind].
    unfold getitem at 1. destruct (circuit !! k) as [row|] eqn:Hrow; [|done]. cbn [obind].
    destruct (map_outcome _ qs) as [m'|]; [|done]. cbn [obind]. intros [= <-].
    destruct (IH m' eq_refl) as [Hlen Hall]. split; [simpl; by rewrite Hlen|].
    constructor; [|done]. by eapply list_elem_of_lookup_2.
Qed.

Lemma matrix_entry_bounds (env : RoutingEnv) (x : Z) :
  mutual_inverses env -> matrix_entry env x -> (-1 <= x <= Z.of_nat (num_qubits env) - 1)%Z.
Proof.
  intros (Hl1 & Hl2 & _ & Hinv) [->|(idx & node & Hnode & ->)]; [lia|].
  apply Hinv in Hnode. apply lookup_lt_Some in Hnode. lia.
Qed.

Lemma circuit_matrix_shaped (depth : nat) (env : RoutingEnv) (m : list (list Z)) :
  CircuitMatrix.obs depth env = Ok m -> matrix_shaped (num_qubits env) depth env m.
Proof.
  unfold CircuitMatrix.obs. cbv zeta.
  destruct (CircuitMatrix.fill _ _ _ _ _ _) as [circuit|] eqn:Hfill; [|done]. cbn [obind].
  intros Hrows. apply matrix_rows in Hrows as [Hlen Hall].
  apply fill_shaped with (n := num_qubits env) in Hfill; [|apply matrix_shaped_initial].
  destruct Hfill as [_ Hshape]. split; [by rewrite Hlen, length_seq|].
  rewrite Forall_forall in Hshape. eapply Forall_impl; [exact Hall|]. intros row Hrow.
  by apply Hshape.
Qed.

(** X21. When [CircuitMatrix.obs] returns, the matrix has the shape
    [CircuitMatrix.space] declares, one row per node and [depth] entries per
    row, and every entry is -1 or an entry of [qubit_to_node]; when the two
    mapping arrays are mutual inverses, every entry lies inside the declared
    bounds -1 and [num_qubits - 1]. *)
Theorem circuit_matrix_obs_in_space (depth : nat) (env : RoutingEnv) (m : list (list Z)) :
  CircuitMatrix.obs depth env = Ok m ->
  [length m; depth] = box_shape (CircuitMatrix.space depth env) /\
  Forall (fun row => length row = depth /\ Forall (matrix_entry env) row) m /\
  (mutual_inverses env ->
   Forall (Forall (fun x => (box_low (CircuitMatrix.space depth env) <= x
                             <= box_high (CircuitMatrix.space depth env))%Z)) m).
Proof.
  intros Hobs. apply circuit_matrix_shaped in Hobs as [Hlen Hrows].
  split; [cbn; by rewrite Hlen|]. split; [done|]. intros Hinv.
  eapply Forall_impl; [exact Hrows|]. intros row [_ Hrow].
  eapply Forall_impl; [exact Hrow|]. intros x Hx. cbn. by apply matrix_entry_bounds.
Qed.

Lemma fill_returns (n depth : nat) (env : RoutingEnv) (ops : list DAGOpNode) :
  mutual_inverses env -> n = num_qubits env ->
  (forall op_node, op_node ∈ ops ->
     exists a b, qargs op_node = [a; b] /\ a < n /\ b < n) ->
  forall layer_idx layer_qubits circuit,
    layer_idx < depth ->
    matrix_shaped n depth env circuit ->
    exists circuit', CircuitMatrix.fill depth env ops layer_idx layer_qubits circuit = Ok circuit'.
Proof.
  intros (Hl1 & Hl2 & _ & _) Hn. induction ops as [|op_node rest IH];
    intros Hops layer_idx layer_qubits circuit Hidx Hshape.
  - by eexists.
  - cbn [CircuitMatrix.fill]. cbv zeta.
    destruct (Hops op_node) as (a & b & Hq & Ha & Hb); [by left|]. rewrite Hq.
    set (overlap := existsb _ [a; b]).
    set (layer_idx' := if overlap then S layer_idx else layer_idx).
    destruct (overlap && bool_decide (layer_idx' = depth)) eqn:Hbreak; [by eexists|].
    assert (Hidx' : layer_idx' < depth).
    { unfold layer_idx' in *. destruct overlap; [|done]. cbn in Hbreak.
      apply bool_decide_eq_false in Hbreak. lia. }
    destruct (lookup_lt_is_Some_2 (qubit_to_node env) b) as [node_b Hnb]; [lia|].
    destruct (lookup_lt_is_Some_2 (qubit_to_node env) a) as [node_a Hna]; [lia|].
    assert (Hea : matrix_entry env (Z.of_nat node_a)) by (right; eauto).
    assert (Heb : matrix_entry env (Z.of_nat node_b)) by (right; eauto).
    rewrite (getitem_Some _ _ _ Hnb). cbn [obind].
    destruct (setitem2_returns n depth env circuit a layer_idx' (Z.of_nat node_b))
      as [c1 H1]; [done..|].
    rewrite H1. cbn [obind]. rewrite (getitem_Some _ _ _ Hna). cbn [obind].
    assert (Hc1 : matrix_shaped n depth env c1).
    { exact (setitem2_shaped n depth env circuit c1 _ _ _ Hshape Heb H1). }
    destruct (setitem2_returns n depth env c1 b layer_idx' (Z.of_nat node_a))
      as [c2 H2]; [done..|].
    rewrite H2. cbn [obind]. apply IH; [|done|].
    + intros o Ho. apply Hops. by right.
    + exact (setitem2_shaped n depth env c1 c2 _ _ _ Hc1 Hea H2).
Qed.

Lemma matrix_rows_return (env : RoutingEnv) (circuit : list (list Z)) (qs : list nat) :
  (forall q, q ∈ qs -> exists k, node_to_qubit env !! q = Some k /\ k < length circuit) ->
  exists m,
    map_outcome (fun q => try k <- getitem (node_to_qubit env) q; getitem circuit k) qs = Ok m.
Proof.
  induction qs as [|q qs IH]; intros Hqs; [by eexists|]. cbn [map_outcome].
  destruct (Hqs q) as (k & Hk & Hlt); [by left|].
  rewrite (getitem_Some _ _ _ Hk). cbn [obind].
  destruct (lookup_lt_is_Some_2 circuit k Hlt) as [row Hrow].
  rewrite (getitem_Some _ _ _ Hrow). cbn [obind].
  destruct IH as [m ->]; [intros q' Hq'; apply Hqs; by right|]. by eexists.
Qed.

(** [CircuitMatrix.obs] returns when the depth is positive, the two mapping
    arrays are mutual inverses and every operation of the DAG on two qubits
    acts on qubits of the device. *)
Lemma circuit_matrix_returns (depth : nat) (env : RoutingEnv) :
  0 < depth ->
  mutual_inverses env ->
  (forall op_node, op_node ∈ dag env -> length (qargs op_node) = 2 ->
     forall q, q ∈ qargs op_node -> q < num_qubits env) ->
  exists m, CircuitMatrix.obs depth env = Ok m.
Proof.
  intros Hdepth Hinv Hops. unfold CircuitMatrix.obs. cbv zeta.
  destruct (fill_returns (num_qubits env) depth env
              (filter (fun op_node => length (qargs op_node) = 2) (dag env)) Hinv eq_refl)
    with (layer_idx := 0) (layer_qubits := (∅ : gset nat))
         (circuit := replicate (num_qubits env) (replicate depth (-1)%Z))
    as [circuit Hfill].
  - intros op_node Hin. apply list_elem_of_filter in Hin as [Hlen Hin].
    destruct (qargs op_node) as [|a [|b [|? ?]]] eqn:Hq; try done.
    exists a, b. split; [done|]. split; apply (Hops op_node Hin); rewrite ?Hq; try done.
    + apply elem_of_cons. by left.
    + apply elem_of_cons. right. apply elem_of_cons. by left.
  - done.
  - apply matrix_shaped_initial.
  - rewrite Hfill. cbn [obind].
    apply fill_shaped with (n := num_qubits env) in Hfill as [Hlen _];
      [|apply matrix_shaped_initial].
    apply matrix_rows_return. intros q Hq. apply elem_of_seq in Hq.
    destruct Hinv as (Hl1 & Hl2 & Hn2q & _).
    destruct (lookup_lt_is_Some_2 (node_to_qubit env) q) as [k Hk]; [lia|].
    exists k. split; [done|]. apply Hn2q in Hk. apply lookup_lt_Some in Hk. lia.
Qed.

(** ** The observations of the reachable states *)

Lemma built_for_progresses (a : InitArgs) (s s' : RoutingEnv) :
  progresses s s' -> built_for a s -> built_for a s'.
Proof.
  intros (Hdag & _ & _ & Hc) (Hsub & Hcirc & Hmap). unfold built_for. rewrite Hc.
  split; [|done]. intros op_node Hin. apply Hsub. by eapply elem_of_sublist.
Qed.

Lemma __init___built_for (a : InitArgs) (env : RoutingEnv) :
  __init__ a = Ok env -> built_for a env.
Proof.
  unfold __init__. case_decide; [done|]. case_decide; [done|].
  match goal with |- context [fill_qubit_to_node ?e] => set (env0 := e) end.
  assert (Hfill : preserves (fun s => (config s, dag s)) fill_qubit_to_node).
  { unfold fill_qubit_to_node. frame. }
  specialize (Hfill env0). cbv beta in Hfill.
  destruct (fill_qubit_to_node env0) as [[[]|e] env1]; [|done]. cbn [snd] in Hfill.
  injection Hfill as Hc Hd. intros [= <-].
  assert (Hbuilt : built_for a env1).
  { unfold built_for. rewrite Hc, Hd. done. }
  destruct (noise_aware env1); [|done].
  revert Hbuilt. unfold built_for, calibrate_env. by destruct (noise_config (config env1)).
Qed.

Lemma reset_circuit_built_for (a : InitArgs) (env : RoutingEnv) :
  built_for a env -> built_for a (reset_circuit env).2.
Proof.
  intros (_ & Hcirc & Hmap). unfold built_for, reset_circuit, bind, modify, gets, ret, id.
  cbn. destruct (commutation_analysis (config env)); cbn; by rewrite Hcirc.
Qed.

Lemma reset_mapping_progresses : advances progresses reset_mapping.
Proof.
  apply (advances_preserves progresses circuit_state); [apply progresses_ext|].
  unfold reset_mapping, fill_qubit_to_node. frame.
Qed.

Lemma calibrate_progresses (rates : list Q) : advances progresses (calibrate rates).
Proof.
  apply (advances_preserves progresses circuit_state); [apply progresses_ext|].
  unfold calibrate. apply preserves_modify. intros s. unfold calibrate_env.
  by destruct (noise_config (config s)).
Qed.

Lemma lay_super_run {A} (m : M RoutingEnv A) (s : LayeredRoutingEnv) :
  Layered.super m s = ((m (lay_base s)).1, lay_set_base (m (lay_base s)).2 s).
Proof. done. Qed.

Lemma seq_reset_built_for (a : InitArgs) (env : SequentialRoutingEnv) :
  built_for a (seq_base env) -> built_for a (seq_base (Sequential.reset env).2).
Proof.
  intros Hbuilt. apply (reset_circuit_built_for a) in Hbuilt.
  unfold Sequential.reset. unfold bind at 1.
  rewrite seq_super_run.
  destruct (reset_circuit (seq_base env)) as [[[]|e] b1]; [|done]. cbn [fst snd] in *.
  assert (Hrest : advances (fun s s' => progresses (seq_base s) (seq_base s'))
            (Sequential.super reset_mapping ;; Sequential.super Sequential._update_state ;;
             Sequential.current_obs)).
  { pose proof (seq_super_progresses _ reset_mapping_progresses). progress_variant. }
  exact (built_for_progresses a _ _ (Hrest (seq_set_base b1 env)) Hbuilt).
Qed.

Lemma lay_reset_built_for (a : InitArgs) (env : LayeredRoutingEnv) :
  built_for a (lay_base env) -> built_for a (lay_base (Layered.reset env).2).
Proof.
  intros Hbuilt. apply (reset_circuit_built_for a) in Hbuilt.
  unfold Layered.reset. unfold bind at 1.
  rewrite lay_super_run.
  destruct (reset_circuit (lay_base env)) as [[[]|e] b1]; [|done]. cbn [fst snd] in *.
  assert (Hrest : advances (fun s s' => progresses (lay_base s) (lay_base s'))
            (Layered._reset_state ;; Layered.current_obs)).
  { pose proof (lay_super_progresses _ reset_mapping_progresses).
    pose proof lay_update_state_progresses.
    unfold Layered._reset_state. progress_variant. }
  exact (built_for_progresses a _ _ (Hrest (lay_set_base b1 env)) Hbuilt).
Qed.

Lemma seq_reachable_built_for (a : InitArgs) (restrict : bool) (env : SequentialRoutingEnv) :
  seq_reachable a restrict env -> built_for a (seq_base env).
Proof.
  induction 1 as [env Hinit|env _ IH|env action _ IH|env rates _ IH].
  - unfold Sequential.__init__ in Hinit. destruct (__init__ a) as [b|] eqn:Hb; [|done].
    injection Hinit as <-. by apply __init___built_for.
  - by apply seq_reset_built_for.
  - eapply built_for_progresses; [apply seq_step_progresses|done].
  - eapply built_for_progresses; [|exact IH].
    apply (seq_super_progresses _ (calibrate_progresses rates)).
Qed.

Lemma lay_reachable_built_for (a : InitArgs) (decomposed : bool) (env : LayeredRoutingEnv) :
  lay_reachable a decomposed env -> built_for a (lay_base env).
Proof.
  induction 1 as [env Hinit|env _ IH|env action _ IH|env rates _ IH].
  - unfold Layered.__init__ in Hinit. destruct (__init__ a) as [b|] eqn:Hb; [|done].
    injection Hinit as <-. by apply __init___built_for.
  - by apply lay_reset_built_for.
  - eapply built_for_progresses; [apply lay_step_progresses|done].
  - eapply built_for_progresses; [|exact IH].
    apply (lay_super_progresses _ (calibrate_progresses rates)).
Qed.

(** X20. In every reachable state of either variant, built for a circuit
    whose operations on two qubits act on two different qubits of the
    device, [QubitInteractions.obs] returns, whatever the depth: the read of
    the dictionary never raises [KeyError]. *)
Theorem qubit_interactions_obs_returns (a : InitArgs) (max_depth : Z) :
  (forall op_node, op_node ∈ default [] (arg_circuit a) -> length (qargs op_node) = 2 ->
     exists q1 q2, qargs op_node = [q1; q2] /\ q1 <> q2 /\
                   q1 < num_nodes (arg_coupling_map a) /\ q2 < num_nodes (arg_coupling_map a)) ->
  (forall restrict env, seq_reachable a restrict env ->
     exists v, QubitInteractions.obs max_depth (seq_base env) = Ok v) /\
  (forall decomposed env, lay_reachable a decomposed env ->
     exists v, QubitInteractions.obs max_depth (lay_base env) = Ok v).
Proof.
  intros Hcircuit.
  assert (Hbase : forall env, built_for a env ->
            exists v, QubitInteractions.obs max_depth env = Ok v).
  { intros env (Hsub & _ & Hmap). apply qubit_interactions_returns.
    intros op_node Hin. unfold num_qubits. rewrite Hmap. apply Hcircuit. by apply Hsub. }
  split.
  - intros restrict env Hreach. apply Hbase. by apply (seq_reachable_built_for a restrict).
  - intros decomposed env Hreach. apply Hbase. by apply (lay_reachable_built_for a decomposed).
Qed.

(** X22. In every reachable state of a sequential environment whose initial
    mapping is a permutation of the nodes, built for a circuit whose
    operations on two qubits act on qubits of the device,
    [CircuitMatrix.obs] with a positive depth returns a matrix of the
    declared shape whose entries lie inside the declared bounds. *)
Theorem circuit_matrix_obs_reachable (a : InitArgs) (restrict : bool) (depth : nat)
    (env : SequentialRoutingEnv) :
  (forall m, arg_initial_mapping a = Some m -> m ≡ₚ seq 0 (num_nodes (arg_coupling_map a))) ->
  (forall op_node, op_node ∈ default [] (arg_circuit a) -> length (qargs op_node) = 2 ->
     forall q, q ∈ qargs op_node -> q < num_nodes (arg_coupling_map a)) ->
  0 < depth ->
  seq_reachable a restrict env ->
  exists m,
    CircuitMatrix.obs depth (seq_base env) = Ok m /\
    [length m; depth] = box_shape (CircuitMatrix.space depth (seq_base env)) /\
    Forall (fun row => length row = depth) m /\
    Forall (Forall (fun x => (box_low (CircuitMatrix.space depth (seq_base env)) <= x
                              <= box_high (CircuitMatrix.space depth (seq_base env)))%Z)) m.
Proof.
  intros Hperm Hcircuit Hdepth Hreach.
  destruct (seq_reachable_well_mapped a restrict env Hperm Hreach) as [Hinv _].
  destruct (seq_reachable_built_for a restrict env Hreach) as (Hsub & _ & Hmap).
  destruct (circuit_matrix_returns depth (seq_base env) Hdepth Hinv) as [m Hobs].
  { intros op_node Hin. unfold num_qubits. rewrite Hmap. apply Hcircuit. by apply Hsub. }
  exists m. split; [done|]. apply circuit_matrix_shaped in Hobs as [Hlen Hrows].
  split; [cbn; by rewrite Hlen|]. split.
  - eapply Forall_impl; [exact Hrows|]. by intros row [? _].
  - eapply Forall_impl; [exact Hrows|]. intros row [_ Hrow].
    eapply Forall_impl; [exact Hrow|]. intros x Hx. cbn. by apply matrix_entry_bounds.
Qed.

(** ** A plain environment never raises *)

Section plain.
Variable a : InitArgs.
Hypothesis Hplain : plain_args a.

Lemma sound_num_qubits (s : RoutingEnv) :
  sound a s -> num_qubits s = num_nodes (arg_coupling_map a).
Proof. intros (_ & _ & Hc). unfold num_qubits. by rewrite Hc. Qed.

Lemma sound_progresses (s s' : RoutingEnv) :
  progresses s s' -> mutual_inverses s' -> sound a s -> sound a s'.
Proof.
  intros (Hdag & _ & _ & Hc) Hinv (_ & Hsub & Hcfg). split; [done|]. split.
  - intros op_node Hin. apply Hsub. by eapply elem_of_sublist.
  - by rewrite Hc.
Qed.

Lemma mapped_nodes_returns (s : RoutingEnv) (indices : list nat) :
  sound a s -> (forall q, q ∈ indices -> q < num_nodes (arg_coupling_map a)) ->
  exists nodes, mapped_nodes s indices = Ok nodes.
Proof.
  intros Hs Hq. pose proof (sound_num_qubits s Hs) as Hn. destruct Hs as ((_ & Hl2 & _) & _).
  unfold mapped_nodes. induction indices as [|q indices IH]; [by eexists|].
  cbn [map_outcome]. destruct (lookup_lt_is_Some_2 (qubit_to_node s) q) as [node Hnode].
  { rewrite Hl2, Hn. apply Hq. by left. }
  rewrite (getitem_Some _ _ _ Hnode). cbn [obind].
  destruct IH as [nodes ->]; [intros q' Hq'; apply Hq; by right|]. by eexists.
Qed.

Lemma dag_mapped_nodes_returns (s : RoutingEnv) (op_node : DAGOpNode) :
  sound a s -> op_node ∈ dag s -> exists nodes, mapped_nodes s (qargs op_node) = Ok nodes.
Proof.
  intros Hs Hin. apply mapped_nodes_returns; [done|]. intros q Hq.
  destruct Hplain as (_ & Hcirc & _). apply (Hcirc op_node); [|done].
  destruct Hs as (_ & Hsub & _). by apply Hsub.
Qed.

Lemma schedulable_loop_returns (s : RoutingEnv) (op_nodes : list DAGOpNode) :
  sound a s -> (forall op_node, op_node ∈ op_nodes -> op_node ∈ dag s) ->
  forall ls, exists ls', schedulable_loop s op_nodes ls = Ok ls'.
Proof.
  intros Hs. induction op_nodes as [|op_node rest IH]; intros Hops ls; [by eexists|].
  cbn [schedulable_loop].
  assert (Hvisit : exists ls1, visit_op_node s ls op_node = Ok ls1).
  { unfold visit_op_node.
    destruct (dag_mapped_nodes_returns s op_node Hs) as [nodes ->]; [apply Hops; by left|].
    cbn [obind]. destruct (_is_schedulable s nodes ls.2); [by eexists|].
    destruct Hs as (_ & _ & Hc). destruct Hplain as (_ & _ & _ & _ & _ & Hcomm).
    rewrite Hc. cbn [commutation_analysis config_of]. rewrite Hcomm. by eexists. }
  destruct Hvisit as [ls1 ->]. cbn [obind]. case_decide; [by eexists|].
  apply IH. intros o Ho. apply Hops. by right.
Qed.

Lemma _schedulable_gates_returns (s : RoutingEnv) (only_front_layer : bool) :
  sound a s -> exists gates, _schedulable_gates s only_front_layer = Ok gates.
Proof.
  intros Hs. unfold _schedulable_gates.
  destruct (schedulable_loop_returns s
              (concat (if only_front_layer then [front_layer (dag s)] else dag_layers (dag s)))
              Hs) with (ls := (([] : list (DAGOpNode * list nat)), (∅ : gset nat)))
    as [ls ->]; [|by eexists].
  intros op_node Hin. apply list_elem_of_In, in_concat in Hin as (layer & Hlayer & Hop). apply list_elem_of_In in Hlayer, Hop.
  destruct only_front_layer.
  - apply list_elem_of_singleton in Hlayer as ->. by apply front_layer_subseteq.
  - by apply (dag_layers_subseteq _ layer).
Qed.

Lemma _schedule_gates_returns (s : RoutingEnv) (gates : list (DAGOpNode * list nat)) :
  sound a s -> exists s', _schedule_gates gates s = (Ok tt, s').
Proof.
  intros (_ & _ & Hc). destruct (schedule_loop gates s) as (s1 & Hrun & _ & _ & _ & Hmap & _).
  unfold _schedule_gates. rewrite (bind_ok _ _ _ _ _ Hrun). unfold bind, modify, call.
  assert (Hnoise : noise_config (config (set_scheduling_result (length gates)
                                           (_scheduling_reward s1) s1)) = None).
  { cbn [config set_scheduling_result]. unfold mapping_of in Hmap. injection Hmap as -> _ _.
    rewrite Hc. apply Hplain. }
  destruct (sum_gate_rewards_unaware _ gates Hnoise 0%Q) as (r & -> & _). by eexists.
Qed.

Lemma total_sound {A} (m : M RoutingEnv A) (P : RoutingEnv -> Prop) :
  (forall s, sound a s -> P s -> exists x s', m s = (Ok x, s')) ->
  maintains mutual_inverses m -> advances progresses m ->
  total (fun s => sound a s /\ P s) m (fun _ s' => sound a s').
Proof.
  intros Hret Hinv Hprog s [Hs HP]. destruct (Hret s Hs HP) as (x & s' & Hrun).
  exists x, s'. split; [done|]. specialize (Hinv s (proj1 Hs)). specialize (Hprog s).
  rewrite Hrun in Hinv, Hprog. by apply (sound_progresses s s').
Qed.

Lemma maintains_mapping {A} (m : M RoutingEnv A) :
  preserves mapping_of m -> maintains mutual_inverses m.
Proof. intros H s Hs. eapply mutual_inverses_ext; [|exact Hs]. symmetry. apply H. Qed.

Lemma _swap_total (edge : nat * nat) :
  total (fun s => sound a s /\ edge ∈ graph_edge_list (arg_coupling_map a))
        (_swap edge) (fun _ s' => sound a s').
Proof.
  apply total_sound; [|apply _swap_mutual_inverses|apply _swap_progresses].
  intros s Hs Hedge. pose proof (sound_num_qubits s Hs) as Hn.
  destruct Hs as ((Hl1 & Hl2 & H12 & _) & _).
  destruct Hplain as (_ & _ & Hedges & _). destruct (Hedges edge Hedge) as [H1 H2].
  destruct edge as [x y]. cbn [fst snd] in H1, H2.
  destruct (lookup_lt_is_Some_2 (node_to_qubit s) x) as [qx Hqx]; [lia|].
  destruct (lookup_lt_is_Some_2 (node_to_qubit s) y) as [qy Hqy]; [lia|].
  eexists tt, _. apply (_swap_eq s x y qx qy Hqx Hqy).
  - apply H12 in Hqx. by apply lookup_lt_Some in Hqx.
  - apply H12 in Hqy. by apply lookup_lt_Some in Hqy.
Qed.

Lemma _remove_op_node_total (op_node : DAGOpNode) :
  total (fun s => sound a s /\ True) (_remove_op_node op_node) (fun _ s' => sound a s').
Proof.
  apply total_sound.
  - intros s _ _. by eexists tt, _.
  - apply maintains_mapping, _remove_op_node_mapping.
  - apply _remove_op_node_progresses.
Qed.

Lemma _bridge_total (control middle target : nat) :
  total (fun s => sound a s /\ True) (_bridge control middle target) (fun _ s' => sound a s').
Proof.
  apply total_sound.
  - intros s _ _. by eexists tt, _.
  - apply maintains_mapping, _bridge_mapping.
  - apply _bridge_progresses.
Qed.

Lemma seq_update_state_total :
  total (fun s => sound a s /\ True) Sequential._update_state (fun _ s' => sound a s').
Proof.
  apply total_sound.
  - intros s Hs _. unfold Sequential._update_state, bind, call.
    destruct (_schedulable_gates_returns s false Hs) as [gates ->].
    destruct (_schedule_gates_returns s gates Hs) as [s' Hrun]. by exists tt, s'.
  - apply maintains_mapping, seq_update_state_mapping.
  - apply seq_update_state_progresses.
Qed.

Lemma seq_super_total {A} (m : M RoutingEnv A) (P : RoutingEnv -> Prop) :
  total (fun s => sound a s /\ P s) m (fun _ s' => sound a s') ->
  total (fun env => seq_sound a env /\ P (seq_base env)) (Sequential.super m)
        (fun _ env' => seq_sound a env').
Proof.
  intros Hm env [[Hs Hblocked] HP]. destruct (Hm (seq_base env) (conj Hs HP)) as (x & s' & Hrun & Hs').
  exists x, (seq_set_base s' env). rewrite seq_super_run, Hrun. split; [done|]. by split.
Qed.

Lemma mapped_nodes_bound (s : RoutingEnv) (indices nodes : list nat) :
  mutual_inverses s -> mapped_nodes s indices = Ok nodes ->
  forall node, node ∈ nodes -> node < num_qubits s.
Proof.
  intros (Hl1 & _ & _ & H21) Hrun node Hin. unfold mapped_nodes in Hrun.
  revert nodes Hrun Hin. induction indices as [|q indices IH]; intros nodes; cbn [map_outcome].
  - intros [= <-] Hin. by apply elem_of_nil in Hin.
  - unfold getitem at 1. destruct (qubit_to_node s !! q) as [x|] eqn:Hx; [|done]. cbn [obind].
    destruct (map_outcome _ indices) as [rest|]; [|done]. cbn [obind]. intros [= <-] Hin.
    apply elem_of_cons in Hin as [->|Hin]; [|by apply (IH rest)].
    apply H21 in Hx. apply lookup_lt_Some in Hx. lia.
Qed.

Lemma bridge_pairs_distance (s : RoutingEnv) (pair : nat * nat) :
  sound a s -> pair ∈ bridge_pairs (config s) ->
  pair.1 < pair.2 /\ graph_distance_matrix (arg_coupling_map a) pair.1 pair.2 = 2.
Proof.
  intros (_ & _ & Hc). rewrite Hc. cbn [bridge_pairs config_of].
  destruct (arg_allow_bridge_gate a); [|by intros H; apply elem_of_nil in H].
  destruct pair as [j i]. intros Hin.
  apply (proj1 (distance_two_pairs_elems (arg_coupling_map a))) in Hin. cbn. tauto.
Qed.

Lemma _bridge_args_returns (s : RoutingEnv) (pair : nat * nat) :
  sound a s ->
  exists o, _bridge_args s pair = Ok o /\
            (pair ∈ bridge_pairs (config s) ->
             forall op_node nodes, o = Some (op_node, nodes) -> length nodes = 3).
Proof.
  intros Hs. unfold _bridge_args.
  destruct (bridge_args_in_spec s pair (front_layer (dag s)))
    as [(op_node & control & target & Hres & _ & _ & Hnodes & Hsort)|[Hres _]].
  - intros op_node Hin _. apply (dag_mapped_nodes_returns s op_node Hs).
    by apply front_layer_subseteq.
  - exists (Some (op_node, shortest_paths s control target)). split; [done|].
    intros Hpair op_node' nodes [= _ <-].
    destruct (bridge_pairs_distance s pair Hs Hpair) as [Hlt Hdist].
    pose proof (sound_num_qubits s Hs) as Hn.
    assert (Hc : control < num_qubits s).
    { apply (mapped_nodes_bound s _ _ (proj1 Hs) Hnodes). apply elem_of_cons. by left. }
    assert (Ht : target < num_qubits s).
    { apply (mapped_nodes_bound s _ _ (proj1 Hs) Hnodes). apply elem_of_cons. right.
      apply elem_of_cons. by left. }
    destruct Hplain as (_ & _ & _ & Hpaths & _). unfold shortest_paths.
    destruct Hs as (_ & _ & Hcfg). rewrite Hcfg. cbn [coupling_map config_of].
    apply Hpaths; [lia|lia|]. rewrite merge_sort_two in Hsort.
    destruct (decide (control <= target)); injection Hsort as H1 H2;
      rewrite <- H1, <- H2 in Hdist.
    + by rewrite Nat.min_l, Nat.max_r by lia.
    + by rewrite Nat.min_r, Nat.max_l by lia.
  - exists None. split; [done|]. intros _ ? ? [=].
Qed.

Lemma map_outcome_returns {X Y} (f : X -> outcome Y) (l : list X) :
  (forall x, x ∈ l -> exists y, f x = Ok y) -> exists ys, map_outcome f l = Ok ys.
Proof.
  induction l as [|x l IH]; intros Hf; [by eexists|]. cbn [map_outcome].
  destruct (Hf x) as [y ->]; [by left|]. cbn [obind].
  destruct IH as [ys ->]; [intros x' Hx'; apply Hf; by right|]. by eexists.
Qed.

Lemma seq_action_mask_returns (env : SequentialRoutingEnv) :
  seq_sound a env -> exists mask, Sequential.action_mask env = Ok mask.
Proof.
  intros [Hs Hblocked]. unfold Sequential.action_mask.
  set (n := num_edges (seq_base env) + length (bridge_pairs (config (seq_base env)))).
  assert (Hfront : exists fl, Sequential.front_layer_nodes (seq_base env) = Ok fl).
  { unfold Sequential.front_layer_nodes.
    destruct (map_outcome_returns (fun op_node => mapped_nodes (seq_base env) (qargs op_node))
                (front_layer (dag (seq_base env)))) as [l ->]; [|by eexists].
    intros op_node Hin. apply (dag_mapped_nodes_returns _ op_node Hs).
    by apply front_layer_subseteq. }
  assert (Hmask1 : exists mask1,
            (if restrict_swaps_to_front_layer env
             then try fl <- Sequential.front_layer_nodes (seq_base env);
                  Ok (zero_at (indices_where
                         (fun edge : nat * nat =>
                            negb (bool_decide (edge.1 ∈ fl) || bool_decide (edge.2 ∈ fl)))
                         (edge_list (seq_base env))) (replicate n true))
             else Ok (replicate n true)) = Ok mask1 /\ length mask1 = n).
  { destruct (restrict_swaps_to_front_layer env).
    - destruct Hfront as [fl ->]. eexists. split; [done|].
      by rewrite length_zero_at, length_replicate.
    - eexists. split; [done|]. by rewrite length_replicate. }
  destruct Hmask1 as (mask1 & -> & Hlen1). cbn [obind].
  assert (Hmask2 : exists mask2,
            match _blocked_swap env with
            | Some i => setitem mask1 i false
            | None => Ok mask1
            end = Ok mask2).
  { destruct (_blocked_swap env) as [i|] eqn:Hi; [|by eexists].
    rewrite setitem_lt; [by eexists|]. specialize (Hblocked i eq_refl).
    rewrite Hlen1. unfold n, num_edges, edge_list. destruct Hs as (_ & _ & ->).
    cbn [coupling_map config_of]. lia. }
  destruct Hmask2 as [mask2 ->]. cbn [obind].
  destruct (map_outcome_returns (_bridge_args (seq_base env))
              (bridge_pairs (config (seq_base env)))) as [args ->]; [|by eexists].
  intros pair _. destruct (_bridge_args_returns (seq_base env) pair Hs) as (o & -> & _).
  by eexists.
Qed.

Lemma sound_num_edges (s : RoutingEnv) :
  sound a s -> edge_list s = graph_edge_list (arg_coupling_map a).
Proof. intros (_ & _ & Hc). unfold edge_list. by rewrite Hc. Qed.

Lemma sound_unaware (s : RoutingEnv) : sound a s -> noise_config (config s) = None.
Proof. intros (_ & _ & Hc). rewrite Hc. apply Hplain. Qed.

(** The action part of a sequential step, in a plain environment. *)
Lemma seq_action_total (action ne : nat) (env : SequentialRoutingEnv) :
  seq_sound a env ->
  ne = num_edges (seq_base env) ->
  action < ne + length (bridge_pairs (config (seq_base env))) ->
  exists reward env',
    (if bool_decide (action < ne)
     then
       do edge <- call (fun env => getitem (edge_list (seq_base env)) action);
       Sequential.super (_swap edge) ;;
       call (fun env => _swap_reward (seq_base env) edge)
     else
       do pair <- call (fun env => getitem (bridge_pairs (config (seq_base env)))
                                           (action - ne));
       do args <- call (fun env => _bridge_args (seq_base env) pair);
       match args with
       | Some (op_node, nodes) =>
           Sequential.super (_remove_op_node op_node) ;;
           match nodes with
           | [control; middle; target] =>
               Sequential.super (_bridge control middle target) ;;
               call (fun env => _bridge_reward (seq_base env) control middle target)
           | _ => raise TypeError
           end
       | None =>
           print "Invalid BRIDGE action was selected" ;;
           ret 0%Q
       end) env = (Ok reward, env') /\
    seq_sound a env'.
Proof.
  intros Henv -> Haction. pose proof Henv as [Hs Hblocked].
  destruct (bool_decide (action < num_edges (seq_base env))) eqn:Hswap.
  - apply bool_decide_eq_true in Hswap.
    destruct (lookup_lt_is_Some_2 (edge_list (seq_base env)) action Hswap) as [edge Hedge].
    unfold bind at 1. unfold call at 1. rewrite (getitem_Some _ _ _ Hedge).
    destruct (seq_super_total _ _ (_swap_total edge) env) as ([] & env1 & Hrun & Henv1).
    { split; [done|]. rewrite <- (sound_num_edges _ Hs). by eapply list_elem_of_lookup_2. }
    rewrite (bind_ok _ _ _ _ _ Hrun). unfold call, _swap_reward.
    rewrite (sound_unaware _ (proj1 Henv1)). by eexists _, _.
  - apply bool_decide_eq_false in Hswap.
    destruct (lookup_lt_is_Some_2 (bridge_pairs (config (seq_base env)))
                (action - num_edges (seq_base env))) as [pair Hpair]; [lia|].
    unfold bind at 1. unfold call at 1. rewrite (getitem_Some _ _ _ Hpair).
    unfold bind at 1. unfold call at 1.
    destruct (_bridge_args_returns (seq_base env) pair Hs) as (o & -> & Hlen).
    destruct o as [[op_node nodes]|].
    + specialize (Hlen (list_elem_of_lookup_2 _ _ _ Hpair) op_node nodes eq_refl).
      destruct nodes as [|control [|middle [|target [|? ?]]]]; try done.
      destruct (seq_super_total _ _ (_remove_op_node_total op_node) env)
        as ([] & env1 & Hrun1 & Henv1); [done|].
      rewrite (bind_ok _ _ _ _ _ Hrun1).
      destruct (seq_super_total _ _ (_bridge_total control middle target) env1)
        as ([] & env2 & Hrun2 & Henv2); [done|].
      rewrite (bind_ok _ _ _ _ _ Hrun2). unfold call, _bridge_reward.
      rewrite (sound_unaware _ (proj1 Henv2)). by eexists _, _.
    + unfold bind, print, modify, ret. eexists _, _. split; [done|]. done.
Qed.

Lemma seq_step_total (action : nat) (env : SequentialRoutingEnv) :
  seq_sound a env ->
  action < num_edges (seq_base env) + length (bridge_pairs (config (seq_base env))) ->
  exists result env', Sequential.step action env = (Ok result, env') /\ seq_sound a env'.
Proof.
  intros Henv Haction. unfold Sequential.step. rewrite bind_gets. cbv beta.
  destruct (terminated (seq_base env)).
  - unfold Sequential.current_obs, bind, call, ret.
    destruct (seq_action_mask_returns env Henv) as [mask ->]. by eexists _, _.
  - rewrite bind_gets. cbv beta.
    destruct (seq_action_total action _ env Henv eq_refl Haction) as (reward & env1 & Hrun & Henv1).
    rewrite (bind_ok _ _ _ _ _ Hrun).
    destruct (seq_super_total _ _ seq_update_state_total env1) as ([] & env2 & Hrun2 & Henv2);
      [done|].
    rewrite (bind_ok _ _ _ _ _ Hrun2). rewrite !bind_gets. cbv beta.
    unfold bind at 1. unfold modify at 1.
    set (env3 := set_blocked_swap _ env2).
    assert (Henv3 : seq_sound a env3).
    { split; [apply Henv2|]. intros i Hi. unfold env3 in Hi.
      cbn [_blocked_swap set_blocked_swap] in Hi.
      destruct (bool_decide (action < num_edges (seq_base env))) eqn:Hlt; [|done].
      cbn [andb] in Hi.
      destruct (bool_decide (_num_scheduled_2q_gates (seq_base env2) = 0)); [|done].
      injection Hi as <-. apply bool_decide_eq_true in Hlt.
      unfold num_edges in Hlt. by rewrite (sound_num_edges _ (proj1 Henv)) in Hlt. }
    unfold Sequential.current_obs, bind, call, gets, ret.
    destruct (seq_action_mask_returns env3 Henv3) as [mask ->]. by eexists _, _.
Qed.

Lemma sound_built_for (s : RoutingEnv) : sound a s -> built_for a s.
Proof. intros (_ & Hsub & Hc). unfold built_for. by rewrite Hc. Qed.

Lemma reset_circuit_total :
  total (sound a) reset_circuit (fun _ s' => sound a s').
Proof.
  intros s Hs. exists tt, (reset_circuit s).2. split.
  { unfold reset_circuit, bind, modify, gets, ret, id. cbn.
    by destruct (commutation_analysis (config s)). }
  pose proof (reset_circuit_mapping s) as Hmap.
  destruct (reset_circuit_built_for a s (sound_built_for s Hs)) as (Hsub & _).
  split; [|split].
  - eapply mutual_inverses_ext; [|apply Hs]. by symmetry.
  - done.
  - unfold mapping_of in Hmap. injection Hmap as -> _ _. apply Hs.
Qed.

Lemma reset_mapping_total :
  total (sound a) reset_mapping (fun _ s' => sound a s').
Proof.
  intros s Hs. pose proof Hs as ((Hl1 & Hl2 & _) & Hsub & Hc).
  set (s1 := set_node_to_qubit (initial_mapping (config s)) s).
  destruct (fill_qubit_to_node_spec s1) as (q2n & Hrun & Hinv).
  { unfold s1, num_qubits. cbn [node_to_qubit config set_node_to_qubit]. rewrite Hc.
    cbn [initial_mapping coupling_map config_of].
    destruct (arg_initial_mapping a) as [m|] eqn:Hm; [|done]. by apply Hplain. }
  { done. }
  assert (Heq : reset_mapping s = (Ok tt, set_qubit_to_node q2n s1)).
  { unfold reset_mapping. erewrite bind_ok by reflexivity. exact Hrun. }
  exists tt, (set_qubit_to_node q2n s1). split; [done|].
  apply (sound_progresses s); [|done|done].
  pose proof (reset_mapping_progresses s) as Hp. by rewrite Heq in Hp.
Qed.

Lemma seq_super_total' {A} (m : M RoutingEnv A) :
  total (sound a) m (fun _ s' => sound a s') ->
  total (seq_sound a) (Sequential.super m) (fun _ env' => seq_sound a env').
Proof.
  intros Hm env [Hs Hblocked]. destruct (Hm (seq_base env) Hs) as (x & s' & Hrun & Hs').
  exists x, (seq_set_base s' env). rewrite seq_super_run, Hrun. split; [done|]. by split.
Qed.

Lemma seq_reset_total :
  total (seq_sound a) Sequential.reset (fun _ env' => seq_sound a env').
Proof.
  intros env Henv. unfold Sequential.reset.
  destruct (seq_super_total' _ reset_circuit_total env Henv) as ([] & env1 & Hrun1 & Henv1).
  rewrite (bind_ok _ _ _ _ _ Hrun1).
  destruct (seq_super_total' _ reset_mapping_total env1 Henv1) as ([] & env2 & Hrun2 & Henv2).
  rewrite (bind_ok _ _ _ _ _ Hrun2).
  destruct (seq_super_total _ _ seq_update_state_total env2) as ([] & env3 & Hrun3 & Henv3);
    [done|].
  rewrite (bind_ok _ _ _ _ _ Hrun3). unfold Sequential.current_obs, call.
  destruct (seq_action_mask_returns env3 Henv3) as [mask ->]. by eexists _, _.
Qed.

Lemma __init___config (env : RoutingEnv) : __init__ a = Ok env -> config env = config_of a.
Proof.
  unfold __init__. case_decide; [done|]. case_decide; [done|].
  match goal with |- context [fill_qubit_to_node ?e] => set (env0 := e) end.
  assert (Hfill : preserves config fill_qubit_to_node).
  { unfold fill_qubit_to_node. frame. }
  specialize (Hfill env0).
  destruct (fill_qubit_to_node env0) as [[[]|e] env1]; [|done]. cbn [snd] in Hfill.
  intros [= <-]. destruct (noise_aware env1).
  - unfold calibrate_env. by destruct (noise_config (config env1)).
  - done.
Qed.

Lemma seq_reachable_sound (restrict : bool) (env : SequentialRoutingEnv) :
  seq_reachable a restrict env -> seq_sound a env.
Proof.
  intros Hreach.
  assert (Hperm : forall m, arg_initial_mapping a = Some m ->
                            m ≡ₚ seq 0 (num_nodes (arg_coupling_map a))) by apply Hplain.
  assert (Hc : config (seq_base env) = config_of a).
  { clear Hperm. induction Hreach as [env Hinit|env _ IH|env action _ IH|env rates _ IH].
    - unfold Sequential.__init__ in Hinit. destruct (__init__ a) as [b|] eqn:Hb; [|done].
      injection Hinit as <-. by apply __init___config.
    - assert (Hp : preserves (fun s => (_blocked_swap s, config (seq_base s))) Sequential.reset).
      { unfold Sequential.reset, Sequential.current_obs. frame_blocked. }
      specialize (Hp env). cbv beta in Hp. injection Hp as _ ->. done.
    - destruct (seq_step_progresses action env) as (_ & _ & _ & ->). done.
    - destruct (seq_super_progresses _ (calibrate_progresses rates) env) as (_ & _ & _ & ->).
      done. }
  split; [split; [|split]|].
  - by destruct (seq_reachable_well_mapped a restrict env Hperm Hreach).
  - by destruct (seq_reachable_built_for a restrict env Hreach).
  - done.
  - intros i Hi. pose proof (seq_reachable_blocked_swap a restrict env Hreach) as Hvalid.
    unfold blocked_swap_valid in Hvalid. rewrite Hi in Hvalid.
    unfold num_edges, edge_list in Hvalid. by rewrite Hc in Hvalid.
Qed.

Lemma _schedule_gates_total (gates : list (DAGOpNode * list nat)) :
  total (fun s => sound a s /\ True) (_schedule_gates gates) (fun _ s' => sound a s').
Proof.
  apply total_sound.
  - intros s Hs _. destruct (_schedule_gates_returns s gates Hs) as [s' Hrun]. by exists tt, s'.
  - apply maintains_mapping, _schedule_gates_mapping.
  - apply _schedule_gates_progresses.
Qed.

Lemma lay_super_total {A} (m : M RoutingEnv A) (P : RoutingEnv -> Prop) :
  total (fun s => sound a s /\ P s) m (fun _ s' => sound a s') ->
  total (fun env => lay_sound a env /\ P (lay_base env)) (Layered.super m)
        (fun _ env' => lay_sound a env').
Proof.
  intros Hm env [Hs HP]. destruct (Hm (lay_base env) (conj Hs HP)) as (x & s' & Hrun & Hs').
  exists x, (lay_set_base s' env). rewrite lay_super_run, Hrun. by split.
Qed.

Lemma lay_super_total' {A} (m : M RoutingEnv A) :
  total (sound a) m (fun _ s' => sound a s') ->
  total (lay_sound a) (Layered.super m) (fun _ env' => lay_sound a env').
Proof.
  intros Hm env Hs. destruct (Hm (lay_base env) Hs) as (x & s' & Hrun & Hs').
  exists x, (lay_set_base s' env). rewrite lay_super_run, Hrun. by split.
Qed.

Lemma lay_locks_total (f : LayeredRoutingEnv -> gmap nat Z) :
  total (lay_sound a) (modify (fun env => set_scheduling_map (f env) env))
        (fun _ env' => lay_sound a env').
Proof. intros env Henv. by eexists tt, _. Qed.

Lemma lay_update_state_total :
  total (lay_sound a) Layered._update_state (fun _ env' => lay_sound a env').
Proof.
  intros env Henv. unfold Layered._update_state.
  destruct (lay_locks_total (fun env => decrement (scheduling_map env)) env Henv)
    as ([] & env1 & Hrun1 & Henv1).
  rewrite (bind_ok _ _ _ _ _ Hrun1). unfold bind at 1. unfold call at 1.
  unfold Layered._schedulable_gates.
  destruct (_schedulable_gates_returns (lay_base env1) true Henv1) as [gates ->]. cbn [obind].
  unfold Layered._schedule_gates.
  destruct (lay_super_total _ _ (_schedule_gates_total
              (filter (fun g : DAGOpNode * list nat =>
                         touches_locked (scheduling_map env1) g.2 = false) gates)) env1)
    as ([] & env2 & Hrun2 & Henv2); [done|].
  rewrite (bind_ok _ _ _ _ _ Hrun2). by eexists tt, _.
Qed.

Lemma lay_action_mask_returns (env : LayeredRoutingEnv) :
  lay_sound a env -> exists mask, Layered.action_mask env = Ok mask.
Proof.
  intros Hs. unfold Layered.action_mask. cbv zeta.
  destruct (map_outcome_returns (_bridge_args (lay_base env))
              (bridge_pairs (config (lay_base env)))) as [args ->]; [|by eexists].
  intros pair _. destruct (_bridge_args_returns (lay_base env) pair Hs) as (o & -> & _).
  by eexists.
Qed.

Lemma lay_current_obs_total :
  total (lay_sound a) Layered.current_obs (fun _ env' => lay_sound a env').
Proof.
  intros env Henv. unfold Layered.current_obs, call.
  destruct (lay_action_mask_returns env Henv) as [mask ->]. by eexists _, _.
Qed.

Lemma lay_step_total (action : nat) (env : LayeredRoutingEnv) :
  lay_sound a env ->
  (action < num_edges (lay_base env) \/
   num_edges (lay_base env) + length (bridge_pairs (config (lay_base env))) <= action \/
   exists pair args,
     bridge_pairs (config (lay_base env)) !! (action - num_edges (lay_base env)) = Some pair /\
     _bridge_args (lay_base env) pair = Ok (Some args)) ->
  exists result env', Layered.step action env = (Ok result, env') /\ lay_sound a env'.
Proof.
  intros Henv Haction. unfold Layered.step. rewrite !bind_gets. cbv beta.
  assert (Hreward : exists reward env1,
    (if decide (action < num_edges (lay_base env))
     then
       do edge <- call (fun env => getitem (edge_list (lay_base env)) action);
       Layered._swap edge ;;
       call (fun env => _swap_reward (lay_base env) edge)
     else if decide (action < num_edges (lay_base env)
                              + length (bridge_pairs (config (lay_base env))))
     then
       do pair <- call (fun env0 => getitem (bridge_pairs (config (lay_base env0)))
                                            (action - num_edges (lay_base env)));
       do args <- call (fun env => _bridge_args (lay_base env) pair);
       match args with
       | None => raise TypeError
       | Some (op_node, nodes) =>
           Layered.super (_remove_op_node op_node) ;;
           match nodes with
           | [control; middle; target] =>
               Layered._bridge control middle target ;;
               call (fun env => _bridge_reward (lay_base env) control middle target)
           | _ => raise TypeError
           end
       end
     else
       Layered._update_state ;;
       gets (fun env => _scheduling_reward (lay_base env))) env = (Ok reward, env1) /\
    lay_sound a env1).
  { destruct (decide (action < num_edges (lay_base env))) as [Hswap|Hnoswap].
    - destruct (lookup_lt_is_Some_2 (edge_list (lay_base env)) action Hswap) as [edge Hedge].
      unfold bind at 1. unfold call at 1. rewrite (getitem_Some _ _ _ Hedge).
      unfold Layered._swap.
      destruct (lay_super_total _ _ (_swap_total edge) env) as ([] & env1 & Hrun & Henv1).
      { split; [done|]. rewrite <- (sound_num_edges _ Henv). by eapply list_elem_of_lookup_2. }
      unfold bind at 1. rewrite (bind_ok _ _ _ _ _ Hrun). unfold modify, call, _swap_reward.
      cbn [lay_base set_scheduling_map]. rewrite (sound_unaware _ Henv1). by eexists _, _.
    - destruct (decide (action < num_edges (lay_base env)
                                 + length (bridge_pairs (config (lay_base env)))))
        as [Hbridge|Hcommit].
      + destruct Haction as [?|[?|(pair & [op_node nodes] & Hpair & Hargs)]]; [lia|lia|].
        unfold bind at 1. unfold call at 1. rewrite (getitem_Some _ _ _ Hpair).
        unfold bind at 1. unfold call at 1. rewrite Hargs.
        destruct (_bridge_args_returns (lay_base env) pair Henv) as (o & Ho & Hlen).
        rewrite Hargs in Ho. injection Ho as <-.
        specialize (Hlen (list_elem_of_lookup_2 _ _ _ Hpair) op_node nodes eq_refl).
        destruct nodes as [|control [|middle [|target [|? ?]]]]; try done.
        destruct (lay_super_total _ _ (_remove_op_node_total op_node) env)
          as ([] & env1 & Hrun1 & Henv1); [done|].
        rewrite (bind_ok _ _ _ _ _ Hrun1). unfold Layered._bridge.
        destruct (lay_super_total _ _ (_bridge_total control middle target) env1)
          as ([] & env2 & Hrun2 & Henv2); [done|].
        unfold bind at 1. rewrite (bind_ok _ _ _ _ _ Hrun2). unfold modify, call, _bridge_reward.
        cbn [lay_base set_scheduling_map]. rewrite (sound_unaware _ Henv2). by eexists _, _.
      + destruct (lay_update_state_total env Henv) as ([] & env1 & Hrun & Henv1).
        rewrite (bind_ok _ _ _ _ _ Hrun). unfold gets. by eexists _, _. }
  destruct Hreward as (reward & env1 & Hrun & Henv1).
  rewrite (bind_ok _ _ _ _ _ Hrun).
  destruct (lay_current_obs_total env1 Henv1) as (obs & env2 & Hrun2 & Henv2).
  rewrite (bind_ok _ _ _ _ _ Hrun2). rewrite bind_gets. unfold ret. by eexists _, _.
Qed.

Lemma lay_reset_total :
  total (lay_sound a) Layered.reset (fun _ env' => lay_sound a env').
Proof.
  intros env Henv. unfold Layered.reset, Layered._reset_state.
  destruct (lay_super_total' _ reset_circuit_total env Henv) as ([] & env1 & Hrun1 & Henv1).
  rewrite (bind_ok _ _ _ _ _ Hrun1).
  destruct (lay_locks_total (fun _ => ∅) env1 Henv1) as ([] & env2 & Hrun2 & Henv2).
  destruct (lay_super_total' _ reset_mapping_total env2 Henv2) as ([] & env3 & Hrun3 & Henv3).
  destruct (lay_update_state_total env3 Henv3) as ([] & env4 & Hrun4 & Henv4).
  assert (Hstate : (modify (set_scheduling_map ∅) ;; Layered.super reset_mapping ;;
                    Layered._update_state) env1 = (Ok tt, env4)).
  { rewrite (bind_ok _ _ _ _ _ Hrun2), (bind_ok _ _ _ _ _ Hrun3). exact Hrun4. }
  rewrite (bind_ok _ _ _ _ _ Hstate). apply lay_current_obs_total. done.
Qed.

Lemma lay_reset_config (env : LayeredRoutingEnv) :
  config (lay_base (Layered.reset env).2) = config (lay_base env).
Proof.
  unfold Layered.reset. unfold bind at 1. rewrite lay_super_run.
  pose proof (reset_circuit_mapping (lay_base env)) as Hmap.
  unfold mapping_of in Hmap. injection Hmap as Hc _ _.
  destruct (reset_circuit (lay_base env)) as [[[]|e] b1]; cbn [fst snd] in *; [|done].
  assert (Hrest : advances (fun s s' => progresses (lay_base s) (lay_base s'))
            (Layered._reset_state ;; Layered.current_obs)).
  { pose proof (lay_super_progresses _ reset_mapping_progresses).
    pose proof lay_update_state_progresses.
    unfold Layered._reset_state. progress_variant. }
  destruct (Hrest (lay_set_base b1 env)) as (_ & _ & _ & Hc'). rewrite Hc'. exact Hc.
Qed.

Lemma lay_reachable_sound (decomposed : bool) (env : LayeredRoutingEnv) :
  lay_reachable a decomposed env -> lay_sound a env.
Proof.
  intros Hreach.
  assert (Hperm : forall m, arg_initial_mapping a = Some m ->
                            m ≡ₚ seq 0 (num_nodes (arg_coupling_map a))) by apply Hplain.
  split; [|split].
  - by destruct (lay_reachable_well_mapped a decomposed env Hperm Hreach).
  - by destruct (lay_reachable_built_for a decomposed env Hreach).
  - clear Hperm. induction Hreach as [env Hinit|env _ IH|env action _ IH|env rates _ IH].
    + unfold Layered.__init__ in Hinit. destruct (__init__ a) as [b|] eqn:Hb; [|done].
      injection Hinit as <-. by apply __init___config.
    + by rewrite lay_reset_config.
    + destruct (lay_step_progresses action env) as (_ & _ & _ & ->). done.
    + destruct (lay_super_progresses _ (calibrate_progresses rates) env) as (_ & _ & _ & ->).
      done.
Qed.
End plain.

(** X23. A plain sequential environment never raises inside its action
    space.  Without a noise configuration and commutation analysis, with an
    initial mapping that is a permutation of the nodes, a circuit on qubits of
    the device, edges between nodes of the device and three-node shortest
    paths between nodes at distance two: in every reachable state [reset]
    returns, and [step] returns for every action below
    [num_edges + len(bridge_pairs)]. *)
Theorem seq_step_returns (a : InitArgs) (restrict : bool) (env : SequentialRoutingEnv) :
  plain_args a ->
  seq_reachable a restrict env ->
  (exists obs, (Sequential.reset env).1 = Ok obs) /\
  forall action,
    action < num_edges (seq_base env) + length (bridge_pairs (config (seq_base env))) ->
    exists result, (Sequential.step action env).1 = Ok result.
Proof.
  intros Hplain Hreach. pose proof (seq_reachable_sound a Hplain restrict env Hreach) as Henv.
  split.
  - destruct (seq_reset_total a Hplain env Henv) as (obs & env' & -> & _). by exists obs.
  - intros action Haction.
    destruct (seq_step_total a Hplain action env Henv Haction) as (result & env' & -> & _).
    by exists result.
Qed.

(** X24. A plain layered environment never raises on SWAP and COMMIT: under
    the same conditions as for the sequential variant, in every reachable
    state [reset] returns, and
    [step] returns for every SWAP action, for every action at or past the
    COMMIT action, and for every BRIDGE action whose pair has a candidate
    ([_bridge_args] is not [None]). *)
Theorem lay_step_returns (a : InitArgs) (decomposed : bool) (env : LayeredRoutingEnv) :
  plain_args a ->
  lay_reachable a decomposed env ->
  (exists obs, (Layered.reset env).1 = Ok obs) /\
  forall action,
    (action < num_edges (lay_base env) \/
     num_edges (lay_base env) + length (bridge_pairs (config (lay_base env))) <= action \/
     exists pair args,
       bridge_pairs (config (lay_base env)) !! (action - num_edges (lay_base env)) = Some pair /\
       _bridge_args (lay_base env) pair = Ok (Some args)) ->
    exists result, (Layered.step action env).1 = Ok result.
Proof.
  intros Hplain Hreach. pose proof (lay_reachable_sound a Hplain decomposed env Hreach) as Henv.
  split.
  - destruct (lay_reset_total a Hplain env Henv) as (obs & env' & -> & _). by exists obs.
  - intros action Haction.
    destruct (lay_step_total a Hplain action env Henv Haction) as (result & env' & -> & _).
    by exists result.
Qed.

(** ** The DAG and the routed set *)

Lemma dag_tracks_routed_ext (s s' : RoutingEnv) :
  routing_state s' = routing_state s -> dag_tracks_routed s -> dag_tracks_routed s'.
Proof. unfold routing_state, dag_tracks_routed. by intros [= -> -> ->]. Qed.

Lemma tracks_frame {A} (m : M RoutingEnv A) :
  preserves routing_state m -> maintains dag_tracks_routed m.
Proof. apply maintains_preserves. apply dag_tracks_routed_ext. Qed.

Lemma maintains_for_each {S X} (P : S -> Prop) (l : list X) (body : X -> M S unit) :
  (forall x, maintains P (body x)) -> maintains P (for_each l body).
Proof.
  intros Hbody. induction l as [|x l IH]; [by intros s Hs|].
  cbn [for_each]. apply maintains_bind; [apply Hbody|by intros _].
Qed.

Lemma _remove_op_node_tracks (op_node : DAGOpNode) :
  maintains dag_tracks_routed (_remove_op_node op_node).
Proof.
  intros s Hs. unfold dag_tracks_routed, _remove_op_node, bind, modify in *. cbn.
  rewrite Hs. unfold remove_op_node. rewrite list_filter_filter. apply filter_iff.
  intros m. rewrite not_elem_of_union, not_elem_of_singleton. tauto.
Qed.

Lemma _schedule_gates_tracks (gates : list (DAGOpNode * list nat)) :
  maintains dag_tracks_routed (_schedule_gates gates).
Proof.
  unfold _schedule_gates. apply maintains_bind.
  - apply maintains_for_each. intros g. apply maintains_bind; [|intros _].
    + apply tracks_frame. frame.
    + apply _remove_op_node_tracks.
  - intros _. apply tracks_frame. frame.
Qed.

Lemma _bridge_tracks (control middle target : nat) :
  maintains dag_tracks_routed (_bridge control middle target).
Proof. apply tracks_frame. unfold _bridge. frame. Qed.

Lemma _swap_tracks (edge : nat * nat) : maintains dag_tracks_routed (_swap edge).
Proof. apply tracks_frame. unfold _swap. frame. Qed.

Lemma calibrate_tracks (rates : list Q) : maintains dag_tracks_routed (calibrate rates).
Proof.
  apply tracks_frame. unfold calibrate. apply preserves_modify. intros s.
  unfold calibrate_env. by destruct (noise_config (config s)).
Qed.

Lemma reset_mapping_tracks : maintains dag_tracks_routed reset_mapping.
Proof. apply tracks_frame. unfold reset_mapping, fill_qubit_to_node. frame. Qed.

Lemma seq_update_state_tracks : maintains dag_tracks_routed Sequential._update_state.
Proof.
  unfold Sequential._update_state. apply maintains_bind.
  - apply tracks_frame. frame.
  - intros gates. apply _schedule_gates_tracks.
Qed.

Lemma reset_circuit_tracks (s : RoutingEnv) : dag_tracks_routed (reset_circuit s).2.
Proof.
  assert (H : routing_state (reset_circuit s).2 = (circuit (config s), ∅, config s)).
  { unfold reset_circuit, bind, modify, gets, ret, id. cbn.
    by destruct (commutation_analysis (config s)). }
  unfold routing_state in H. injection H as Hd Hr Hc. unfold dag_tracks_routed.
  rewrite Hd, Hr, Hc. symmetry. apply filter_all. intros m. apply not_elem_of_empty.
Qed.

Lemma __init___tracks (a : InitArgs) (env : RoutingEnv) :
  __init__ a = Ok env -> dag_tracks_routed env.
Proof.
  unfold __init__. case_decide; [done|]. case_decide; [done|].
  match goal with |- context [fill_qubit_to_node ?e] => set (env0 := e) end.
  assert (Hfill : preserves routing_state fill_qubit_to_node).
  { unfold fill_qubit_to_node. frame. }
  specialize (Hfill env0).
  destruct (fill_qubit_to_node env0) as [[[]|e] env1]; [|done]. cbn [snd] in Hfill.
  assert (H1 : dag_tracks_routed env1).
  { apply (dag_tracks_routed_ext env0); [done|]. unfold dag_tracks_routed, env0. cbn.
    symmetry. apply filter_all. intros m. apply not_elem_of_empty. }
  intros [= <-]. destruct (noise_aware env1); [|done].
  revert H1. apply dag_tracks_routed_ext. unfold calibrate_env.
  by destruct (noise_config (config env1)).
Qed.

Ltac tracks_base :=
  first [ apply _remove_op_node_tracks | apply _bridge_tracks | apply _swap_tracks
        | apply seq_update_state_tracks | apply calibrate_tracks
        | apply reset_mapping_tracks | apply _schedule_gates_tracks ].

Ltac tracks_variant :=
  repeat first
    [ assumption
    | apply (maintains_seq_super dag_tracks_routed); solve [tracks_base]
    | apply (maintains_lay_super dag_tracks_routed); solve [tracks_base]
    | apply (maintains_seq_attr dag_tracks_routed);
        solve [unfold print, Sequential.current_obs; frame]
    | apply (maintains_lay_attr dag_tracks_routed); solve [unfold Layered.current_obs; frame]
    | apply maintains_bind; [|intros ?]
    | match goal with
      | |- maintains _ (match ?x with _ => _ end) => destruct x
      | |- maintains _ (if ?x then _ else _) => destruct x
      end ].

Lemma lay_update_state_tracks :
  maintains (fun s => dag_tracks_routed (lay_base s)) Layered._update_state.
Proof. unfold Layered._update_state, Layered._schedule_gates. tracks_variant. Qed.

Lemma seq_step_tracks (action : nat) :
  maintains (fun s => dag_tracks_routed (seq_base s)) (Sequential.step action).
Proof. unfold Sequential.step. tracks_variant. Qed.

Lemma lay_step_tracks (action : nat) :
  maintains (fun s => dag_tracks_routed (lay_base s)) (Layered.step action).
Proof.
  pose proof lay_update_state_tracks.
  unfold Layered.step, Layered._swap, Layered._bridge. tracks_variant.
Qed.

Lemma seq_reset_tracks (env : SequentialRoutingEnv) :
  dag_tracks_routed (seq_base (Sequential.reset env).2).
Proof.
  unfold Sequential.reset. unfold bind at 1. rewrite seq_super_run.
  pose proof (reset_circuit_tracks (seq_base env)) as H1.
  destruct (reset_circuit (seq_base env)) as [[[]|e] b1]; [|done]. cbn [fst snd] in *.
  assert (Hrest : maintains (fun s => dag_tracks_routed (seq_base s))
            (Sequential.super reset_mapping ;; Sequential.super Sequential._update_state ;;
             Sequential.current_obs)) by tracks_variant.
  exact (Hrest (seq_set_base b1 env) H1).
Qed.

Lemma lay_reset_tracks (env : LayeredRoutingEnv) :
  dag_tracks_routed (lay_base (Layered.reset env).2).
Proof.
  unfold Layered.reset. unfold bind at 1. rewrite lay_super_run.
  pose proof (reset_circuit_tracks (lay_base env)) as H1.
  destruct (reset_circuit (lay_base env)) as [[[]|e] b1]; [|done]. cbn [fst snd] in *.
  assert (Hrest : maintains (fun s => dag_tracks_routed (lay_base s))
            (Layered._reset_state ;; Layered.current_obs)).
  { pose proof lay_update_state_tracks. unfold Layered._reset_state. tracks_variant. }
  exact (Hrest (lay_set_base b1 env) H1).
Qed.

Lemma terminated_tracks (s : RoutingEnv) :
  dag_tracks_routed s ->
  terminated s = true <->
  forall op_node, op_node ∈ circuit (config s) -> node_id op_node ∈ routed_op_nodes s.
Proof.
  intros Hs. unfold terminated, dag_size. rewrite bool_decide_eq_true, length_zero_iff_nil, Hs.
  split.
  - intros Hnil op_node Hin. destruct (decide (node_id op_node ∈ routed_op_nodes s)); [done|].
    assert (Hf : op_node ∈ filter (fun m => node_id m ∉ routed_op_nodes s) (circuit (config s))).
    { by apply list_elem_of_filter. }
    rewrite Hnil in Hf. by apply elem_of_nil in Hf.
  - intros Hall. apply elem_of_nil_inv. intros op_node Hin.
    apply list_elem_of_filter in Hin as [Hnot Hin]. apply Hnot. by apply Hall.
Qed.

(** X25. In every reachable state of either variant the DAG holds exactly
    the operations of the circuit whose ids are not in [routed_op_nodes], in
    circuit order; so the environment is terminated exactly when the id of
    every operation of the circuit is in [routed_op_nodes]. *)
Theorem dag_holds_unrouted_operations (a : InitArgs) :
  (forall restrict env, seq_reachable a restrict env ->
     dag_tracks_routed (seq_base env) /\
     (terminated (seq_base env) = true <->
      forall op_node, op_node ∈ circuit (config (seq_base env)) ->
                      node_id op_node ∈ routed_op_nodes (seq_base env))) /\
  (forall decomposed env, lay_reachable a decomposed env ->
     dag_tracks_routed (lay_base env) /\
     (terminated (lay_base env) = true <->
      forall op_node, op_node ∈ circuit (config (lay_base env)) ->
                      node_id op_node ∈ routed_op_nodes (lay_base env))).
Proof.
  split.
  - intros restrict env Hreach.
    assert (H : dag_tracks_routed (seq_base env)); [|by split; [|apply terminated_tracks]].
    induction Hreach as [env Hinit|env _ IH|env action _ IH|env rates _ IH].
    + unfold Sequential.__init__ in Hinit. destruct (__init__ a) as [b|] eqn:Hb; [|done].
      injection Hinit as <-. by apply (__init___tracks a).
    + apply seq_reset_tracks.
    + by apply seq_step_tracks.
    + revert IH. apply (maintains_seq_super dag_tracks_routed). apply calibrate_tracks.
  - intros decomposed env Hreach.
    assert (H : dag_tracks_routed (lay_base env)); [|by split; [|apply terminated_tracks]].
    induction Hreach as [env Hinit|env _ IH|env action _ IH|env rates _ IH].
    + unfold Layered.__init__ in Hinit. destruct (__init__ a) as [b|] eqn:Hb; [|done].
      injection Hinit as <-. by apply (__init___tracks a).
    + apply lay_reset_tracks.
    + by apply lay_step_tracks.
    + revert IH. apply (maintains_lay_super dag_tracks_routed). apply calibrate_tracks.
Qed.

(** ** [LayeredRoutingEnv.copy] *)


(** ** The further properties at concrete environments *)

Lemma far_state_swapped_reachable : seq_reachable far_args true far_state_swapped.
Proof. apply seq_reach_step, seq_reach_reset, seq_reach_init. vm_compute. reflexivity. Qed.

Lemma far_layered_swapped_reachable : lay_reachable far_args false far_layered_swapped.
Proof. apply lay_reach_step, lay_reach_reset, lay_reach_init. vm_compute. reflexivity. Qed.

Lemma blocked_layered_swapped_reachable : lay_reachable blocked_args false blocked_layered_swapped.
Proof. apply lay_reach_step, lay_reach_reset, lay_reach_init. vm_compute. reflexivity. Qed.

(** X3 at [far_layered_swapped], where the nodes 0 and 1 are locked. *)
Lemma locked_edges_obs_in_space_witness :
  unit_locks (scheduling_map far_layered_swapped) /\
  [length (LockedEdges.obs far_layered_swapped)] = box_shape (LockedEdges.space far_layered_swapped).
Proof.
  destruct (locked_edges_obs_in_space far_args false far_layered_swapped
              far_layered_swapped_reachable) as (Hunit & Hshape & _).
  exact (conj Hunit Hshape).
Defined.

(** X5 at [far_state]: of the three SWAPs only those on the edges (0, 1) and
    (3, 2) touch the front layer, and neither BRIDGE pair has a candidate. *)
Lemma seq_action_mask_spec_witness :
  Sequential.action_mask far_state = Ok [true; false; true; false; false] /\
  forall j,
    [true; false; true; false; false] !! j = Some true <->
    j < num_edges (seq_base far_state) + length (bridge_pairs (config (seq_base far_state))) /\
    seq_action_valid far_state j.
Proof.
  assert (H : Sequential.action_mask far_state = Ok [true; false; true; false; false])
    by (vm_compute; reflexivity).
  exact (conj H (proj2 (seq_action_mask_spec far_state _ H))).
Defined.

(** X6 at [far_layered_swapped]: only the SWAP on the edge (3, 2) and COMMIT
    are enabled. *)
Lemma lay_action_mask_spec_witness :
  Layered.action_mask far_layered_swapped = Ok [false; false; true; false; false; true] /\
  forall j,
    [false; false; true; false; false; true] !! j = Some true <->
    j < num_edges (lay_base far_layered_swapped)
        + length (bridge_pairs (config (lay_base far_layered_swapped))) + 1 /\
    lay_action_valid far_layered_swapped j.
Proof.
  assert (H : Layered.action_mask far_layered_swapped = Ok [false; false; true; false; false; true])
    by (vm_compute; reflexivity).
  exact (conj H (proj2 (lay_action_mask_spec far_layered_swapped _ H))).
Defined.

(** X7 at [far_layered] and the SWAP action 0. *)
Lemma lay_swap_step_masks_swap_witness :
  [false; false; true; false; false; true] !! 0 = Some false /\
  [false; false; true; false; false; true]
    !! (num_edges (lay_base far_layered) + length (bridge_pairs (config (lay_base far_layered))))
    = Some true.
Proof.
  assert (Hlt : 0 < num_edges (lay_base far_layered)) by (vm_compute; lia).
  assert (H1 : (Layered.step 0 far_layered).1
               = Ok ([false; false; true; false; false; true], (-3)%Q, false, false))
    by (vm_compute; reflexivity).
  assert (H : Layered.step 0 far_layered
              = (Ok ([false; false; true; false; false; true], (-3)%Q, false, false),
                 far_layered_swapped)).
  { rewrite <- H1. apply surjective_pairing. }
  exact (lay_swap_step_masks_swap 0 far_layered far_layered_swapped _ _ _ _ Hlt H).
Defined.

(** X8 at [far_state] and the SWAP action 0, which schedules nothing. *)
Lemma seq_step_blocks_idle_swap_witness :
  _blocked_swap far_state_swapped = Some 0 /\
  [false; true; true; false; true] !! 0 = Some false.
Proof.
  assert (Hterm : terminated (seq_base far_state) = false) by (vm_compute; reflexivity).
  assert (H1 : (Sequential.step 0 far_state).1
               = Ok ([false; true; true; false; true], (-3)%Q, false, false))
    by (vm_compute; reflexivity).
  assert (H : Sequential.step 0 far_state
              = (Ok ([false; true; true; false; true], (-3)%Q, false, false), far_state_swapped)).
  { rewrite <- H1. apply surjective_pairing. }
  assert (Hlt : 0 < num_edges (seq_base far_state)) by (vm_compute; lia).
  assert (Hzero : _num_scheduled_2q_gates (seq_base far_state_swapped) = 0)
    by (vm_compute; reflexivity).
  destruct (seq_step_blocks_idle_swap 0 far_state far_state_swapped _ _ _ _ Hterm H)
    as [Hblocked Hmask].
  split; [|exact (Hmask Hlt Hzero)].
  rewrite Hblocked, Hzero. vm_compute. reflexivity.
Defined.

(** X13 at [far_state], whose action space has five actions. *)
Lemma seq_step_out_of_range_witness :
  Sequential.step 5 far_state = (Raise IndexError, far_state).
Proof.
  apply seq_step_out_of_range.
  - vm_compute. reflexivity.
  - vm_compute. lia.
Defined.

(** X14 at [far_layered], whose COMMIT is the action 5. *)
Lemma lay_step_out_of_range_commits_witness :
  Layered.step 9 far_layered =
  Layered.step (num_edges (lay_base far_layered)
                + length (bridge_pairs (config (lay_base far_layered)))) far_layered.
Proof. apply lay_step_out_of_range_commits. vm_compute. lia. Defined.

(** X15 at [far_state_swapped], where the SWAP 0 is blocked. *)
Lemma seq_reset_keeps_blocked_swap_witness :
  _blocked_swap (Sequential.reset far_state_swapped).2 = Some 0 /\
  [false; false; true; false; false] !! 0 = Some false.
Proof.
  assert (H1 : (Sequential.reset far_state_swapped).1 = Ok [false; false; true; false; false])
    by (vm_compute; reflexivity).
  assert (H : Sequential.reset far_state_swapped
              = (Ok [false; false; true; false; false], (Sequential.reset far_state_swapped).2)).
  { rewrite <- H1. apply surjective_pairing. }
  assert (Hblocked : _blocked_swap far_state_swapped = Some 0) by (vm_compute; reflexivity).
  exact (seq_reset_keeps_blocked_swap far_state_swapped _ _ 0 H Hblocked).
Defined.

(** X16 at [blocked_layered_swapped]: the COMMIT schedules cx(q0, q2) on the
    nodes 1 and 2 and leaves exactly these two nodes locked. *)
Lemma lay_commit_relocks_witness :
  routed_gates (lay_base (Layered._update_state blocked_layered_swapped).2) =
    routed_gates (lay_base blocked_layered_swapped)
    ++ map (fun g : DAGOpNode * list nat => (op g.1, g.2)) [(cx 0 0 2, [1; 2])] /\
  forall n,
    scheduling_map (Layered._update_state blocked_layered_swapped).2 !! n =
    if decide (n ∈ concat ([(cx 0 0 2, [1; 2])].*2)) then Some 1%Z else None.
Proof.
  pose proof (lay_commit_relocks blocked_args false blocked_layered_swapped
                blocked_layered_swapped_reachable) as H.
  cbv zeta in H.
  assert (Hgates : _schedulable_gates (lay_base blocked_layered_swapped) true
                   = Ok [(cx 0 0 2, [1; 2])]) by (vm_compute; reflexivity).
  assert (Hrun : (Layered._update_state blocked_layered_swapped).1 = Ok tt)
    by (vm_compute; reflexivity).
  rewrite Hgates, Hrun in H. exact H.
Defined.

(** X17 at [line3_done], whose log holds a SWAP on (0, 1) and the CX on
    (1, 2). *)
Lemma seq_routed_gates_on_device_witness : on_device (seq_base line3_done).
Proof. exact (seq_routed_gates_on_device line3_args true line3_done line3_done_reachable). Defined.

(** X18 at [far_layered_swapped], whose log holds a SWAP on (0, 1). *)
Lemma lay_routed_gates_on_device_witness : on_device (lay_base far_layered_swapped).
Proof.
  exact (lay_routed_gates_on_device far_args false far_layered_swapped
           far_layered_swapped_reachable).
Defined.

(** X19 at [lookahead_state] with the depth 8: the remaining operations
    cx(q0, q2) and cx(q1, q3) both lie in the first layer. *)
Lemma qubit_interactions_obs_in_space_witness :
  QubitInteractions.obs 8 (seq_base lookahead_state) = Ok [-1; 0; -1; -1; 0; -1]%Z /\
  [length [-1; 0; -1; -1; 0; -1]%Z]
    = box_shape (QubitInteractions.space 8 (seq_base lookahead_state)).
Proof.
  assert (H : QubitInteractions.obs 8 (seq_base lookahead_state) = Ok [-1; 0; -1; -1; 0; -1]%Z)
    by (vm_compute; reflexivity).
  exact (conj H (proj1 (qubit_interactions_obs_in_space 8 (seq_base lookahead_state) _ H))).
Defined.

Lemma far_args_circuit (op_node : DAGOpNode) :
  op_node ∈ default [] (arg_circuit far_args) -> length (qargs op_node) = 2 ->
  exists q1 q2, qargs op_node = [q1; q2] /\ q1 <> q2 /\
                q1 < num_nodes (arg_coupling_map far_args) /\
                q2 < num_nodes (arg_coupling_map far_args).
Proof.
  intros Hin _. apply list_elem_of_singleton in Hin. subst op_node. exists 0, 2.
  split; [reflexivity|]. split; [done|]. split; vm_compute; lia.
Qed.

(** X20 at [far_args], in the states [far_state_swapped] and
    [far_layered_swapped]. *)
Lemma qubit_interactions_obs_returns_witness :
  (exists v, QubitInteractions.obs 8 (seq_base far_state_swapped) = Ok v) /\
  (exists v, QubitInteractions.obs 8 (lay_base far_layered_swapped) = Ok v).
Proof.
  destruct (qubit_interactions_obs_returns far_args 8 far_args_circuit) as [Hseq Hlay].
  split.
  - exact (Hseq true far_state_swapped far_state_swapped_reachable).
  - exact (Hlay false far_layered_swapped far_layered_swapped_reachable).
Defined.

(** X21 at [line3_reset] with the depth 2: cx(q1, q2), with q1 on the node
    0 and q2 on the node 2. *)
Lemma circuit_matrix_obs_in_space_witness :
  CircuitMatrix.obs 2 (seq_base line3_reset) = Ok [[2; -1]; [-1; -1]; [0; -1]]%Z /\
  [length [[2; -1]; [-1; -1]; [0; -1]]%Z; 2]
    = box_shape (CircuitMatrix.space 2 (seq_base line3_reset)).
Proof.
  assert (H : CircuitMatrix.obs 2 (seq_base line3_reset) = Ok [[2; -1]; [-1; -1]; [0; -1]]%Z)
    by (vm_compute; reflexivity).
  exact (conj H (proj1 (circuit_matrix_obs_in_space 2 (seq_base line3_reset) _ H))).
Defined.

Lemma line3_args_circuit (op_node : DAGOpNode) :
  op_node ∈ default [] (arg_circuit line3_args) -> length (qargs op_node) = 2 ->
  forall q, q ∈ qargs op_node -> q < num_nodes (arg_coupling_map line3_args).
Proof.
  intros Hin _ q Hq. apply list_elem_of_singleton in Hin. subst op_node.
  cbn in Hq. apply elem_of_cons in Hq as [->|Hq]; [vm_compute; lia|].
  apply list_elem_of_singleton in Hq. subst q. vm_compute. lia.
Qed.

(** X22 at [line3_args], in the state [line3_done], with the depth 2. *)
Lemma circuit_matrix_obs_reachable_witness :
  exists m,
    CircuitMatrix.obs 2 (seq_base line3_done) = Ok m /\
    [length m; 2] = box_shape (CircuitMatrix.space 2 (seq_base line3_done)) /\
    Forall (fun row => length row = 2) m /\
    Forall (Forall (fun x => (box_low (CircuitMatrix.space 2 (seq_base line3_done)) <= x
                              <= box_high (CircuitMatrix.space 2 (seq_base line3_done)))%Z)) m.
Proof.
  apply (circuit_matrix_obs_reachable line3_args true 2 line3_done).
  - exact line3_args_permutation.
  - exact line3_args_circuit.
  - lia.
  - exact line3_done_reachable.
Defined.

Lemma blocked_args_plain : plain_args blocked_args.
Proof.
  unfold plain_args. cbv zeta.
  change (num_nodes (arg_coupling_map blocked_args)) with 3.
  split; [by intros m [=]|]. split.
  { intros op_node q Hin Hq. apply list_elem_of_singleton in Hin. subst op_node.
    apply elem_of_cons in Hq as [->|Hq]; [lia|].
    apply list_elem_of_singleton in Hq. subst q. lia. }
  split.
  { intros edge Hin. apply elem_of_cons in Hin as [->|Hin]; [cbn; lia|].
    apply list_elem_of_singleton in Hin. subst edge. cbn. lia. }
  split; [|by split].
  intros x y Hx Hy Hd.
  destruct x as [|[|[|x]]]; [| | |lia]; (destruct y as [|[|[|y]]]; [| | |lia]);
    vm_compute in Hd; try discriminate Hd; vm_compute; reflexivity.
Qed.

Lemma blocked_state_reachable : seq_reachable blocked_args true blocked_state.
Proof. apply seq_reach_reset, seq_reach_init. vm_compute. reflexivity. Qed.

(** X23 at [blocked_state]. *)
Lemma seq_step_returns_witness :
  (exists obs, (Sequential.reset blocked_state).1 = Ok obs) /\
  forall action,
    action < num_edges (seq_base blocked_state)
             + length (bridge_pairs (config (seq_base blocked_state))) ->
    exists result, (Sequential.step action blocked_state).1 = Ok result.
Proof.
  exact (seq_step_returns blocked_args true blocked_state blocked_args_plain
           blocked_state_reachable).
Defined.

(** X24 at [blocked_layered_swapped]. *)
Lemma lay_step_returns_witness :
  (exists obs, (Layered.reset blocked_layered_swapped).1 = Ok obs) /\
  forall action,
    (action < num_edges (lay_base blocked_layered_swapped) \/
     num_edges (lay_base blocked_layered_swapped)
       + length (bridge_pairs (config (lay_base blocked_layered_swapped))) <= action \/
     exists pair args,
       bridge_pairs (config (lay_base blocked_layered_swapped))
         !! (action - num_edges (lay_base blocked_layered_swapped)) = Some pair /\
       _bridge_args (lay_base blocked_layered_swapped) pair = Ok (Some args)) ->
    exists result, (Layered.step action blocked_layered_swapped).1 = Ok result.
Proof.
  exact (lay_step_returns blocked_args false blocked_layered_swapped blocked_args_plain
           blocked_layered_swapped_reachable).
Defined.

(** X25 at [line3_done] and [far_layered_swapped]. *)
Lemma dag_holds_unrouted_operations_witness :
  dag_tracks_routed (seq_base line3_done) /\ dag_tracks_routed (lay_base far_layered_swapped).
Proof.
  destruct (dag_holds_unrouted_operations line3_args) as [Hseq _].
  destruct (dag_holds_unrouted_operations far_args) as [_ Hlay].
  exact (conj (proj1 (Hseq true line3_done line3_done_reachable))
              (proj1 (Hlay false far_layered_swapped far_layered_swapped_reachable))).
Defined.

